(** * go-xlog: the handler pipeline of [go.innotegrity.dev/xlog/handlers]

    A shallow embedding of the level gate, the fan-out composer and the
    SentinelOne HEC batching forwarder, and the properties the specification
    states about them.

    Conventions of the embedding.
    - [slog.Level] is Go's [int]; levels are integers of [Z].  The code only
      compares levels, with one another and with constants ([slog.LevelDebug-4]
      is one), so no wrap-around is involved there.  The one addition the code
      makes at run time, on buffer lengths, is written with its 64-bit
      wrap-around ([int_add]).
    - Objects reached through pointers live in a store ([World]): the
      [slog.LevelVar]s, the shared buffer of the forwarder, and the handler
      objects themselves.  A pointer is a location [loc]; Go has no dangling
      pointers, so a total lookup is used, whose default is the zero value of
      the type.
    - What the code does to the outside world (a delivery attempt, a call of
      the user's error handler, a goroutine started, a line written by a
      standard handler) is appended to the log of events of the [World].
    - The mutexes are not modelled: every operation below is one atomic step
      on the store, which is what the lock gives to its critical section. *)

From Stdlib Require Import ZArith Lia Bool.
From Stdlib.Strings Require Import Byte.
From stdpp Require Import base option list gmap strings.

Set Default Proof Using "Type".
Set Warnings "-register-all".

(** ** Locations, bytes *)

Definition loc := nat.
Definition bytes := list Byte.byte.

(** Go's [int] on the 64-bit platforms: the signed value of the low 64 bits. *)
Definition wrap_int (z : Z) : Z :=
  ((z + 2 ^ 63) mod 2 ^ 64 - 2 ^ 63)%Z.

Definition int_add (a b : Z) : Z := wrap_int (a + b).

(** [len] of a slice or [Len] of a [bytes.Buffer], an [int]. *)
Definition len {A} (l : list A) : Z := Z.of_nat (length l).

(** ** The part of [log/slog] the handlers use *)

Module slog.

Definition Level := Z.

Definition LevelDebug : Level := (-4)%Z.
Definition LevelInfo : Level := 0%Z.
Definition LevelWarn : Level := 4%Z.
Definition LevelError : Level := 8%Z.

(** [slog.Source], the call site of a record. *)
Record Source := {
  Function : string;
  File : string;
  Line : Z
}.

(** [slog.Value]; a time is held as nanoseconds since the epoch. *)
Inductive Value :=
| NilValue
| StringValue (s : string)
| Int64Value (n : Z)
| TimeValue (t : Z)
| AnyValue (src : Source)
| GroupValue (members : list (string * Value)).

Definition UnixMilli (t : Z) : Z := (t / 1000000)%Z.

Definition TimeKey : string := "time".
Definition LevelKey : string := "level".
Definition MessageKey : string := "msg".

Record Attr := {
  Key : string;
  Val : Value
}.

(** [slog.Attr{}], the zero attribute, which a handler drops. *)
Definition zeroAttr : Attr := {| Key := ""; Val := NilValue |}.

Definition String (k v : string) : Attr := {| Key := k; Val := StringValue v |}.

Definition Any (k : string) (src : Source) : Attr := {| Key := k; Val := AnyValue src |}.

Definition GroupAttrs (k : string) (attrs : list Attr) : Attr :=
  {| Key := k; Val := GroupValue (map (fun a => (Key a, Val a)) attrs) |}.

(** [slog.Record].  [Attrs] are the attributes in order.  [spare] is the
    unused capacity of the slice behind them: memory that copies of the
    record made by plain assignment share, and that [Clone] gives up. *)
Record Record := {
  Time : Z;
  Message : string;
  RLevel : Level;
  PC : Z;
  Attrs : list Attr;
  spare : nat
}.

Definition NewRecord (t : Z) (l : Level) (msg : string) (pc : Z) : Record :=
  {| Time := t; Message := msg; RLevel := l; PC := pc; Attrs := []; spare := 0 |}.

Definition AddAttrs (r : Record) (attrs : list Attr) : Record :=
  {| Time := Time r; Message := Message r; RLevel := RLevel r; PC := PC r;
     Attrs := Attrs r ++ attrs; spare := spare r - length attrs |}.

(** [Record.Clone]: the same record over a clipped slice, so that adding
    attributes to the copy cannot write into memory shared with [r]. *)
Definition Clone (r : Record) : Record :=
  {| Time := Time r; Message := Message r; RLevel := RLevel r; PC := PC r;
     Attrs := Attrs r; spare := 0 |}.

(** A handler of the standard library ([JSONHandler], [TextHandler]) or of
    [tint]: the writer it prints to and the groups and attributes it was
    extended with, in order. *)
Inductive GroupOrAttrs :=
| WithAttrsOp (attrs : list Attr)
| WithGroupOp (name : string).

Record Handler := {
  writer : string;
  goas : list GroupOrAttrs
}.

Definition WithAttrs (h : Handler) (attrs : list Attr) : Handler :=
  {| writer := writer h; goas := goas h ++ [WithAttrsOp attrs] |}.

Definition WithGroup (h : Handler) (name : string) : Handler :=
  {| writer := writer h; goas := goas h ++ [WithGroupOp name] |}.

End slog.

(** ** Errors *)

(** Values of Go's [error] interface that are not nil; an [error] that may be
    nil is an [option error]. *)
Inductive error :=
| ForeignError (msg : string)
| Errorf (format : string) (cause : error)
| XError (code : Z) (msg : string) (cause : option error)
| JoinError (errs : list error)
| UnexpectedError (shown : string).

(** The error codes of [errors.go] used by the forwarder. *)
Module xlog.
Definition DataCompressionError : Z := 13.
Definition HTTPClientError : Z := 14.
Definition HTTPRequestError : Z := 15.
Definition HTTPResponseError : Z := 16.

(** [xlog.ErrorHandlerFn]; the context plays no part and is left out. *)
Definition ErrorHandlerFn := error -> option slog.Record -> option error.
End xlog.

(** [errors.Join]: nil when every argument is nil, else an error wrapping the
    non-nil ones in order. *)
Definition errors_Join (errs : list (option error)) : option error :=
  match omap id errs with
  | [] => None
  | es => Some (JoinError es)
  end.

(** What a call that may panic ends with. *)
Inductive PanicValue :=
| PanicError (e : error)
| PanicOther (shown : string).

Inductive Outcome (A : Type) :=
| Returns (a : A)
| Panics (v : PanicValue).
Arguments Returns {A} a.
Arguments Panics {A} v.

(** [try] of util.go: runs the callback and turns a panic into an error, the
    panic value itself when it is an error. *)
Definition try (callback : Outcome (option error)) : option error :=
  match callback with
  | Returns err => err
  | Panics (PanicError e) => Some e
  | Panics (PanicOther shown) => Some (UnexpectedError shown)
  end.

(** ** The handler structs *)

Module console.

(** [ReplaceAttr] only shapes the printed line and is left to the standard
    handler.  [Level] is never nil in a handler: [NewConsoleHandler] puts a
    fresh variable there when the options have none. *)
Record ConsoleHandlerOptions := {
  ErrorHandler : option xlog.ErrorHandlerFn;
  Format : string;
  IncludeCaller : bool;
  Level : loc;
  MaxLevel : option loc;
  Stderr : bool
}.

Record ConsoleHandler := {
  handler : slog.Handler;
  options : ConsoleHandlerOptions
}.

End console.

Module file.

Record FileHandlerOptions := {
  BufferSize : Z;
  ErrorHandler : option xlog.ErrorHandlerFn;
  IncludeCaller : bool;
  Level : loc;
  MaxLevel : option loc
}.

Record FileHandler := {
  bufferedWriter : option loc;
  fileWriter : option loc;
  handler : slog.Handler;
  options : FileHandlerOptions
}.

End file.

Module sentinelone.

(** The options the methods below read.  [BufferSize] is a [types.Size], a
    count of bytes.  [Level] is never nil in a handler:
    [NewSentinelOneHECHandler] puts a fresh variable there when the options
    have none. *)
Record SentinelOneHECHandlerOptions := {
  BufferSize : Z;
  CallerKey : string;
  DisableAsync : bool;
  DSCategory : string;
  DSName : string;
  DSVendor : string;
  ErrorHandler : option xlog.ErrorHandlerFn;
  Host : string;
  IncludeCaller : bool;
  Level : loc;
  LevelTranslator : option (slog.Level -> string);
  MaxLevel : option loc;
  ReplaceAttr : option (list string -> slog.Attr -> slog.Attr);
  Scope : string;
  Source : string
}.

(** [state] points to the [sentinelOneHECHandlerState], the buffer that a
    handler and the handlers cloned from it share. *)
Record SentinelOneHECHandler := {
  attrs : list slog.Attr;
  authToken : string;
  client : loc;
  groups : list string;
  ingestionURL : string;
  options : SentinelOneHECHandlerOptions;
  state : loc
}.

Definition DefaultSentinelOneHECLevelTranslator (l : slog.Level) : string :=
  if (l >? slog.LevelError)%Z then "critical"
  else if (l >? slog.LevelWarn)%Z then "error"
  else if (l >? slog.LevelInfo)%Z then "warning"
  else if (l >? slog.LevelDebug)%Z then "info"
  else if (l >? slog.LevelDebug - 4)%Z then "debug"
  else if (l >? slog.LevelDebug - 8)%Z then "trace"
  else "finest".

(** The conversion [types.Size(n)] of an [int].  The type is declared in
    another module, [go.innotegrity.dev/types]; it is taken to be an unsigned
    count of 64 bits, of which the conversion keeps the low 64 bits of [n].
    The statements below use it on sums that fit in an [int], where a signed
    type of 64 bits converts the same way. *)
Definition Size (n : Z) : Z := (n mod 2 ^ 64)%Z.

End sentinelone.

(** ** The store *)

(** A goroutine started by [go h.send(ctx, &record, payload)]. *)
Record Task := {
  task_handler : loc;
  task_record : slog.Record;
  task_payload : bytes
}.

(** An HTTP request as [send] builds it, and the response to it. *)
Record Request := {
  Method : string;
  URL : string;
  Authorization : string;
  ContentType : string;
  ContentEncoding : string;
  S1Scope : string;
  Body : bytes
}.

Record Response := {
  StatusCode : Z;
  Status : string;
  ResponseBody : string
}.

Inductive Event :=
| Delivery (payload : bytes) (r : option slog.Record)
| Posted (req : Request)
| Reported (err : error) (r : option slog.Record)
| Wrote (h : slog.Handler) (r : slog.Record).

Record World := {
  levelVars : gmap loc slog.Level;
  buffers : gmap loc bytes;
  consoleHandlers : gmap loc console.ConsoleHandler;
  fileHandlers : gmap loc file.FileHandler;
  sentinelOneHandlers : gmap loc sentinelone.SentinelOneHECHandler;
  goroutines : list Task;
  events : list Event
}.

(** What lies outside the program: the formatting done by the handlers of the
    standard library, the symbol table, gzip and the network.
    [JSONHandler_Handle] is a JSON handler writing to a buffer of its own: it
    is given the function that rewrites attributes and the attributes and
    groups the handler was extended with, and returns what it wrote.
    [client_Do] sees how many events came before, so that a collector may
    answer one attempt and refuse the next. *)
Class Env := {
  JSONHandler_Handle :
    (list string -> slog.Attr -> slog.Attr) -> list slog.Attr -> list string ->
    slog.Record -> error + bytes;
  Handler_Handle : slog.Handler -> slog.Record -> option error;
  CallersFrames : Z -> slog.Source;
  gzip_Write : bytes -> option error;
  gzip_Close : bytes -> option error;
  gzip : bytes -> bytes;
  http_NewRequest : string -> string -> bytes -> option error;
  client_Do : nat -> Request -> error + Response
}.

(** The zero values, which the total lookups fall back on. *)
#[global] Instance ConsoleHandler_inhabited : Inhabited console.ConsoleHandler :=
  populate {| console.handler := {| slog.writer := ""; slog.goas := [] |};
              console.options := {| console.ErrorHandler := None; console.Format := "";
                console.IncludeCaller := false; console.Level := 0; console.MaxLevel := None;
                console.Stderr := false |} |}.

#[global] Instance FileHandler_inhabited : Inhabited file.FileHandler :=
  populate {| file.bufferedWriter := None; file.fileWriter := None;
              file.handler := {| slog.writer := ""; slog.goas := [] |};
              file.options := {| file.BufferSize := 0; file.ErrorHandler := None;
                file.IncludeCaller := false; file.Level := 0; file.MaxLevel := None |} |}.

#[global] Instance SentinelOneHECHandler_inhabited :
  Inhabited sentinelone.SentinelOneHECHandler :=
  populate {| sentinelone.attrs := []; sentinelone.authToken := ""; sentinelone.client := 0;
              sentinelone.groups := []; sentinelone.ingestionURL := "";
              sentinelone.options := {| sentinelone.BufferSize := 0; sentinelone.CallerKey := "";
                sentinelone.DisableAsync := false; sentinelone.DSCategory := "";
                sentinelone.DSName := ""; sentinelone.DSVendor := "";
                sentinelone.ErrorHandler := None; sentinelone.Host := "";
                sentinelone.IncludeCaller := false; sentinelone.Level := 0;
                sentinelone.LevelTranslator := None; sentinelone.MaxLevel := None;
                sentinelone.ReplaceAttr := None;
                sentinelone.Scope := ""; sentinelone.Source := "" |};
              sentinelone.state := 0 |}.

(** Updates of one component of the store. *)
Definition set_levelVars (f : gmap loc slog.Level -> gmap loc slog.Level) (w : World) : World :=
  {| levelVars := f (levelVars w); buffers := buffers w;
     consoleHandlers := consoleHandlers w; fileHandlers := fileHandlers w;
     sentinelOneHandlers := sentinelOneHandlers w;
     goroutines := goroutines w; events := events w |}.

Definition set_buffers (f : gmap loc bytes -> gmap loc bytes) (w : World) : World :=
  {| levelVars := levelVars w; buffers := f (buffers w);
     consoleHandlers := consoleHandlers w; fileHandlers := fileHandlers w;
     sentinelOneHandlers := sentinelOneHandlers w;
     goroutines := goroutines w; events := events w |}.

Definition set_consoleHandlers
    (f : gmap loc console.ConsoleHandler -> gmap loc console.ConsoleHandler) (w : World) : World :=
  {| levelVars := levelVars w; buffers := buffers w;
     consoleHandlers := f (consoleHandlers w); fileHandlers := fileHandlers w;
     sentinelOneHandlers := sentinelOneHandlers w;
     goroutines := goroutines w; events := events w |}.

Definition set_fileHandlers
    (f : gmap loc file.FileHandler -> gmap loc file.FileHandler) (w : World) : World :=
  {| levelVars := levelVars w; buffers := buffers w;
     consoleHandlers := consoleHandlers w; fileHandlers := f (fileHandlers w);
     sentinelOneHandlers := sentinelOneHandlers w;
     goroutines := goroutines w; events := events w |}.

Definition set_sentinelOneHandlers
    (f : gmap loc sentinelone.SentinelOneHECHandler -> gmap loc sentinelone.SentinelOneHECHandler)
    (w : World) : World :=
  {| levelVars := levelVars w; buffers := buffers w;
     consoleHandlers := consoleHandlers w; fileHandlers := fileHandlers w;
     sentinelOneHandlers := f (sentinelOneHandlers w);
     goroutines := goroutines w; events := events w |}.

Definition set_goroutines (f : list Task -> list Task) (w : World) : World :=
  {| levelVars := levelVars w; buffers := buffers w;
     consoleHandlers := consoleHandlers w; fileHandlers := fileHandlers w;
     sentinelOneHandlers := sentinelOneHandlers w;
     goroutines := f (goroutines w); events := events w |}.

Definition emit (e : Event) (w : World) : World :=
  {| levelVars := levelVars w; buffers := buffers w;
     consoleHandlers := consoleHandlers w; fileHandlers := fileHandlers w;
     sentinelOneHandlers := sentinelOneHandlers w;
     goroutines := goroutines w; events := events w ++ [e] |}.

Definition emits (es : list Event) (w : World) : World :=
  {| levelVars := levelVars w; buffers := buffers w;
     consoleHandlers := consoleHandlers w; fileHandlers := fileHandlers w;
     sentinelOneHandlers := sentinelOneHandlers w;
     goroutines := goroutines w; events := events w ++ es |}.

(** [slog.LevelVar]: [Level] reads the variable, [Set_] (Go's [Set], a
    reserved word here) writes it.  A variable
    declared with [var level slog.LevelVar] and never set holds
    [slog.LevelInfo], the zero value. *)
Module LevelVar.
Definition Level (w : World) (v : loc) : slog.Level := levelVars w !!! v.
Definition Set_ (w : World) (v : loc) (l : slog.Level) : World :=
  set_levelVars <[v := l]> w.
End LevelVar.

(** [bytes.Buffer]: the content [Len] and [Bytes] read, [Reset] and [Write].
    [Write] never returns an error. *)
Module Buffer.
Definition Bytes (w : World) (b : loc) : bytes := buffers w !!! b.
Definition Len (w : World) (b : loc) : Z := len (Bytes w b).
Definition Reset (w : World) (b : loc) : World := set_buffers <[b := []]> w.
Definition Write (w : World) (b : loc) (p : bytes) : World * option error :=
  (set_buffers <[b := Bytes w b ++ p]> w, None).
End Buffer.

(** ** The methods of the leaf handlers *)

Module DiscardHandler.

(** [Enabled] always returns false as this handler just discards messages. *)
Definition Enabled (w : World) (level : slog.Level) : bool := false.

Definition Handle (w : World) (r : slog.Record) : World * option error := (w, None).

End DiscardHandler.

Module ConsoleHandler.
Import console.

Section Methods.
Context `{env : Env}.

Definition deref (w : World) (h : loc) : ConsoleHandler := consoleHandlers w !!! h.

Definition new (w : World) (v : ConsoleHandler) : World * loc :=
  let p := fresh (dom (consoleHandlers w)) in
  (set_consoleHandlers <[p := v]> w, p).

Definition Enabled (w : World) (h : loc) (level : slog.Level) : bool :=
  let handlerLevel := LevelVar.Level w (Level (options (deref w h))) in
  match MaxLevel (options (deref w h)) with
  | None => (level >=? handlerLevel)%Z
  | Some _ => (level >=? handlerLevel)%Z && (level <=? handlerLevel)%Z
  end.

Definition GetLevelVar (w : World) (h : loc) : loc := Level (options (deref w h)).

Definition GetMaxLevelVar (w : World) (h : loc) : option loc :=
  MaxLevel (options (deref w h)).

Definition Handle (w : World) (h : loc) (r : slog.Record) : World * option error :=
  let v := deref w h in
  let w := emit (Wrote (handler v) r) w in
  let err := Handler_Handle (handler v) r in
  match err, ErrorHandler (options v) with
  | Some e, Some f => (emit (Reported e (Some r)) w, f e (Some r))
  | _, _ => (w, err)
  end.

Definition clone (w : World) (h : loc) : World * loc :=
  new w {| handler := handler (deref w h); options := options (deref w h) |}.

Definition WithAttrs (w : World) (h : loc) (attrs : list slog.Attr) : World * loc :=
  let '(w, c) := clone w h in
  (set_consoleHandlers
     <[c := {| handler := slog.WithAttrs (handler (deref w h)) attrs;
               options := options (deref w c) |}]> w, c).

Definition WithGroup (w : World) (h : loc) (name : string) : World * loc :=
  if (String.length name =? 0)%nat then (w, h)
  else
    let '(w, c) := clone w h in
    (set_consoleHandlers
       <[c := {| handler := slog.WithGroup (handler (deref w h)) name;
                 options := options (deref w c) |}]> w, c).

End Methods.
End ConsoleHandler.

Module FileHandler.
Import file.

Section Methods.
Context `{env : Env}.

Definition deref (w : World) (h : loc) : FileHandler := fileHandlers w !!! h.

Definition new (w : World) (v : FileHandler) : World * loc :=
  let p := fresh (dom (fileHandlers w)) in
  (set_fileHandlers <[p := v]> w, p).

Definition Enabled (w : World) (h : loc) (level : slog.Level) : bool :=
  let handlerLevel := LevelVar.Level w (Level (options (deref w h))) in
  match MaxLevel (options (deref w h)) with
  | None => (level >=? handlerLevel)%Z
  | Some _ => (level >=? handlerLevel)%Z && (level <=? handlerLevel)%Z
  end.

Definition GetLevelVar (w : World) (h : loc) : loc := Level (options (deref w h)).

Definition GetMaxLevelVar (w : World) (h : loc) : option loc :=
  MaxLevel (options (deref w h)).

Definition Handle (w : World) (h : loc) (r : slog.Record) : World * option error :=
  let v := deref w h in
  let w := emit (Wrote (handler v) r) w in
  let err := Handler_Handle (handler v) r in
  match err, ErrorHandler (options v) with
  | Some e, Some f => (emit (Reported e (Some r)) w, f e (Some r))
  | _, _ => (w, err)
  end.

Definition clone (w : World) (h : loc) : World * loc :=
  new w {| bufferedWriter := bufferedWriter (deref w h);
           fileWriter := fileWriter (deref w h);
           handler := handler (deref w h);
           options := options (deref w h) |}.

Definition WithAttrs (w : World) (h : loc) (attrs : list slog.Attr) : World * loc :=
  let '(w, c) := clone w h in
  (set_fileHandlers
     <[c := {| bufferedWriter := bufferedWriter (deref w c);
               fileWriter := fileWriter (deref w c);
               handler := slog.WithAttrs (handler (deref w h)) attrs;
               options := options (deref w c) |}]> w, c).

Definition WithGroup (w : World) (h : loc) (name : string) : World * loc :=
  if (String.length name =? 0)%nat then (w, h)
  else
    let '(w, c) := clone w h in
    (set_fileHandlers
       <[c := {| bufferedWriter := bufferedWriter (deref w c);
                 fileWriter := fileWriter (deref w c);
                 handler := slog.WithGroup (handler (deref w h)) name;
                 options := options (deref w c) |}]> w, c).

End Methods.
End FileHandler.

(** ** The batching forwarder *)

Module SentinelOneHECHandler.
Import sentinelone.

Section Methods.
Context `{env : Env}.

Definition deref (w : World) (h : loc) : SentinelOneHECHandler :=
  sentinelOneHandlers w !!! h.

Definition new (w : World) (v : SentinelOneHECHandler) : World * loc :=
  let p := fresh (dom (sentinelOneHandlers w)) in
  (set_sentinelOneHandlers <[p := v]> w, p).

(** [handleError] calls the error handler if one is defined. *)
Definition handleError (w : World) (h : loc) (err : error) (r : option slog.Record)
  : World * option error :=
  match ErrorHandler (options (deref w h)) with
  | Some f => (emit (Reported err r) w, f err r)
  | None => (w, Some err)
  end.

(** [send] posts one payload to the collector.  The [Delivery] event marks
    the call, [Posted] the request handed to the HTTP client. *)
Definition send (w : World) (h : loc) (r : option slog.Record) (payload : bytes)
  : World * option error :=
  let w := emit (Delivery payload r) w in
  match gzip_Write payload with
  | Some err =>
      handleError w h
        (XError xlog.DataCompressionError "failed to compress payload: %s" (Some err)) r
  | None =>
  match gzip_Close payload with
  | Some err =>
      handleError w h
        (XError xlog.DataCompressionError "failed to close gzip writer: %s" (Some err)) r
  | None =>
  let gzipBuf := gzip payload in
  match http_NewRequest "POST" (ingestionURL (deref w h)) gzipBuf with
  | Some err =>
      handleError w h
        (XError xlog.HTTPRequestError "failed to create HTTP request: %s" (Some err)) r
  | None =>
  let req := {| Method := "POST"; URL := ingestionURL (deref w h);
                Authorization := authToken (deref w h);
                ContentType := "application/json";
                ContentEncoding := "gzip";
                S1Scope := Scope (options (deref w h));
                Body := gzipBuf |} in
  let resp := client_Do (length (events w)) req in
  let w := emit (Posted req) w in
  match resp with
  | inl err =>
      handleError w h
        (XError xlog.HTTPClientError "failed to execute HTTP request: %s" (Some err)) r
  | inr resp =>
      if (StatusCode resp >=? 400)%Z then
        handleError w h
          (XError xlog.HTTPResponseError
             "log endpoint returned non-OK status: %s, body: %s" None) r
      else (w, None)
  end end end end.

(** [Close] synchronously flushes any data in the buffer. *)
Definition Close (w : World) (h : loc) : World * option error :=
  let st := state (deref w h) in
  if (Buffer.Len w st =? 0)%Z then (w, None)
  else
    let payload := Buffer.Bytes w st in
    let w := Buffer.Reset w st in
    let '(w, _) := send w h None payload in
    (w, None).

Definition Enabled (w : World) (h : loc) (level : slog.Level) : bool :=
  let handlerLevel := LevelVar.Level w (Level (options (deref w h))) in
  match MaxLevel (options (deref w h)) with
  | None => (level >=? handlerLevel)%Z
  | Some _ => (level >=? handlerLevel)%Z && (level <=? handlerLevel)%Z
  end.

Definition GetLevelVar (w : World) (h : loc) : loc := Level (options (deref w h)).

Definition GetMaxLevelVar (w : World) (h : loc) : option loc :=
  MaxLevel (options (deref w h)).

(** The function [Handle] gives the JSON handler to rewrite attributes with:
    the one of the options first; then the time at top level becomes
    milliseconds since the epoch, and the level and the message at top level
    are dropped. *)
Definition replaceAttr (v : SentinelOneHECHandler) (groups : list string) (attr : slog.Attr)
  : slog.Attr :=
  let numGroups := len groups in
  let attr :=
    match ReplaceAttr (options v) with
    | Some replace => replace groups attr
    | None => attr
    end in
  let attr :=
    match slog.Val attr with
    | slog.TimeValue t =>
        if (numGroups =? 0)%Z && String.eqb (slog.Key attr) slog.TimeKey then
          {| slog.Key := "time"; slog.Val := slog.Int64Value (slog.UnixMilli t) |}
        else attr
    | _ => attr
    end in
  if (numGroups =? 0)%Z &&
     (String.eqb (slog.Key attr) slog.LevelKey || String.eqb (slog.Key attr) slog.MessageKey)
  then slog.zeroAttr
  else attr.

(** The record [Handle] hands to the JSON handler: the attributes of [r], the
    message, the severity, the caller and the data source under an "event"
    group, then the host, source and source type. *)
Definition eventRecord (v : SentinelOneHECHandler) (r : slog.Record) : slog.Record :=
  let eventAttrs := slog.Attrs r in
  let eventAttrs := eventAttrs ++ [slog.String "message" (slog.Message r)] in
  let severity :=
    match LevelTranslator (options v) with
    | Some translate => translate (slog.RLevel r)
    | None => DefaultSentinelOneHECLevelTranslator (slog.RLevel r)
    end in
  let eventAttrs := eventAttrs ++ [slog.String "severity" severity] in
  let eventAttrs :=
    if IncludeCaller (options v) && negb (slog.PC r =? 0)%Z then
      eventAttrs ++ [slog.Any (CallerKey (options v)) (CallersFrames (slog.PC r))]
    else eventAttrs in
  let eventAttrs :=
    eventAttrs ++ [slog.GroupAttrs "dataSource"
                     [slog.String "category" (DSCategory (options v));
                      slog.String "name" (DSName (options v));
                      slog.String "vendor" (DSVendor (options v))]] in
  let record := slog.NewRecord (slog.Time r) (slog.RLevel r) (slog.Message r) (slog.PC r) in
  let record :=
    if (len eventAttrs >? 0)%Z then slog.AddAttrs record [slog.GroupAttrs "event" eventAttrs]
    else record in
  slog.AddAttrs record
    [slog.String "host" (Host (options v));
     slog.String "source" (Source (options v));
     slog.String "sourcetype" "gron"].

(** [Handle] formats the record outside the lock, then, under the lock, cuts
    the batch if there is one to cut, appends the record, and sends the batch
    cut. *)
Definition Handle (w : World) (h : loc) (r : slog.Record) : World * option error :=
  let v := deref w h in
  let record := eventRecord v r in
  match JSONHandler_Handle (replaceAttr v) (attrs v) (groups v) record with
  | inl err =>
      handleError w h
        (Errorf "failed to format log record to send to SentinelOne HTTP event collector: %w" err)
        (Some record)
  | inr out =>
  let recordBuf := out ++ [x0a] in
  let st := state v in
  let '(w, payload) :=
    if (Buffer.Len w st >? 0)%Z &&
       ((BufferSize (options v) =? 0)%Z ||
        (Size (int_add (Buffer.Len w st) (len recordBuf)) >? BufferSize (options v))%Z)
    then (Buffer.Reset w st, Some (Buffer.Bytes w st))
    else (w, None) in
  match Buffer.Write w st recordBuf with
  | (w, Some err) =>
      handleError w h
        (Errorf "failed to write to buffer for SentinelOne HTTP event collector: %w" err)
        (Some record)
  | (w, None) =>
  match payload with
  | Some payload =>
      if DisableAsync (options v) then send w h (Some record) payload
      else
        (set_goroutines
           (fun gs => gs ++ [{| task_handler := h; task_record := record;
                                task_payload := payload |}]) w, None)
  | None => (w, None)
  end end end.

(** One goroutine started by [Handle] runs to its end; what [send] returns
    there is dropped. *)
Definition run (w : World) (i : nat) : World :=
  match goroutines w !! i with
  | Some t =>
      fst (send (set_goroutines (delete i) w)
             (task_handler t) (Some (task_record t)) (task_payload t))
  | None => w
  end.

(** [clone] creates a copy of the handler; the copy points to the same level
    variables, client and state. *)
Definition clone (w : World) (h : loc) : World * loc :=
  let v := deref w h in
  new w {| attrs := attrs v; authToken := authToken v; client := client v;
           groups := groups v; ingestionURL := ingestionURL v;
           options := options v; state := state v |}.

Definition WithAttrs (w : World) (h : loc) (more : list slog.Attr) : World * loc :=
  let '(w, c) := clone w h in
  let newAttrs := attrs (deref w h) ++ more in
  let v := deref w c in
  (set_sentinelOneHandlers
     <[c := {| attrs := newAttrs; authToken := authToken v; client := client v;
               groups := groups v; ingestionURL := ingestionURL v;
               options := options v; state := state v |}]> w, c).

Definition WithGroup (w : World) (h : loc) (name : string) : World * loc :=
  if (String.length name =? 0)%nat then (w, h)
  else
    let '(w, c) := clone w h in
    let newGroups := groups (deref w h) ++ [name] in
    let v := deref w c in
    (set_sentinelOneHandlers
       <[c := {| attrs := attrs v; authToken := authToken v; client := client v;
                 groups := newGroups; ingestionURL := ingestionURL v;
                 options := options v; state := state v |}]> w, c).

End Methods.
End SentinelOneHECHandler.

(** ** The [slog.Handler] interface *)

(** What the fan-out handler asks of its children.  [Handle] may panic;
    [WithAttrs] and [WithGroup] may allocate. *)
Module Handler.

Class Handler (H : Type) := {
  Enabled : World -> H -> slog.Level -> bool;
  Handle : World -> H -> slog.Record -> World * Outcome (option error);
  WithAttrs : World -> H -> list slog.Attr -> World * H;
  WithGroup : World -> H -> string -> World * H
}.

End Handler.

(** The handlers of this package that end a chain, as a child holds them:
    pointers to the structs, and [slog.DiscardHandler], to which the methods of
    a [DiscardHandler] pass attributes and groups. *)
Inductive Sink :=
| Console (h : loc)
| File (h : loc)
| SentinelOneHEC (h : loc)
| Discard
| SlogDiscard.

Definition returns {A} (x : World * A) : World * Outcome A :=
  (fst x, Returns (snd x)).

Definition Sink_Enabled (w : World) (s : Sink) (level : slog.Level) : bool :=
  match s with
  | Console h => ConsoleHandler.Enabled w h level
  | File h => FileHandler.Enabled w h level
  | SentinelOneHEC h => SentinelOneHECHandler.Enabled w h level
  | Discard => DiscardHandler.Enabled w level
  | SlogDiscard => false
  end.

Definition Sink_Handle `{env : Env} (w : World) (s : Sink) (r : slog.Record)
  : World * Outcome (option error) :=
  match s with
  | Console h => returns (ConsoleHandler.Handle w h r)
  | File h => returns (FileHandler.Handle w h r)
  | SentinelOneHEC h => returns (SentinelOneHECHandler.Handle w h r)
  | Discard => returns (DiscardHandler.Handle w r)
  | SlogDiscard => (w, Returns None)
  end.

Definition Sink_WithAttrs (w : World) (s : Sink) (attrs : list slog.Attr)
  : World * Sink :=
  match s with
  | Console h => let '(w, c) := ConsoleHandler.WithAttrs w h attrs in (w, Console c)
  | File h => let '(w, c) := FileHandler.WithAttrs w h attrs in (w, File c)
  | SentinelOneHEC h =>
      let '(w, c) := SentinelOneHECHandler.WithAttrs w h attrs in (w, SentinelOneHEC c)
  | Discard => (w, SlogDiscard)
  | SlogDiscard => (w, SlogDiscard)
  end.

Definition Sink_WithGroup (w : World) (s : Sink) (name : string)
  : World * Sink :=
  match s with
  | Console h => let '(w, c) := ConsoleHandler.WithGroup w h name in (w, Console c)
  | File h => let '(w, c) := FileHandler.WithGroup w h name in (w, File c)
  | SentinelOneHEC h =>
      let '(w, c) := SentinelOneHECHandler.WithGroup w h name in (w, SentinelOneHEC c)
  | Discard => (w, SlogDiscard)
  | SlogDiscard => (w, SlogDiscard)
  end.

#[global] Instance Sink_Handler `{env : Env} : Handler.Handler Sink := {
  Handler.Enabled := Sink_Enabled;
  Handler.Handle := Sink_Handle;
  Handler.WithAttrs := Sink_WithAttrs;
  Handler.WithGroup := Sink_WithGroup
}.

(** ** The fan-out handler *)

Module fanout.

Record FanoutHandlerOptions (H : Type) := {
  Handlers : list H
}.
Arguments Handlers {H} _.

Record FanoutHandler (H : Type) := {
  options : FanoutHandlerOptions H
}.
Arguments options {H} _.

Definition NewFanoutHandler {H} (o : FanoutHandlerOptions H) : FanoutHandler H :=
  {| options := o |}.

End fanout.

Module FanoutHandler.
Import fanout.

Section Methods.
Context {H : Type} `{children : Handler.Handler H}.

(** [Enabled] returns true if any child handler is enabled. *)
Fixpoint anyEnabled (w : World) (handlers : list H) (level : slog.Level) : bool :=
  match handlers with
  | [] => false
  | handler :: rest =>
      if Handler.Enabled w handler level then true else anyEnabled w rest level
  end.

Definition Enabled (w : World) (h : FanoutHandler H) (level : slog.Level) : bool :=
  anyEnabled w (Handlers (options h)) level.

(** One turn of the loop of [Handle], kept for the statements below: the
    child, the store it was reached in, and for a child that was enabled the
    record it was given and how its [Handle] ended. *)
Record Visit := {
  child : H;
  reached : World;
  call : option (slog.Record * Outcome (option error))
}.

(** The loop of [Handle]; [errs] are the errors collected so far. *)
Fixpoint handleEach (w : World) (handlers : list H) (r : slog.Record) (errs : list error)
  : World * list error * list Visit :=
  match handlers with
  | [] => (w, errs, [])
  | handler :: rest =>
      if Handler.Enabled w handler (slog.RLevel r) then
        let '(w', out) := Handler.Handle w handler (slog.Clone r) in
        let errs := match try out with
                    | Some err => errs ++ [err]
                    | None => errs
                    end in
        let '(w'', errs, visits) := handleEach w' rest r errs in
        (w'', errs,
         {| child := handler; reached := w; call := Some (slog.Clone r, out) |} :: visits)
      else
        let '(w'', errs, visits) := handleEach w rest r errs in
        (w'', errs, {| child := handler; reached := w; call := None |} :: visits)
  end.

Definition visits (w : World) (h : FanoutHandler H) (r : slog.Record) : list Visit :=
  snd (handleEach w (Handlers (options h)) r []).

(** The store a turn leaves: the one the child's [Handle] left, or the one
    the child was reached in when it was skipped. *)
Definition after (v : Visit) : World :=
  match call v with
  | Some (r, _) => fst (Handler.Handle (reached v) (child v) r)
  | None => reached v
  end.

(** The turns follow one another from [w] to [w']. *)
Fixpoint chained (w : World) (vs : list Visit) (w' : World) : Prop :=
  match vs with
  | [] => w' = w
  | v :: vs => reached v = w /\ chained (after v) vs w'
  end.

(** The error a turn adds to the collected ones, if any. *)
Definition tried (v : Visit) : option error :=
  match call v with
  | Some (_, out) => try out
  | None => None
  end.

(** A turn is in order when the child was skipped for not being enabled in
    the store it was reached in, or was enabled there and given a clone of
    the record. *)
Definition inOrder (r : slog.Record) (v : Visit) : Prop :=
  call v =
    if Handler.Enabled (reached v) (child v) (slog.RLevel r) then
      Some (slog.Clone r, snd (Handler.Handle (reached v) (child v) (slog.Clone r)))
    else None.

(** [Handle] distributes a log record to all enabled handlers. *)
Definition Handle (w : World) (h : FanoutHandler H) (r : slog.Record) : World * option error :=
  let '(w, errs, _) := handleEach w (Handlers (options h)) r [] in
  (w, errors_Join (map Some errs)).

Fixpoint withAttrsEach (w : World) (handlers : list H) (attrs : list slog.Attr)
  : World * list H :=
  match handlers with
  | [] => (w, [])
  | handler :: rest =>
      let '(w, handler') := Handler.WithAttrs w handler attrs in
      let '(w, rest') := withAttrsEach w rest attrs in
      (w, handler' :: rest')
  end.

Definition WithAttrs (w : World) (h : FanoutHandler H) (attrs : list slog.Attr)
  : World * FanoutHandler H :=
  let '(w, handlers) := withAttrsEach w (Handlers (options h)) attrs in
  (w, NewFanoutHandler {| Handlers := handlers |}).

Fixpoint withGroupEach (w : World) (handlers : list H) (name : string) : World * list H :=
  match handlers with
  | [] => (w, [])
  | handler :: rest =>
      let '(w, handler') := Handler.WithGroup w handler name in
      let '(w, rest') := withGroupEach w rest name in
      (w, handler' :: rest')
  end.

Definition WithGroup (w : World) (h : FanoutHandler H) (name : string)
  : World * FanoutHandler H :=
  if String.eqb name "" then (w, h)
  else
    let '(w, handlers) := withGroupEach w (Handlers (options h)) name in
    (w, NewFanoutHandler {| Handlers := handlers |}).

End Methods.
End FanoutHandler.

(** A fan-out handler is a handler, and may be a child of another. *)
#[global] Instance FanoutHandler_Handler {H} `{children : Handler.Handler H}
  : Handler.Handler (fanout.FanoutHandler H) := {
  Handler.Enabled := FanoutHandler.Enabled;
  Handler.Handle w h r := returns (FanoutHandler.Handle w h r);
  Handler.WithAttrs := FanoutHandler.WithAttrs;
  Handler.WithGroup := FanoutHandler.WithGroup
}.

(** The [xlog.LevelVarHandler] interface, which the discard handler does not
    implement. *)
Definition Sink_GetLevelVar (w : World) (s : Sink) : option loc :=
  match s with
  | Console h => Some (ConsoleHandler.GetLevelVar w h)
  | File h => Some (FileHandler.GetLevelVar w h)
  | SentinelOneHEC h => Some (SentinelOneHECHandler.GetLevelVar w h)
  | Discard | SlogDiscard => None
  end.

Definition Sink_GetMaxLevelVar (w : World) (s : Sink) : option loc :=
  match s with
  | Console h => ConsoleHandler.GetMaxLevelVar w h
  | File h => FileHandler.GetMaxLevelVar w h
  | SentinelOneHEC h => SentinelOneHECHandler.GetMaxLevelVar w h
  | Discard | SlogDiscard => None
  end.

(** ** What the statements observe *)

(** The payloads [send] was called with, in order. *)
Definition delivered (evs : list Event) : list bytes :=
  omap (fun e => match e with Delivery payload _ => Some payload | _ => None end) evs.

(** The calls of the error handler, in order. *)
Definition reported (evs : list Event) : list (error * option slog.Record) :=
  omap (fun e => match e with Reported err r => Some (err, r) | _ => None end) evs.

(** The error of one delivery before the error handler sees it: what [send]
    passes to [handleError], nil when the collector accepts the payload.  [n]
    is the number of events before the request is posted. *)
Definition deliveryError `{env : Env} (v : sentinelone.SentinelOneHECHandler) (n : nat)
    (payload : bytes) : option error :=
  match gzip_Write payload with
  | Some err =>
      Some (XError xlog.DataCompressionError "failed to compress payload: %s" (Some err))
  | None =>
  match gzip_Close payload with
  | Some err =>
      Some (XError xlog.DataCompressionError "failed to close gzip writer: %s" (Some err))
  | None =>
  match http_NewRequest "POST" (sentinelone.ingestionURL v) (gzip payload) with
  | Some err =>
      Some (XError xlog.HTTPRequestError "failed to create HTTP request: %s" (Some err))
  | None =>
  match client_Do n
          {| Method := "POST"; URL := sentinelone.ingestionURL v;
             Authorization := sentinelone.authToken v;
             ContentType := "application/json"; ContentEncoding := "gzip";
             S1Scope := sentinelone.Scope (sentinelone.options v);
             Body := gzip payload |} with
  | inl err =>
      Some (XError xlog.HTTPClientError "failed to execute HTTP request: %s" (Some err))
  | inr resp =>
      if (StatusCode resp >=? 400)%Z then
        Some (XError xlog.HTTPResponseError
                "log endpoint returned non-OK status: %s, body: %s" None)
      else None
  end end end end.

(** What the caller of a synchronous delivery gets back for a delivery error:
    the error itself, or what the error handler makes of it. *)
Definition surfaced (v : sentinelone.SentinelOneHECHandler) (r : option slog.Record)
    (err : option error) : option error :=
  match err with
  | None => None
  | Some e =>
      match sentinelone.ErrorHandler (sentinelone.options v) with
      | Some f => f e r
      | None => Some e
      end
  end.

(** What the error handler is called with for it. *)
Definition routed (v : sentinelone.SentinelOneHECHandler) (r : option slog.Record)
    (err : option error) : list (error * option slog.Record) :=
  match err, sentinelone.ErrorHandler (sentinelone.options v) with
  | Some e, Some _ => [(e, r)]
  | _, _ => []
  end.

(** The handler objects of a store, and the rest of it. *)
Definition sameHandlers (w w' : World) : Prop :=
  consoleHandlers w' = consoleHandlers w /\
  fileHandlers w' = fileHandlers w /\
  sentinelOneHandlers w' = sentinelOneHandlers w.

(** [w'] is [w] with handler objects added: every object of [w] is in [w']
    as it was, and nothing else of the store differs. *)
Definition extends (w w' : World) : Prop :=
  consoleHandlers w ⊆ consoleHandlers w' /\
  fileHandlers w ⊆ fileHandlers w' /\
  sentinelOneHandlers w ⊆ sentinelOneHandlers w' /\
  levelVars w' = levelVars w /\
  buffers w' = buffers w /\
  goroutines w' = goroutines w /\
  events w' = events w.

(** A handler that is no object of [w]. *)
Definition newIn (w : World) (s : Sink) : Prop :=
  match s with
  | Console h => consoleHandlers w !! h = None
  | File h => fileHandlers w !! h = None
  | SentinelOneHEC h => sentinelOneHandlers w !! h = None
  | Discard | SlogDiscard => True
  end.

(** What [WithGroup] returns for the empty name: the receiver, but for the
    discard handler, which passes the call to [slog.DiscardHandler]. *)
Definition ungrouped (s : Sink) : Sink :=
  match s with
  | Discard => SlogDiscard
  | _ => s
  end.

(** The handler [c] reads the level variables that [s] reads, and is enabled
    for the levels [s] is enabled for in every store that has the handler
    objects of [w], whatever was set in the level variables since. *)
Definition sharesGate (w : World) (s c : Sink) : Prop :=
  Sink_GetLevelVar w c = Sink_GetLevelVar w s /\
  Sink_GetMaxLevelVar w c = Sink_GetMaxLevelVar w s /\
  forall (w' : World) (level : slog.Level),
    sameHandlers w w' ->
    Sink_Enabled w' c level = Sink_Enabled w' s level.

(** [Handle] called with the records of [rs], one after the other. *)
Definition handleAll `{env : Env} (w : World) (h : loc) (rs : list slog.Record) : World :=
  foldl (fun w r => fst (SentinelOneHECHandler.Handle w h r)) w rs.

(** Batching in the words of the specification, on the formatted records: a
    batch is cut exactly when the running buffer is not empty and the record
    would take the running sum past the threshold [T].  The result is the
    batches cut, in order, and the buffer left. *)
Fixpoint batchesOf (T : Z) (running : bytes) (recs : list bytes) : list bytes * bytes :=
  match recs with
  | [] => ([], running)
  | rec :: rest =>
      if match running with
         | [] => false
         | _ :: _ => (T <? len running + len rec)%Z
         end
      then let '(batches, remaining) := batchesOf T rec rest in (running :: batches, remaining)
      else batchesOf T (running ++ rec) rest
  end.

(** ** Scenarios *)

Module Scenario.

(** A collector that accepts every payload; a record is printed as its
    message. *)
Definition accepting : Env := {|
  JSONHandler_Handle := fun _ _ _ r => inr (String.list_byte_of_string (slog.Message r));
  Handler_Handle := fun _ _ => None;
  CallersFrames := fun _ => {| slog.Function := "main.main"; slog.File := "main.go";
                               slog.Line := 1 |};
  gzip_Write := fun _ => None;
  gzip_Close := fun _ => None;
  gzip := fun p => p;
  http_NewRequest := fun _ _ _ => None;
  client_Do := fun _ _ => inr {| StatusCode := 200; Status := "200 OK"; ResponseBody := "" |}
|}.

(** A collector that refuses every payload. *)
Definition refusing : Env := {|
  JSONHandler_Handle := fun _ _ _ r => inr (String.list_byte_of_string (slog.Message r));
  Handler_Handle := fun _ _ => None;
  CallersFrames := fun _ => {| slog.Function := "main.main"; slog.File := "main.go";
                               slog.Line := 1 |};
  gzip_Write := fun _ => None;
  gzip_Close := fun _ => None;
  gzip := fun p => p;
  http_NewRequest := fun _ _ _ => None;
  client_Do := fun _ _ =>
    inr {| StatusCode := 503; Status := "503 Service Unavailable"; ResponseBody := "" |}
|}.

Definition stdout : slog.Handler := {| slog.writer := "stdout"; slog.goas := [] |}.

Definition logfile : slog.Handler := {| slog.writer := "app.log"; slog.goas := [] |}.

(** Console and file handlers gated from info (variable 0) to error
    (variable 1). *)
Definition gatedConsole : console.ConsoleHandler := {|
  console.handler := stdout;
  console.options := {| console.ErrorHandler := None; console.Format := "json";
                        console.IncludeCaller := false; console.Level := 0;
                        console.MaxLevel := Some 1; console.Stderr := false |}
|}.

Definition gatedFile : file.FileHandler := {|
  file.bufferedWriter := None; file.fileWriter := Some 0;
  file.handler := logfile;
  file.options := {| file.BufferSize := 0; file.ErrorHandler := None;
                     file.IncludeCaller := false; file.Level := 0;
                     file.MaxLevel := Some 1 |}
|}.

(** An error handler that passes the error on. *)
Definition passOn : xlog.ErrorHandlerFn := fun err _ => Some err.

(** A forwarder with a threshold of [size] bytes. *)
Definition forwarder (size : Z) (sync : bool) (maxLevel : option loc)
    (onError : option xlog.ErrorHandlerFn) : sentinelone.SentinelOneHECHandler := {|
  sentinelone.attrs := []; sentinelone.authToken := "Bearer token";
  sentinelone.client := 0; sentinelone.groups := [];
  sentinelone.ingestionURL := "https://ingest.example/services/collector/event";
  sentinelone.options := {|
    sentinelone.BufferSize := size; sentinelone.CallerKey := "caller";
    sentinelone.DisableAsync := sync; sentinelone.DSCategory := "applog";
    sentinelone.DSName := "app"; sentinelone.DSVendor := "Unknown";
    sentinelone.ErrorHandler := onError; sentinelone.Host := "host";
    sentinelone.IncludeCaller := false; sentinelone.Level := 0;
    sentinelone.LevelTranslator := None; sentinelone.MaxLevel := maxLevel;
    sentinelone.ReplaceAttr := None;
    sentinelone.Scope := "1234"; sentinelone.Source := "app" |};
  sentinelone.state := 0
|}.

(** A store with one handler of each kind at location 0, the level variables
    0 (info) and 1 (error) and, for the forwarder, the buffer [buf]. *)
Definition world (f : sentinelone.SentinelOneHECHandler) (buf : bytes) : World := {|
  levelVars := {[ 0 := slog.LevelInfo; 1 := slog.LevelError ]};
  buffers := {[ 0 := buf ]};
  consoleHandlers := {[ 0 := gatedConsole ]};
  fileHandlers := {[ 0 := gatedFile ]};
  sentinelOneHandlers := {[ 0 := f ]};
  goroutines := [];
  events := []
|}.

(** A record at level [l] whose printed form, with the newline, has [n + 1]
    bytes. *)
Definition recordOf (l : slog.Level) (n : nat) : slog.Record := {|
  slog.Time := 0;
  slog.Message := String.string_of_list_ascii (replicate n (Ascii.ascii_of_nat 120));
  slog.RLevel := l; slog.PC := 0; slog.Attrs := []; slog.spare := 0
|}.

(** A handler of another package, for the fan-out to hold: enabled from
    [stub_level] on, and ending every call of [Handle] with [stub_outcome]. *)
Record Stub := {
  stub_level : slog.Level;
  stub_outcome : Outcome (option error)
}.

#[global] Instance Stub_Handler : Handler.Handler Stub := {
  Handler.Enabled w s level := (level >=? stub_level s)%Z;
  Handler.Handle w s r :=
    (emit (Wrote {| slog.writer := "stub"; slog.goas := [] |} r) w, stub_outcome s);
  Handler.WithAttrs w s attrs := (w, s);
  Handler.WithGroup w s name := (w, s)
}.

End Scenario.

(** * Further code of the package *)

(** The constructor of the forwarder, the registry of builders, [Close] and
    the builder of the fan-out handler, the conversion of records to maps with
    the default error handler, and the logger of a context.

    Further conventions.
    - Package variables that a function reads are the fields of a class
      ([Package], [Keys]); the values they are declared with are an instance.
    - What a function asks of the operating system or of a library whose
      result the code only passes on is the field of a class too ([Process],
      [Files]) or a variable of the section.
    - A Go map is a [gmap]; a value of type [any] stored in one is an
      [Any]. *)

(** ** More of what the statements observe *)

(** The requests handed to the HTTP client, in order. *)
Definition posted (evs : list Event) : list Request :=
  omap (fun e => match e with Posted req => Some req | _ => None end) evs.

(** What a forwarder has handed to delivery: the payloads [send] was called
    with when it sends synchronously, those of the goroutines it started
    otherwise. *)
Definition handedOver (sync : bool) (w : World) : list bytes :=
  if sync then delivered (events w) else map task_payload (goroutines w).

(** The forwarder [v] prints the record [r] as [out]: what the JSON handler
    of [Handle] writes for it, before the newline. *)
Definition formatsTo `{env : Env} (v : sentinelone.SentinelOneHECHandler)
    (r : slog.Record) (out : bytes) : Prop :=
  JSONHandler_Handle (SentinelOneHECHandler.replaceAttr v)
    (sentinelone.attrs v) (sentinelone.groups v)
    (SentinelOneHECHandler.eventRecord v r) = inr out.

(** The buffer as a list of pending payloads: none when it is empty. *)
Definition pending (buffered : bytes) : list bytes :=
  match buffered with
  | [] => []
  | _ :: _ => [buffered]
  end.

(** The request [send] builds for a payload, when the payload compresses and
    the request can be created. *)
Definition requestFor `{env : Env} (v : sentinelone.SentinelOneHECHandler)
    (payload : bytes) : option Request :=
  match gzip_Write payload, gzip_Close payload,
        http_NewRequest "POST" (sentinelone.ingestionURL v) (gzip payload) with
  | None, None, None =>
      Some {| Method := "POST"; URL := sentinelone.ingestionURL v;
              Authorization := sentinelone.authToken v;
              ContentType := "application/json"; ContentEncoding := "gzip";
              S1Scope := sentinelone.Scope (sentinelone.options v);
              Body := gzip payload |}
  | _, _, _ => None
  end.

(** The goroutines outstanding run to their end one after the other:
    each entry of [schedule] is the position, among those still outstanding,
    of the one that runs next. *)
Definition runAll `{env : Env} (w : World) (schedule : list nat) : World :=
  foldl SentinelOneHECHandler.run w schedule.

(** A schedule that runs every one of [n] outstanding goroutines. *)
Fixpoint complete (n : nat) (schedule : list nat) : Prop :=
  match schedule with
  | [] => n = 0
  | i :: rest => i < n /\ complete (pred n) rest
  end.

(** ** Constructing a forwarder *)

(** The error codes of the package that the constructors and the registry
    of builders use. *)
Module codes.
Definition InvalidParameter : Z := 1.
Definition HandleRecordError : Z := 2.
Definition BuildHandlerError : Z := 3.
Definition MarshalError : Z := 9.
Definition UnsupportedHandlerType : Z := 10.
Definition OptionsValidationError : Z := 11.
Definition HandlerTypeExists : Z := 12.
End codes.

(** [SentinelOneHECHandlerOptions] as the caller of the constructor fills
    them: [Level] may be nil, and the token and the host name of the
    collector are still there.  [SendTimeout], which only sets the timeout of
    the HTTP client, and [Fields], which no code reads, are left out: the
    HTTP client is not part of the store. *)
Module options.
Record SentinelOneHECHandlerOptions := {
  APIToken : string;
  BufferSize : Z;
  CallerKey : string;
  DisableAsync : bool;
  DSCategory : string;
  DSName : string;
  DSVendor : string;
  ErrorHandler : option xlog.ErrorHandlerFn;
  Host : string;
  IncludeCaller : bool;
  IngestHostname : string;
  Level : option loc;
  LevelTranslator : option (slog.Level -> string);
  MaxLevel : option loc;
  ReplaceAttr : option (list string -> slog.Attr -> slog.Attr);
  Scope : string;
  Source : string
}.
End options.

(** The package variables that the constructor reads.  They are variables:
    a program may set them before it builds a handler. *)
Class Package := {
  DefaultConsoleHandlerLogLevel : slog.Level;
  DefaultSentinelOneHECHandlerCallerKey : string;
  DefaultSentinelOneHECHandlerDSCategory : string;
  DefaultSentinelOneHECHandlerDSName : string;
  DefaultSentinelOneHECHandlerDSCVendor : string;
  DefaultSentinelOneHECHandlerHostname : string;
  DefaultSentinelOneHECHandlerLogLevel : slog.Level;
  DefaultSentinelOneHECHandlerSource : string
}.

(** The package variables with the values they are declared with. *)
Definition declared : Package := {|
  DefaultConsoleHandlerLogLevel := slog.LevelInfo;
  DefaultSentinelOneHECHandlerCallerKey := "caller";
  DefaultSentinelOneHECHandlerDSCategory := "applog";
  DefaultSentinelOneHECHandlerDSName := "unknown";
  DefaultSentinelOneHECHandlerDSCVendor := "Unknown";
  DefaultSentinelOneHECHandlerHostname := "unknown";
  DefaultSentinelOneHECHandlerLogLevel := slog.LevelInfo;
  DefaultSentinelOneHECHandlerSource := "unknown"
|}.

(** What the constructor asks of the operating system: the path of the
    executable, the path with symbolic links resolved, the name of the host.
    [baseName] is the last element of a path without its extension. *)
Class Process := {
  os_Executable : error + string;
  filepath_EvalSymlinks : string -> error + string;
  baseName : string -> string;
  os_Hostname : error + string
}.

Section Constructor.
Context `{pkg : Package} `{proc : Process}.

(** The name of the executable, as the constructor computes it: empty when
    the path is not known, the path itself when its links do not resolve. *)
Definition exeName : string :=
  match os_Executable with
  | inr exe =>
      match filepath_EvalSymlinks exe with
      | inr realPath => baseName realPath
      | inl _ => exe
      end
  | inl _ => EmptyString
  end.

(** [NewSentinelOneHECHandler] checks the required options, takes the level
    variable of the options or a new one set to the default, and fills the
    options left empty.  The objects allocated before the checks are
    unreachable when a check fails, and are not in the store returned then. *)
Definition NewSentinelOneHECHandler (w : World) (o : options.SentinelOneHECHandlerOptions)
  : World * (error + loc) :=
  if (String.length (options.APIToken o) =? 0)%nat then
    (w, inl (XError codes.OptionsValidationError "api_token is a required setting" None))
  else if String.eqb (options.IngestHostname o) EmptyString then
    (w, inl (XError codes.OptionsValidationError "ingest_hostname is a required setting" None))
  else if String.eqb (options.Scope o) EmptyString then
    (w, inl (XError codes.OptionsValidationError "scope is a required setting" None))
  else
    let client := fresh (dom (sentinelOneHandlers w)) in
    let buf := fresh (dom (buffers w)) in
    let w := set_buffers <[buf := []]> w in
    let ingestionURL :=
      ("https://" ++ options.IngestHostname o ++ "/services/collector/event")%string in
    let authToken := ("Bearer " ++ options.APIToken o)%string in
    let '(w, level) :=
      match options.Level o with
      | Some level => (w, level)
      | None =>
          let level := fresh (dom (levelVars w)) in
          (LevelVar.Set_ w level DefaultConsoleHandlerLogLevel, level)
      end in
    let exe := exeName in
    let dsCategory :=
      if String.eqb (options.DSCategory o) EmptyString
      then DefaultSentinelOneHECHandlerDSCategory else options.DSCategory o in
    let dsName :=
      if String.eqb (options.DSName o) EmptyString then
        if negb (String.eqb exe EmptyString) then exe else DefaultSentinelOneHECHandlerDSName
      else options.DSName o in
    let dsVendor :=
      if String.eqb (options.DSVendor o) EmptyString
      then DefaultSentinelOneHECHandlerDSCVendor else options.DSVendor o in
    let callerKey :=
      if String.eqb (options.CallerKey o) EmptyString
      then DefaultSentinelOneHECHandlerCallerKey else options.CallerKey o in
    let host :=
      if String.eqb (options.Host o) EmptyString then
        match os_Hostname with
        | inl _ => DefaultSentinelOneHECHandlerHostname
        | inr hostname => hostname
        end
      else options.Host o in
    let source :=
      if String.eqb (options.Source o) EmptyString then
        if negb (String.eqb exe EmptyString) then exe else DefaultSentinelOneHECHandlerSource
      else options.Source o in
    let '(w, h) :=
      SentinelOneHECHandler.new w
        {| sentinelone.attrs := []; sentinelone.authToken := authToken;
           sentinelone.client := client; sentinelone.groups := [];
           sentinelone.ingestionURL := ingestionURL;
           sentinelone.options :=
             {| sentinelone.BufferSize := options.BufferSize o;
                sentinelone.CallerKey := callerKey;
                sentinelone.DisableAsync := options.DisableAsync o;
                sentinelone.DSCategory := dsCategory;
                sentinelone.DSName := dsName;
                sentinelone.DSVendor := dsVendor;
                sentinelone.ErrorHandler := options.ErrorHandler o;
                sentinelone.Host := host;
                sentinelone.IncludeCaller := options.IncludeCaller o;
                sentinelone.Level := level;
                sentinelone.LevelTranslator := options.LevelTranslator o;
                sentinelone.MaxLevel := options.MaxLevel o;
                sentinelone.ReplaceAttr := options.ReplaceAttr o;
                sentinelone.Scope := options.Scope o;
                sentinelone.Source := source |};
           sentinelone.state := buf |} in
    (w, inr h).

End Constructor.

(** ** The registry of builders *)

(** [_builders] maps a handler type to the function that makes a builder
    from raw JSON options.  The builders [B] and the options [O], a map from
    strings to values of any kind, are kept abstract, and so are
    [strings.ToLower], [strings.TrimSpace] and [json.Marshal]. *)
Module registry.
Section Registry.
Context {B O : Type}.
Context (ToLower TrimSpace : string -> string) (json_Marshal : O -> error + bytes).

Definition NewBuilderFromConfigFn := bytes -> error + B.

Definition Builders := gmap string NewBuilderFromConfigFn.

(** [NewBuilderFromConfig] parses and validates the given handler type and
    its options and returns a new builder. *)
Definition NewBuilderFromConfig (_builders : Builders) (handlerType : string) (options : O)
  : error + B :=
  let handlerType := TrimSpace (ToLower handlerType) in
  match json_Marshal options with
  | inl err =>
      inl (XError codes.MarshalError "failed to marshal handler options to JSON: %s" (Some err))
  | inr jsonOptions =>
      match _builders !! handlerType with
      | Some factoryFn => factoryFn jsonOptions
      | None => inl (XError codes.UnsupportedHandlerType "unsupported handler type: %s" None)
      end
  end.

(** [RegisterBuilder] attempts to register a function for the given handler
    type; [factoryFn] may be nil. *)
Definition RegisterBuilder (_builders : Builders) (handlerType : string)
    (factoryFn : option NewBuilderFromConfigFn) (overwrite : bool)
  : Builders * option error :=
  let handlerType := TrimSpace (ToLower handlerType) in
  if String.eqb handlerType EmptyString then
    (_builders, Some (XError codes.InvalidParameter "handler type cannot be empty" None))
  else
    match factoryFn with
    | None =>
        (_builders, Some (XError codes.InvalidParameter "factory function cannot be nil" None))
    | Some factoryFn =>
        match _builders !! handlerType with
        | Some _ =>
            if negb overwrite then
              (_builders,
               Some (XError codes.HandlerTypeExists "%s: handler type is already registered" None))
            else (<[handlerType := factoryFn]> _builders, None)
        | None => (<[handlerType := factoryFn]> _builders, None)
        end
    end.

(** The map that [init] sets [_builders] to, from the five functions of the
    package. *)
Definition init (NewConsoleHandlerBuilderFromConfig NewDiscardHandlerBuilderFromConfig
    NewFanoutHandlerBuilderFromConfig NewFileHandlerBuilderFromConfig
    NewSentinelOneHECHandlerBuilderFromConfig : NewBuilderFromConfigFn) : Builders :=
  {[ "console" := NewConsoleHandlerBuilderFromConfig;
     "discard" := NewDiscardHandlerBuilderFromConfig;
     "fanout" := NewFanoutHandlerBuilderFromConfig;
     "file" := NewFileHandlerBuilderFromConfig;
     "sentinelone:hec" := NewSentinelOneHECHandlerBuilderFromConfig ]}.

End Registry.
End registry.

(** ** Closing handlers *)

(** [io.Closer], as the fan-out handler sees its children: [Close] is [None]
    for a child that has no such method.  A call may panic. *)
Module Closer.
Class Closer (H : Type) := {
  Close : World -> H -> option (World * Outcome (option error))
}.
End Closer.

(** The writers of a file handler are outside the store: what flushing the
    buffered writer and closing the file return is all that is known of
    them. *)
Class Files := {
  atomicWriter_Flush : loc -> option error;
  lumberjack_Close : loc -> option error
}.

(** [FileHandler.Close] flushes any data in the buffer to the file and then
    closes the file handle. *)
Definition FileHandler_Close `{files : Files} (w : World) (h : loc) : option error :=
  let v := FileHandler.deref w h in
  match match file.bufferedWriter v with
        | Some b => atomicWriter_Flush b
        | None => None
        end with
  | Some err => Some err
  | None =>
      match match file.fileWriter v with
            | Some f => lumberjack_Close f
            | None => None
            end with
      | Some err => Some err
      | None => None
      end
  end.

(** [Close] of the handlers of this package; [slog.DiscardHandler] has
    none.  The console and the discard handler do nothing. *)
Definition Sink_Close `{env : Env} `{files : Files} (w : World) (s : Sink)
  : option (World * Outcome (option error)) :=
  match s with
  | Console _ => Some (w, Returns None)
  | File h => Some (w, Returns (FileHandler_Close w h))
  | SentinelOneHEC h => Some (returns (SentinelOneHECHandler.Close w h))
  | Discard => Some (w, Returns None)
  | SlogDiscard => None
  end.

#[global] Instance Sink_Closer `{env : Env} `{files : Files} : Closer.Closer Sink := {
  Closer.Close := Sink_Close
}.

Module FanoutCloser.
Import fanout.

Section Methods.
Context {H : Type} `{closers : Closer.Closer H}.

(** One turn of the loop of [Close], kept for the statements: the child,
    the store it was reached in, and, for a child that is a closer, how its
    [Close] ended. *)
Record Turn := {
  child : H;
  reached : World;
  call : option (Outcome (option error))
}.

(** The loop of [Close]; [errs] are the errors collected so far.  A panic
    of a child ends the loop: nothing recovers it. *)
Fixpoint closeEach (w : World) (handlers : list H) (errs : list error)
  : World * Outcome (list error) * list Turn :=
  match handlers with
  | [] => (w, Returns errs, [])
  | handler :: rest =>
      match Closer.Close w handler with
      | Some (w', Returns err) =>
          let errs := match err with
                      | Some err => errs ++ [err]
                      | None => errs
                      end in
          let '(w'', out, turns) := closeEach w' rest errs in
          (w'', out,
           {| child := handler; reached := w; call := Some (Returns err) |} :: turns)
      | Some (w', Panics v) =>
          (w', Panics v,
           [{| child := handler; reached := w; call := Some (Panics v) |}])
      | None =>
          let '(w'', out, turns) := closeEach w rest errs in
          (w'', out, {| child := handler; reached := w; call := None |} :: turns)
      end
  end.

(** [FanoutHandler.Close] will close any child handlers. *)
Definition Close (w : World) (h : FanoutHandler H) : World * Outcome (option error) :=
  let '(w, out, _) := closeEach w (Handlers (options h)) [] in
  (w, match out with
      | Returns errs => Returns (errors_Join (map Some errs))
      | Panics v => Panics v
      end).

Definition turns (w : World) (h : FanoutHandler H) : list Turn :=
  snd (closeEach w (Handlers (options h)) []).

(** The store a turn leaves. *)
Definition after (t : Turn) : World :=
  match Closer.Close (reached t) (child t) with
  | Some (w', _) => w'
  | None => reached t
  end.

(** The turns follow one another from [w] to [w']. *)
Fixpoint chained (w : World) (ts : list Turn) (w' : World) : Prop :=
  match ts with
  | [] => w' = w
  | t :: ts => reached t = w /\ chained (after t) ts w'
  end.

(** The error a turn adds to the collected ones, if any. *)
Definition failed (t : Turn) : option error :=
  match call t with
  | Some (Returns err) => err
  | _ => None
  end.

Definition panicked (t : Turn) : bool :=
  match call t with
  | Some (Panics _) => true
  | _ => false
  end.

(** A turn is in order when the call kept for it is how [Close] of the child
    ends in the store the child was reached in, and none when the child is no
    closer. *)
Definition inOrder (t : Turn) : Prop :=
  call t = option_map snd (Closer.Close (reached t) (child t)).

End Methods.
End FanoutCloser.

(** A fan-out handler is a closer, and may be a child of another. *)
#[global] Instance FanoutHandler_Closer {H} `{closers : Closer.Closer H}
  : Closer.Closer (fanout.FanoutHandler H) := {
  Closer.Close w h := Some (FanoutCloser.Close w h)
}.

(** What closing a list of handlers of this package delivers: the buffer of
    each forwarder among them, in their order, when it is not empty and no
    forwarder before it has the same buffer ([seen]). *)
Fixpoint flushedBy (w : World) (children : list Sink) (seen : list loc) : list bytes :=
  match children with
  | [] => []
  | SentinelOneHEC h :: rest =>
      let st := sentinelone.state (SentinelOneHECHandler.deref w h) in
      if bool_decide (st ∈ seen) then flushedBy w rest seen
      else pending (Buffer.Bytes w st) ++ flushedBy w rest (st :: seen)
  | _ :: rest => flushedBy w rest seen
  end.

(** What the file handlers among them return, in their order. *)
Definition fileErrors `{files : Files} (w : World) (children : list Sink) : list (option error) :=
  map (fun s => match s with
                | File h => FileHandler_Close w h
                | _ => None
                end) children.

(** ** Building a fan-out handler from its configuration *)

(** [xlog.HandlerBuilder], as the builder of the fan-out handler sees the
    builders of its children: [Build] with the callback, which may allocate
    and may fail, and [Type].  The callback [CB] is handed on as it is. *)
Module HandlerBuilder.
Class HandlerBuilder (CB B H : Type) := {
  Build : World -> B -> option CB -> World * (error + H);
  Type_ : B -> string
}.
End HandlerBuilder.

Module fanoutHandlerBuilder.
Import fanout.

Section Methods.
Context {CB B H : Type} `{builders : HandlerBuilder.HandlerBuilder CB B H}.

(** [fanoutHandlerBuilderOptions] simply holds the builders of the child
    handlers. *)
Record fanoutHandlerBuilderOptions := {
  HandlerBuilders : list B
}.

(** One turn of the loop of [Build], kept for the statements: the builder
    and the store it was reached in. *)
Record Turn := {
  builder : B;
  reached : World
}.

(** What the builder of a turn returned there. *)
Definition result (cb : option CB) (t : Turn) : error + H :=
  snd (HandlerBuilder.Build (reached t) (builder t) cb).

Definition after (cb : option CB) (t : Turn) : World :=
  fst (HandlerBuilder.Build (reached t) (builder t) cb).

Fixpoint chained (cb : option CB) (w : World) (ts : list Turn) (w' : World) : Prop :=
  match ts with
  | [] => w' = w
  | t :: ts => reached t = w /\ chained cb (after cb t) ts w'
  end.

(** The error the loop keeps for a builder that failed: a new error made of
    the type of the builder and the text of its error. *)
Definition failure (hb : B) (err : error) : error :=
  Errorf ("failed to build '" ++ HandlerBuilder.Type_ hb ++ "' handler: %s") err.

(** The loop of [Build]: the slice of handlers has nil where a builder
    failed. *)
Fixpoint buildEach (w : World) (hbs : list B) (cb : option CB) (errs : list error)
  : World * list error * list (option H) * list Turn :=
  match hbs with
  | [] => (w, errs, [], [])
  | hb :: rest =>
      match HandlerBuilder.Build w hb cb with
      | (w', inl err) =>
          let '(w'', errs, handlers, turns) :=
            buildEach w' rest cb (errs ++ [failure hb err]) in
          (w'', errs, None :: handlers, {| builder := hb; reached := w |} :: turns)
      | (w', inr handler) =>
          let '(w'', errs, handlers, turns) := buildEach w' rest cb errs in
          (w'', errs, Some handler :: handlers, {| builder := hb; reached := w |} :: turns)
      end
  end.

(** [Build] will build each child handler and then the fanout handler and
    return it; no handler is nil when no builder failed. *)
Definition Build (w : World) (b : fanoutHandlerBuilderOptions) (cb : option CB)
  : World * (error + FanoutHandler H) :=
  let '(w, errs, handlers, _) := buildEach w (HandlerBuilders b) cb [] in
  if (len errs >? 0)%Z then
    (w, inl (XError codes.BuildHandlerError "failed to build one or more handlers"
               (errors_Join (map Some errs))))
  else (w, inr (NewFanoutHandler {| Handlers := omap id handlers |})).

Definition turns (w : World) (b : fanoutHandlerBuilderOptions) (cb : option CB)
  : list Turn :=
  snd (buildEach w (HandlerBuilders b) cb []).

(** The error the loop keeps for a turn, if its builder failed. *)
Definition failed (cb : option CB) (t : Turn) : option error :=
  match result cb t with
  | inl err => Some (failure (builder t) err)
  | inr _ => None
  end.

End Methods.
End fanoutHandlerBuilder.

(** ** Records as maps, and the default error handler *)

(** Values of type [any] that [RecordToMap] and [DefaultErrorHandler] put in
    their maps. *)
Inductive Any :=
| AnyTime (t : Z)
| AnyString (s : string)
| AnyInt (n : Z)
| AnyOf (v : slog.Value)
| AnyError (e : error)
| AnyMap (m : gmap string Any).

(** The package variables that name the keys of the map. *)
Class Keys := {
  AttrsKey : string;
  FileKey : string;
  FunctionKey : string;
  LevelKey : string;
  LineKey : string;
  MessageKey : string;
  SourceKey : string;
  TimeKey : string
}.

(** The keys as the package declares them. *)
Definition declaredKeys : Keys := {|
  AttrsKey := "attrs"; FileKey := "file"; FunctionKey := "function";
  LevelKey := "level"; LineKey := "line"; MessageKey := "msg";
  SourceKey := "source"; TimeKey := "time"
|}.

Section RecordToMap.
Context `{env : Env} `{keys : Keys}.
Context (Level_String : slog.Level -> string) (Error : error -> string).

(** [resolveValue] recursively processes a value: a group becomes a nested
    map, written key by key in the order of the members. *)
Fixpoint resolveValue (v : slog.Value) : Any :=
  match v with
  | slog.GroupValue attrs =>
      AnyMap
        ((fix each (attrs : list (string * slog.Value)) (groupMap : gmap string Any) :=
            match attrs with
            | [] => groupMap
            | (key, value) :: rest => each rest (<[key := resolveValue value]> groupMap)
            end) attrs ∅)
  | _ => AnyOf v
  end.

(** [Record.Source] of the standard library: nil when the record has no
    program counter. *)
Definition Record_Source (r : slog.Record) : option slog.Source :=
  if (slog.PC r =? 0)%Z then None else Some (CallersFrames (slog.PC r)).

(** [RecordToMap] converts a record that is not nil into a map. *)
Definition RecordToMap (r : slog.Record) : gmap string Any :=
  let m : gmap string Any := ∅ in
  let m := <[TimeKey := AnyTime (slog.Time r)]> m in
  let m := <[LevelKey := AnyString (Level_String (slog.RLevel r))]> m in
  let m := <[MessageKey := AnyString (slog.Message r)]> m in
  let m :=
    match Record_Source r with
    | Some src =>
        <[SourceKey :=
            AnyMap (<[FunctionKey := AnyString (slog.Function src)]>
                      (<[LineKey := AnyInt (slog.Line src)]>
                         (<[FileKey := AnyString (slog.File src)]> ∅)))]> m
    | None => m
    end in
  let attrs :=
    foldl (fun attrs a => <[slog.Key a := resolveValue (slog.Val a)]> attrs)
      (∅ : gmap string Any) (slog.Attrs r) in
  if (Z.of_nat (size attrs) >? 0)%Z then <[AttrsKey := AnyMap attrs]> m else m.

(** [DefaultErrorHandler] wraps the error and returns the new error; the
    second component is the map it prints and attaches to the error.  Both
    the error and the record may be nil.  [Level_String] and [Error] are the
    methods of the level and of the error that give their text. *)
Definition DefaultErrorHandler (err : option error) (r : option slog.Record)
  : error * gmap string Any :=
  let output : gmap string Any := ∅ in
  let record : gmap string Any :=
    match r with
    | Some r => RecordToMap r
    | None => ∅
    end in
  let output :=
    if (Z.of_nat (size record) >? 0)%Z then <["record" := AnyMap record]> output
    else output in
  let errMap : gmap string Any := ∅ in
  let '(errMap, xerr) :=
    match err with
    | Some err =>
        let errMap :=
          <["message" := AnyString ("failed to write record: " ++ Error err)]> errMap in
        let errMap := <["code" := AnyInt codes.HandleRecordError]> errMap in
        let errMap := <["error" := AnyError err]> errMap in
        (errMap, XError codes.HandleRecordError "failed to write record: %s" (Some err))
    | None =>
        let msg := "an unexpected error occurred while writing the record" in
        let errMap := <["message" := AnyString msg]> errMap in
        let errMap := <["code" := AnyInt codes.HandleRecordError]> errMap in
        (errMap, XError codes.HandleRecordError msg None)
    end in
  let output :=
    if (Z.of_nat (size errMap) >? 0)%Z then <["error" := AnyMap errMap]> output
    else output in
  (xerr, output).

(** [DefaultErrorHandler] as the error handler of a handler. *)
Definition DefaultErrorHandlerFn : xlog.ErrorHandlerFn :=
  fun err r => Some (fst (DefaultErrorHandler (Some err) r)).

End RecordToMap.

(** ** The logger of a context *)

(** A [context.Context] as the chain of the values added to it, the last
    added first.  The key of the logger is of a type that the package does not
    export, so the entry under it holds a logger, which may be nil; all
    other entries are foreign. *)
Module context.
Inductive Entry (L : Type) :=
| LoggerEntry (logger : option L)
| OtherEntry (key : string).
Arguments LoggerEntry {L} logger.
Arguments OtherEntry {L} key.

Definition Context (L : Type) := list (Entry L).

(** [ctx.Value(loggerCtxKey{})]: the entry nearest to the front. *)
Fixpoint Value {L} (ctx : Context L) : option (option L) :=
  match ctx with
  | [] => None
  | LoggerEntry logger :: _ => Some logger
  | OtherEntry _ :: parent => Value parent
  end.
End context.

Section LoggerContext.
Context {L : Type} (slog_Default : L).

(** [AddToContext] adds the given logger to the existing context and returns
    a new context. *)
Definition AddToContext (ctx : context.Context L) (logger : option L) : context.Context L :=
  context.LoggerEntry logger :: ctx.

(** [FromContext] returns the logger stored in the context, and the default
    logger if none is stored. *)
Definition FromContext (ctx : context.Context L) : option L :=
  match context.Value ctx with
  | Some logger => logger
  | None => Some slog_Default
  end.

End LoggerContext.

(** ** More scenarios *)

Module Fixture.

(** A process whose executable is /usr/bin/app on the host node1. *)
Definition process : Process := {|
  os_Executable := inr "/usr/bin/app"%string;
  filepath_EvalSymlinks := fun path => inr path;
  baseName := fun _ => "app"%string;
  os_Hostname := inr "node1"%string
|}.

(** Options with the three required settings and nothing else. *)
Definition minimal (sync : bool) : options.SentinelOneHECHandlerOptions := {|
  options.APIToken := "secret"; options.BufferSize := 100;
  options.CallerKey := ""; options.DisableAsync := sync;
  options.DSCategory := ""; options.DSName := ""; options.DSVendor := "";
  options.ErrorHandler := None; options.Host := "";
  options.IncludeCaller := false; options.IngestHostname := "ingest.example";
  options.Level := None; options.LevelTranslator := None;
  options.MaxLevel := None; options.ReplaceAttr := None;
  options.Scope := "1234"; options.Source := ""
|}.

(** The same options over the level variable 1 of the scenarios. *)
Definition levelled : options.SentinelOneHECHandlerOptions := {|
  options.APIToken := "secret"; options.BufferSize := 100;
  options.CallerKey := ""; options.DisableAsync := true;
  options.DSCategory := ""; options.DSName := ""; options.DSVendor := "";
  options.ErrorHandler := None; options.Host := "";
  options.IncludeCaller := false; options.IngestHostname := "ingest.example";
  options.Level := Some 1; options.LevelTranslator := None;
  options.MaxLevel := None; options.ReplaceAttr := None;
  options.Scope := "1234"; options.Source := ""
|}.

(** Lower case and trimming for names in ASCII. *)
Definition lowerAscii (c : Ascii.ascii) : Ascii.ascii :=
  let n := Ascii.nat_of_ascii c in
  if (65 <=? n)%nat && (n <=? 90)%nat then Ascii.ascii_of_nat (n + 32) else c.

Fixpoint ToLower (s : string) : string :=
  match s with
  | EmptyString => EmptyString
  | String c rest => String (lowerAscii c) (ToLower rest)
  end.

Definition isSpace (c : Ascii.ascii) : bool :=
  let n := Ascii.nat_of_ascii c in
  (n =? 32)%nat || ((9 <=? n)%nat && (n <=? 13)%nat).

Fixpoint trimLeft (s : string) : string :=
  match s with
  | EmptyString => EmptyString
  | String c rest => if isSpace c then trimLeft rest else s
  end.

Definition TrimSpace (s : string) : string :=
  String.rev (trimLeft (String.rev (trimLeft s))).

(** Builders that are told apart by a number, over options that always
    marshal. *)
Definition json_Marshal (options : unit) : error + bytes := inr [].

Definition factory (n : nat) : registry.NewBuilderFromConfigFn (B := nat) :=
  fun _ => inr n.

Definition builtin : registry.Builders (B := nat) :=
  registry.init (factory 1) (factory 2) (factory 3) (factory 4) (factory 5).

(** Writers that flush and close without error. *)
Definition sound : Files := {|
  atomicWriter_Flush := fun _ => None;
  lumberjack_Close := fun _ => None
|}.

(** A child of another package whose [Close] ends with [ending] and leaves
    its mark in the log. *)
Record Closing := {
  ending : Outcome (option error)
}.

#[global] Instance Closing_Closer : Closer.Closer Closing := {
  Closer.Close w c :=
    Some (emit (Wrote {| slog.writer := "closed"; slog.goas := [] |}
                  (Scenario.recordOf slog.LevelInfo 0)) w, ending c)
}.

(** Builders of another package: one number builds a stub, the others
    fail. *)
#[global] Instance Numbered : HandlerBuilder.HandlerBuilder unit nat Scenario.Stub := {
  HandlerBuilder.Build w n cb :=
    if (n =? 0)%nat then (w, inl (ForeignError "no such handler"))
    else (w, inr {| Scenario.stub_level := Z.of_nat n;
                    Scenario.stub_outcome := Returns None |});
  HandlerBuilder.Type_ n := "stub"
}.

(** The text of a level, for the levels the scenarios use. *)
Definition Level_String (l : slog.Level) : string :=
  if (l <? 0)%Z then "DEBUG" else if (l <? 4)%Z then "INFO"
  else if (l <? 8)%Z then "WARN" else "ERROR".

End Fixture.

(** ** Sinks of every shape, and what extension and handling keep *)

(** The children of a fan-out handler are handlers of any kind, fan-out
    handlers among them.  A list of children of two kinds is a list over the
    sum of the two: a handler of either kind is a handler. *)
#[global] Instance Either_Handler {A B : Type}
    `{first : Handler.Handler A} `{second : Handler.Handler B}
  : Handler.Handler (A + B) := {
  Handler.Enabled w h level :=
    match h with
    | inl a => Handler.Enabled w a level
    | inr b => Handler.Enabled w b level
    end;
  Handler.Handle w h r :=
    match h with
    | inl a => Handler.Handle w a r
    | inr b => Handler.Handle w b r
    end;
  Handler.WithAttrs w h attrs :=
    match h with
    | inl a => let '(w, c) := Handler.WithAttrs w a attrs in (w, inl c)
    | inr b => let '(w, c) := Handler.WithAttrs w b attrs in (w, inr c)
    end;
  Handler.WithGroup w h name :=
    match h with
    | inl a => let '(w, c) := Handler.WithGroup w a name in (w, inl c)
    | inr b => let '(w, c) := Handler.WithGroup w b name in (w, inr c)
    end
}.

(** What the statements about extension say of the sinks of a kind [H].
    - [made w s c]: the sink [c] is a new sink value made from [s], new to
      the store [w].
    - [itself s c]: the sink [c] is what [WithGroup] returns from [s] for the
      empty name.
    - [buffersOf w s]: the buffers that [s] writes to when it handles a
      record. *)
Record Shape (H : Type) := {
  made : World -> H -> H -> Prop;
  itself : H -> H -> Prop;
  buffersOf : World -> H -> list loc
}.
Arguments made {H} _ _ _ _.
Arguments itself {H} _ _ _.
Arguments buffersOf {H} _ _ _.

(** The handlers of this package.  A new sink value is a handler object of
    the kind of the receiver that the store does not have; from the discard
    handler it is the discard handler of the standard library, which is no
    copy of the receiver and which returns itself.  For the empty name
    [WithGroup] returns the receiver, but for the discard handler, whose
    [WithGroup] has no such case.  Only the forwarder has a buffer. *)
Definition Sink_Shape : Shape Sink := {|
  made w s c :=
    match s, c with
    | Console _, Console h => consoleHandlers w !! h = None
    | File _, File h => fileHandlers w !! h = None
    | SentinelOneHEC _, SentinelOneHEC h => sentinelOneHandlers w !! h = None
    | Discard, SlogDiscard => True
    | SlogDiscard, SlogDiscard => True
    | _, _ => False
    end;
  itself s c :=
    match s with
    | Discard | SlogDiscard => c = SlogDiscard
    | _ => c = s
    end;
  buffersOf w s :=
    match s with
    | SentinelOneHEC h => [sentinelone.state (SentinelOneHECHandler.deref w h)]
    | _ => []
    end
|}.

(** A fan-out handler holds nothing but its children: the new value made
    from it has, child by child and in order, the new values made from its
    children; for the empty name [WithGroup] returns the fan-out handler
    itself; its buffers are those of its children. *)
Definition Fanout_Shape {H : Type} (children : Shape H) : Shape (fanout.FanoutHandler H) := {|
  made w f c :=
    Forall2 (made children w)
      (fanout.Handlers (fanout.options f)) (fanout.Handlers (fanout.options c));
  itself f c := c = f;
  buffersOf w f :=
    concat (map (buffersOf children w) (fanout.Handlers (fanout.options f)))
|}.

Definition Either_Shape {A B : Type} (first : Shape A) (second : Shape B) : Shape (A + B) := {|
  made w s c :=
    match s, c with
    | inl a, inl a' => made first w a a'
    | inr b, inr b' => made second w b b'
    | _, _ => False
    end;
  itself s c :=
    match s, c with
    | inl a, inl a' => itself first a a'
    | inr b, inr b' => itself second b b'
    | _, _ => False
    end;
  buffersOf w s :=
    match s with
    | inl a => buffersOf first w a
    | inr b => buffersOf second w b
    end
|}.

(** Extension and handling for the sinks of a kind, in every store.
    - [WithAttrs], and [WithGroup] with a name that is not empty, leave a
      store that is the store they were called in with handler objects added
      ([extends]), and return a new sink value.
    - [WithGroup] with the empty name leaves the store as it is and returns
      the receiver.
    - [Handle] changes no handler object, no level variable, and no buffer
      but those of the sink that handles.
    - What is new to a store is new to the stores it extends; the buffers of
      a sink and the levels it is enabled for are read from the handler
      objects and the level variables only. *)
Definition Framed {H : Type} `{handlers : Handler.Handler H} (shape : Shape H) : Prop :=
  (forall (w : World) (s : H) (attrs : list slog.Attr),
     let '(w1, c) := Handler.WithAttrs w s attrs in
     extends w w1 /\ made shape w s c) /\
  (forall (w : World) (s : H) (name : string),
     let '(w1, c) := Handler.WithGroup w s name in
     if String.eqb name EmptyString then w1 = w /\ itself shape s c
     else extends w w1 /\ made shape w s c) /\
  (forall (w : World) (s : H) (r : slog.Record),
     let w' := fst (Handler.Handle w s r) in
     sameHandlers w w' /\ levelVars w' = levelVars w /\
     forall st, st ∉ buffersOf shape w s -> Buffer.Bytes w' st = Buffer.Bytes w st) /\
  (forall (w w' : World) (s c : H), extends w w' -> made shape w' s c -> made shape w s c) /\
  (forall (w w' : World) (s : H),
     sameHandlers w w' -> buffersOf shape w' s = buffersOf shape w s) /\
  (forall (w w' : World) (s : H) (level : slog.Level),
     sameHandlers w w' -> levelVars w' = levelVars w ->
     Handler.Enabled w' s level = Handler.Enabled w s level).

(** * Properties *)

(** ** Arithmetic of buffer lengths *)

Ltac pow_consts :=
  change (2 ^ 64)%Z with 18446744073709551616%Z in *;
  change (2 ^ 63)%Z with 9223372036854775808%Z in *.

Lemma wrap_int_small (z : Z) : (0 <= z < 2 ^ 63)%Z -> wrap_int z = z.
Proof.
  intros Hz. unfold wrap_int. pow_consts.
  rewrite Z.mod_small; lia.
Qed.

Lemma Size_int_add (a b : Z) :
  (0 <= a)%Z -> (0 <= b)%Z -> (a + b < 2 ^ 63)%Z ->
  sentinelone.Size (int_add a b) = (a + b)%Z.
Proof.
  intros Ha Hb Hab. unfold sentinelone.Size, int_add.
  rewrite wrap_int_small by (split; [lia | exact Hab]).
  pow_consts. apply Z.mod_small. lia.
Qed.

Lemma len_nonneg {A} (l : list A) : (0 <= len l)%Z.
Proof. unfold len. lia. Qed.

Lemma len_app {A} (l k : list A) : len (l ++ k) = (len l + len k)%Z.
Proof. unfold len. rewrite length_app. lia. Qed.

Lemma len_pos_iff {A} (l : list A) : (len l >? 0)%Z = true <-> l <> [].
Proof.
  unfold len. rewrite Z.gtb_ltb, Z.ltb_lt.
  destruct l as [|x l]; simpl length.
  - split; [lia | congruence].
  - split; [discriminate | lia].
Qed.

(** ** The severity translator *)

Ltac pick_band :=
  first [ split; [lia | reflexivity]
        | left; split; [lia | reflexivity]
        | right; pick_band ].

(** C4. The default severity translator is a total function of the level
    and follows the table of bands: above error "critical", above warn up to
    error "error", above info up to warn "warning", above debug up to info
    "info", above debug-4 up to debug "debug", above debug-8 up to debug-4
    "trace", and "finest" for every level from debug-8 down.  Each level lies
    in exactly one band, so the band edges are covered: error itself is
    "error" and error+1 is "critical", and so on down the table. *)
Theorem DefaultSentinelOneHECLevelTranslator_bands (l : slog.Level) :
  let severity := sentinelone.DefaultSentinelOneHECLevelTranslator l in
  ((slog.LevelError < l)%Z /\ severity = "critical") \/
  ((slog.LevelWarn < l <= slog.LevelError)%Z /\ severity = "error") \/
  ((slog.LevelInfo < l <= slog.LevelWarn)%Z /\ severity = "warning") \/
  ((slog.LevelDebug < l <= slog.LevelInfo)%Z /\ severity = "info") \/
  ((slog.LevelDebug - 4 < l <= slog.LevelDebug)%Z /\ severity = "debug") \/
  ((slog.LevelDebug - 8 < l <= slog.LevelDebug - 4)%Z /\ severity = "trace") \/
  ((l <= slog.LevelDebug - 8)%Z /\ severity = "finest").
Proof.
  unfold sentinelone.DefaultSentinelOneHECLevelTranslator,
    slog.LevelError, slog.LevelWarn, slog.LevelInfo, slog.LevelDebug.
  cbv zeta.
  repeat (match goal with
          | |- context [(?a >? ?b)%Z] =>
              let E := fresh "E" in
              destruct (Z.gtb_spec a b) as [E|E]
          end).
  all: pick_band.
Qed.

(** The band edges, evaluated. *)
Example DefaultSentinelOneHECLevelTranslator_edges :
  map sentinelone.DefaultSentinelOneHECLevelTranslator
    [9; 8; 5; 4; 1; 0; -3; -4; -7; -8; -11; -12; -13]%Z
  = ["critical"; "error"; "error"; "warning"; "warning"; "info"; "info"; "debug";
     "debug"; "trace"; "trace"; "finest"; "finest"].
Proof. reflexivity. Qed.

(** ** The level gate of the leaf handlers *)

(** What [Enabled] computes, for the three leaf handlers alike: at or above
    the minimum when no maximum is set, and exactly at the minimum when one
    is. *)
Lemma ConsoleHandler_Enabled_iff (w : World) (h : loc) (level : slog.Level) :
  ConsoleHandler.Enabled w h level = true <->
  match ConsoleHandler.GetMaxLevelVar w h with
  | None => (LevelVar.Level w (ConsoleHandler.GetLevelVar w h) <= level)%Z
  | Some _ => level = LevelVar.Level w (ConsoleHandler.GetLevelVar w h)
  end.
Proof.
  unfold ConsoleHandler.Enabled, ConsoleHandler.GetMaxLevelVar, ConsoleHandler.GetLevelVar.
  destruct (console.MaxLevel _); rewrite ?andb_true_iff, ?Z.geb_le, ?Z.leb_le; lia.
Qed.

Lemma FileHandler_Enabled_iff (w : World) (h : loc) (level : slog.Level) :
  FileHandler.Enabled w h level = true <->
  match FileHandler.GetMaxLevelVar w h with
  | None => (LevelVar.Level w (FileHandler.GetLevelVar w h) <= level)%Z
  | Some _ => level = LevelVar.Level w (FileHandler.GetLevelVar w h)
  end.
Proof.
  unfold FileHandler.Enabled, FileHandler.GetMaxLevelVar, FileHandler.GetLevelVar.
  destruct (file.MaxLevel _); rewrite ?andb_true_iff, ?Z.geb_le, ?Z.leb_le; lia.
Qed.

Lemma SentinelOneHECHandler_Enabled_iff (w : World) (h : loc) (level : slog.Level) :
  SentinelOneHECHandler.Enabled w h level = true <->
  match SentinelOneHECHandler.GetMaxLevelVar w h with
  | None => (LevelVar.Level w (SentinelOneHECHandler.GetLevelVar w h) <= level)%Z
  | Some _ => level = LevelVar.Level w (SentinelOneHECHandler.GetLevelVar w h)
  end.
Proof.
  unfold SentinelOneHECHandler.Enabled, SentinelOneHECHandler.GetMaxLevelVar,
    SentinelOneHECHandler.GetLevelVar.
  destruct (sentinelone.MaxLevel _); rewrite ?andb_true_iff, ?Z.geb_le, ?Z.leb_le; lia.
Qed.

(** C1, at a level the gate should let through.  The three leaf handlers are
    gated from info (the minimum) to error (the maximum); warn lies between
    the two, and [Enabled] returns false for it in each of them: with a
    maximum set the code compares the level with the minimum a second time,
    where the maximum was meant. *)
Theorem leaf_Enabled_warn_between_info_and_error :
  let w := Scenario.world (Scenario.forwarder 100 true (Some 1) None) [] in
  (Sink_GetLevelVar w (SentinelOneHEC 0) = Some 0 /\
   Sink_GetLevelVar w (File 0) = Some 0 /\
   Sink_GetLevelVar w (Console 0) = Some 0) /\
  (Sink_GetMaxLevelVar w (SentinelOneHEC 0) = Some 1 /\
   Sink_GetMaxLevelVar w (File 0) = Some 1 /\
   Sink_GetMaxLevelVar w (Console 0) = Some 1) /\
  (LevelVar.Level w 0%nat <= slog.LevelWarn <= LevelVar.Level w 1%nat)%Z /\
  SentinelOneHECHandler.Enabled w 0 slog.LevelWarn = false /\
  FileHandler.Enabled w 0 slog.LevelWarn = false /\
  ConsoleHandler.Enabled w 0 slog.LevelWarn = false.
Proof.
  cbv zeta. repeat split; try reflexivity; vm_compute; discriminate.
Qed.

(** ** Events *)

Lemma delivered_app (es es' : list Event) :
  delivered (es ++ es') = delivered es ++ delivered es'.
Proof. unfold delivered. apply omap_app. Qed.

Lemma reported_app (es es' : list Event) :
  reported (es ++ es') = reported es ++ reported es'.
Proof. unfold reported. apply omap_app. Qed.

Lemma emit_emits (e : Event) (w : World) : emit e w = emits [e] w.
Proof. reflexivity. Qed.

Lemma emits_emits (es es' : list Event) (w : World) :
  emits es' (emits es w) = emits (es ++ es') w.
Proof. unfold emits; simpl. by rewrite app_assoc. Qed.

Lemma deref_emit (e : Event) (w : World) (h : loc) :
  SentinelOneHECHandler.deref (emit e w) h = SentinelOneHECHandler.deref w h.
Proof. reflexivity. Qed.

(** ** Delivery *)

Section Delivery.
Context `{env : Env}.

(** One call of [send] is one delivery attempt.  It touches nothing but the
    log of events; the error of the attempt goes to the error handler when
    there is one, and what [send] returns is what the handler made of it. *)
Lemma send_spec (w : World) (h : loc) (r : option slog.Record) (payload : bytes) :
  let v := SentinelOneHECHandler.deref w h in
  let err := deliveryError v (S (length (events w))) payload in
  exists es,
    fst (SentinelOneHECHandler.send w h r payload) = emits es w /\
    delivered es = [payload] /\
    reported es = routed v r err /\
    snd (SentinelOneHECHandler.send w h r payload) = surfaced v r err.
Proof.
  cbv zeta.
  unfold SentinelOneHECHandler.send, deliveryError, SentinelOneHECHandler.handleError,
    routed, surfaced.
  rewrite !deref_emit.
  replace (length (events (emit (Delivery payload r) w))) with (S (length (events w)))
    by (simpl; rewrite length_app; simpl; lia).
  set (v := SentinelOneHECHandler.deref w h).
  destruct (gzip_Write payload) as [e1|];
    [|destruct (gzip_Close payload) as [e2|];
      [|destruct (http_NewRequest _ _ _) as [e3|];
        [|destruct (client_Do _ _) as [e4|resp];
          [|destruct (StatusCode resp >=? 400)%Z]]]];
    destruct (sentinelone.ErrorHandler (sentinelone.options v)) as [f|];
    rewrite ?emit_emits, ?emits_emits; simpl;
    eexists; (split; [reflexivity|]); repeat split; reflexivity.
Qed.

End Delivery.

(** ** Close *)

Section Close.
Context `{env : Env}.

Lemma Close_empty (w : World) (h : loc) :
  Buffer.Bytes w (sentinelone.state (SentinelOneHECHandler.deref w h)) = [] ->
  SentinelOneHECHandler.Close w h = (w, None).
Proof.
  intros Hbuf. unfold SentinelOneHECHandler.Close, Buffer.Len. by rewrite Hbuf.
Qed.

Lemma Close_nonempty (w : World) (h : loc) :
  let st := sentinelone.state (SentinelOneHECHandler.deref w h) in
  Buffer.Bytes w st <> [] ->
  SentinelOneHECHandler.Close w h =
    (fst (SentinelOneHECHandler.send (Buffer.Reset w st) h None (Buffer.Bytes w st)), None).
Proof.
  cbv zeta. intros Hbuf. unfold SentinelOneHECHandler.Close.
  destruct (Z.eqb_spec (Buffer.Len w (sentinelone.state (SentinelOneHECHandler.deref w h))) 0)
    as [E|E].
  - exfalso. apply Hbuf. unfold Buffer.Len, len in E.
    destruct (Buffer.Bytes w _); [done | simpl in E; lia].
  - by destruct (SentinelOneHECHandler.send _ _ _ _).
Qed.

(** C3. [Close] makes one delivery attempt when the shared buffer holds
    data, and none when it is empty.  With data in the buffer the content is
    taken and the buffer cleared first, then [send] is called with the content
    in the calling goroutine: the log of deliveries grows by that one payload,
    the buffer is empty afterwards and no goroutine is started.  With an empty
    buffer [Close] leaves the store as it is. *)
Theorem Close_delivers_iff_nonempty (w : World) (h : loc) :
  let st := sentinelone.state (SentinelOneHECHandler.deref w h) in
  let w' := fst (SentinelOneHECHandler.Close w h) in
  match Buffer.Bytes w st with
  | [] => w' = w
  | (_ :: _) as remaining =>
      w' = fst (SentinelOneHECHandler.send (Buffer.Reset w st) h None remaining) /\
      delivered (events w') = delivered (events w) ++ [remaining] /\
      Buffer.Bytes w' st = [] /\
      goroutines w' = goroutines w
  end.
Proof.
  cbv zeta.
  destruct (Buffer.Bytes w _) as [|b remaining] eqn:Hbuf.
  - by rewrite Close_empty.
  - rewrite Close_nonempty by (rewrite Hbuf; discriminate).
    rewrite Hbuf. cbn [fst].
    destruct (send_spec
      (Buffer.Reset w (sentinelone.state (SentinelOneHECHandler.deref w h)))
      h None (b :: remaining)) as (es & Hw & Hd & _ & _).
    rewrite Hw. split; [reflexivity|]. split; [|split; [|reflexivity]].
    + unfold emits, Buffer.Reset, set_buffers; cbn [events].
      by rewrite delivered_app, Hd.
    + unfold Buffer.Bytes, emits, Buffer.Reset, set_buffers; cbn [buffers].
      apply lookup_total_insert_eq.
Qed.

(** C10. [Close] returns nil whatever the buffer holds and however the
    delivery ends.  The error of the final delivery, be it of compression,
    of building the request, of the transport or a status of 400 or more,
    goes to the error handler when one is configured, with no record, and
    nowhere else. *)
Theorem Close_returns_nil (w : World) (h : loc) :
  let v := SentinelOneHECHandler.deref w h in
  let remaining := Buffer.Bytes w (sentinelone.state v) in
  snd (SentinelOneHECHandler.Close w h) = None /\
  reported (events (fst (SentinelOneHECHandler.Close w h))) =
    reported (events w) ++
    match remaining with
    | [] => []
    | (_ :: _) as remaining => routed v None (deliveryError v (S (length (events w))) remaining)
    end.
Proof.
  cbv zeta.
  destruct (Buffer.Bytes w _) as [|b remaining] eqn:Hbuf.
  - rewrite Close_empty by done. by rewrite app_nil_r.
  - rewrite Close_nonempty by (rewrite Hbuf; discriminate).
    rewrite Hbuf. cbn [fst snd]. split; [done|].
    destruct (send_spec
      (Buffer.Reset w (sentinelone.state (SentinelOneHECHandler.deref w h)))
      h None (b :: remaining)) as (es & Hw & _ & Hr & _).
    rewrite Hw. unfold emits, Buffer.Reset, set_buffers; cbn [events].
    by rewrite reported_app, Hr.
Qed.

End Close.

(** ** Handle *)

Section Handle.
Context `{env : Env}.

Lemma Write_Reset (w : World) (st : loc) (p : bytes) :
  Buffer.Write (Buffer.Reset w st) st p = (set_buffers <[st := [] ++ p]> w, None).
Proof.
  unfold Buffer.Write, Buffer.Reset, Buffer.Bytes, set_buffers. cbn [buffers].
  rewrite lookup_total_insert_eq, insert_insert_eq. reflexivity.
Qed.

(** How [Handle] goes on once the record is formatted: [cut] is the test of
    the code, and a batch that is cut is the whole content of the buffer. *)
Lemma Handle_formatted (w : World) (h : loc) (r : slog.Record) (out : bytes) :
  let v := SentinelOneHECHandler.deref w h in
  let st := sentinelone.state v in
  let record := SentinelOneHECHandler.eventRecord v r in
  let recordBuf := out ++ [x0a] in
  let cut :=
    (Buffer.Len w st >? 0)%Z &&
    ((sentinelone.BufferSize (sentinelone.options v) =? 0)%Z ||
     (sentinelone.Size (int_add (Buffer.Len w st) (len recordBuf))
        >? sentinelone.BufferSize (sentinelone.options v))%Z) in
  let w1 :=
    set_buffers <[st := (if cut then [] else Buffer.Bytes w st) ++ recordBuf]> w in
  JSONHandler_Handle (SentinelOneHECHandler.replaceAttr v)
    (sentinelone.attrs v) (sentinelone.groups v) record = inr out ->
  SentinelOneHECHandler.Handle w h r =
    if cut then
      if sentinelone.DisableAsync (sentinelone.options v) then
        SentinelOneHECHandler.send w1 h (Some record) (Buffer.Bytes w st)
      else
        (set_goroutines
           (fun gs => gs ++ [{| task_handler := h; task_record := record;
                                task_payload := Buffer.Bytes w st |}]) w1, None)
    else (w1, None).
Proof.
  cbv zeta. intros Hfmt. unfold SentinelOneHECHandler.Handle. rewrite Hfmt.
  destruct (_ && _); cbv beta iota zeta.
  - rewrite Write_Reset. reflexivity.
  - reflexivity.
Qed.

(** The test of the code, for a threshold above zero and buffers that fit in
    memory: the buffer holds data and the record would take it past the
    threshold. *)
Lemma cut_test (buffered recordBuf : bytes) (T : Z) :
  (0 < T)%Z ->
  (len buffered + len recordBuf < 2 ^ 63)%Z ->
  (len buffered >? 0)%Z &&
    ((T =? 0)%Z || (sentinelone.Size (int_add (len buffered) (len recordBuf)) >? T)%Z)
  = match buffered with
    | [] => false
    | _ :: _ => (T <? len buffered + len recordBuf)%Z
    end.
Proof.
  intros HT Hfit.
  rewrite Size_int_add by auto using len_nonneg.
  replace (T =? 0)%Z with false by (symmetry; apply Z.eqb_neq; lia).
  rewrite orb_false_l, !Z.gtb_ltb.
  destruct buffered as [|b buffered]; [reflexivity|].
  replace (0 <? len (b :: buffered))%Z with true; [reflexivity|].
  symmetry. apply Z.ltb_lt. unfold len. simpl length. lia.
Qed.

(** [Handle] changes no handler object and no level variable. *)
Lemma Handle_frame (w : World) (h : loc) (r : slog.Record) :
  let w' := fst (SentinelOneHECHandler.Handle w h r) in
  sameHandlers w w' /\ levelVars w' = levelVars w.
Proof.
  cbv zeta.
  destruct (JSONHandler_Handle
              (SentinelOneHECHandler.replaceAttr (SentinelOneHECHandler.deref w h))
              (sentinelone.attrs (SentinelOneHECHandler.deref w h))
              (sentinelone.groups (SentinelOneHECHandler.deref w h))
              (SentinelOneHECHandler.eventRecord (SentinelOneHECHandler.deref w h) r))
    as [err|out] eqn:Hfmt.
  - unfold SentinelOneHECHandler.Handle. rewrite Hfmt.
    unfold SentinelOneHECHandler.handleError.
    by destruct (sentinelone.ErrorHandler _).
  - rewrite (Handle_formatted w h r out Hfmt).
    destruct (_ && _); [|done].
    destruct (sentinelone.DisableAsync _); [|done].
    match goal with
    | |- context [SentinelOneHECHandler.send ?w1 h ?r1 ?p] =>
        destruct (send_spec w1 h r1 p) as (es & Hw & _)
    end.
    rewrite Hw. done.
Qed.

Lemma Close_delivered (w : World) (h : loc) :
  delivered (events (fst (SentinelOneHECHandler.Close w h))) =
    delivered (events w) ++
    match Buffer.Bytes w (sentinelone.state (SentinelOneHECHandler.deref w h)) with
    | [] => []
    | (_ :: _) as remaining => [remaining]
    end.
Proof.
  destruct (Buffer.Bytes w _) as [|b remaining] eqn:Hbuf.
  - rewrite Close_empty by done. by rewrite app_nil_r.
  - rewrite Close_nonempty by (rewrite Hbuf; discriminate).
    rewrite Hbuf. cbn [fst].
    destruct (send_spec
      (Buffer.Reset w (sentinelone.state (SentinelOneHECHandler.deref w h)))
      h None (b :: remaining)) as (es & Hw & Hd & _ & _).
    rewrite Hw. unfold emits, Buffer.Reset, set_buffers; cbn [events].
    by rewrite delivered_app, Hd.
Qed.

End Handle.

(** ** Batching *)

Section Batching.
Context `{env : Env}.

(** [Handle] on a formatted record, for a threshold above zero. *)
Lemma Handle_threshold (w : World) (h : loc) (r : slog.Record) (out : bytes) :
  let v := SentinelOneHECHandler.deref w h in
  let st := sentinelone.state v in
  let T := sentinelone.BufferSize (sentinelone.options v) in
  let record := SentinelOneHECHandler.eventRecord v r in
  let buffered := Buffer.Bytes w st in
  let recordBuf := out ++ [x0a] in
  let cut := match buffered with
             | [] => false
             | _ :: _ => (T <? len buffered + len recordBuf)%Z
             end in
  let w1 := set_buffers <[st := (if cut then [] else buffered) ++ recordBuf]> w in
  (0 < T)%Z ->
  (len buffered + len recordBuf < 2 ^ 63)%Z ->
  JSONHandler_Handle (SentinelOneHECHandler.replaceAttr v)
    (sentinelone.attrs v) (sentinelone.groups v) record = inr out ->
  SentinelOneHECHandler.Handle w h r =
    if cut then
      if sentinelone.DisableAsync (sentinelone.options v) then
        SentinelOneHECHandler.send w1 h (Some record) buffered
      else
        (set_goroutines
           (fun gs => gs ++ [{| task_handler := h; task_record := record;
                                task_payload := buffered |}]) w1, None)
    else (w1, None).
Proof.
  cbv zeta. intros HT Hfit Hfmt.
  rewrite (Handle_formatted w h r out Hfmt). unfold Buffer.Len.
  by rewrite (cut_test _ _ _ HT Hfit).
Qed.

Lemma Bytes_set_buffers (w : World) (st : loc) (b : bytes) :
  Buffer.Bytes (set_buffers <[st := b]> w) st = b.
Proof. unfold Buffer.Bytes, set_buffers; cbn [buffers]. apply lookup_total_insert_eq. Qed.

Lemma Close_delivers_buffer (w : World) (h : loc) (b : bytes) :
  b <> [] ->
  Buffer.Bytes w (sentinelone.state (SentinelOneHECHandler.deref w h)) = b ->
  delivered (events (fst (SentinelOneHECHandler.Close w h))) = delivered (events w) ++ [b].
Proof.
  intros Hne Hb. rewrite Close_delivered, Hb. by destruct b.
Qed.

(** One call of [Handle] on a formatted record, for a threshold above zero:
    what is handed to delivery, what the buffer holds and what stays. *)
Lemma Handle_step (w : World) (h : loc) (r : slog.Record) (out : bytes) :
  let v := SentinelOneHECHandler.deref w h in
  let st := sentinelone.state v in
  let T := sentinelone.BufferSize (sentinelone.options v) in
  let sync := sentinelone.DisableAsync (sentinelone.options v) in
  let buffered := Buffer.Bytes w st in
  let recordBuf := out ++ [x0a] in
  let cut := match buffered with
             | [] => false
             | _ :: _ => (T <? len buffered + len recordBuf)%Z
             end in
  let w' := fst (SentinelOneHECHandler.Handle w h r) in
  (0 < T)%Z ->
  (len buffered + len recordBuf < 2 ^ 63)%Z ->
  JSONHandler_Handle (SentinelOneHECHandler.replaceAttr v)
    (sentinelone.attrs v) (sentinelone.groups v)
    (SentinelOneHECHandler.eventRecord v r) = inr out ->
  SentinelOneHECHandler.deref w' h = v /\
  delivered (events w') =
    delivered (events w) ++ (if cut && sync then [buffered] else []) /\
  map task_payload (goroutines w') =
    map task_payload (goroutines w) ++ (if cut && negb sync then [buffered] else []) /\
  Buffer.Bytes w' st = (if cut then [] else buffered) ++ recordBuf /\
  (if cut then True else snd (SentinelOneHECHandler.Handle w h r) = None).
Proof.
  cbv zeta. intros HT Hfit Hfmt.
  rewrite (Handle_threshold w h r out HT Hfit Hfmt).
  destruct (match Buffer.Bytes w _ with [] => false | _ => _ end);
    [destruct (sentinelone.DisableAsync _)|]; cbn [andb negb].
  - match goal with
    | |- context [SentinelOneHECHandler.send ?w1 h ?r1 ?p] =>
        destruct (send_spec w1 h r1 p) as (es & -> & Hd & _)
    end.
    split; [reflexivity|]. split; [|split; [|split; [|done]]].
    + cbn [emits events set_buffers]. by rewrite delivered_app, Hd.
    + by rewrite app_nil_r.
    + apply Bytes_set_buffers.
  - cbn [fst]. split; [reflexivity|]. split; [|split; [|split; [|done]]].
    + by rewrite app_nil_r.
    + cbn [set_goroutines goroutines]. by rewrite map_app.
    + apply Bytes_set_buffers.
  - cbn [fst snd]. split; [reflexivity|]. split; [|split; [|split; [|done]]].
    + by rewrite app_nil_r.
    + by rewrite app_nil_r.
    + apply Bytes_set_buffers.
Qed.

(** C2. For a threshold [T] above zero, [Handle] cuts a batch exactly when
    the shared buffer holds data and the new record would take it past [T].
    The batch is the whole content of the buffer, handed to [send] in the
    call when sending is synchronous and to a goroutine otherwise; the buffer
    then holds the new record alone.  When no batch is cut nothing is
    delivered, the record is appended to what the buffer held and [Handle]
    returns nil.  So a record that is alone past [T] meets an empty buffer
    or follows a cut: it is buffered whole, and it is the buffer content that
    the closing flush delivers. *)
Theorem Handle_cuts_batch_iff (w : World) (h : loc) (r : slog.Record) (out : bytes) :
  let v := SentinelOneHECHandler.deref w h in
  let st := sentinelone.state v in
  let T := sentinelone.BufferSize (sentinelone.options v) in
  let sync := sentinelone.DisableAsync (sentinelone.options v) in
  let buffered := Buffer.Bytes w st in
  let recordBuf := out ++ [x0a] in
  let cut := match buffered with
             | [] => false
             | _ :: _ => (T <? len buffered + len recordBuf)%Z
             end in
  let w' := fst (SentinelOneHECHandler.Handle w h r) in
  (0 < T)%Z ->
  (len buffered + len recordBuf < 2 ^ 63)%Z ->
  JSONHandler_Handle (SentinelOneHECHandler.replaceAttr v)
    (sentinelone.attrs v) (sentinelone.groups v)
    (SentinelOneHECHandler.eventRecord v r) = inr out ->
  delivered (events w') =
    delivered (events w) ++ (if cut && sync then [buffered] else []) /\
  map task_payload (goroutines w') =
    map task_payload (goroutines w) ++ (if cut && negb sync then [buffered] else []) /\
  Buffer.Bytes w' st = (if cut then [] else buffered) ++ recordBuf /\
  (if cut then True else snd (SentinelOneHECHandler.Handle w h r) = None) /\
  delivered (events (fst (SentinelOneHECHandler.Close w' h))) =
    delivered (events w') ++ [(if cut then [] else buffered) ++ recordBuf].
Proof.
  cbv zeta. intros HT Hfit Hfmt.
  destruct (Handle_step w h r out HT Hfit Hfmt) as (Hv & Hd & Hg & Hb & Hret).
  do 4 (split; [done|]).
  apply Close_delivers_buffer.
  - destruct (if match Buffer.Bytes w _ with [] => false | _ => _ end then _ else _), out;
      discriminate.
  - by rewrite Hv.
Qed.

(** The batches of the specification lose nothing and keep the order: cut
    one after the other and followed by the buffer left, they are the buffer
    followed by the records. *)
Lemma batchesOf_concat (T : Z) (running : bytes) (recs : list bytes) :
  let '(batches, remaining) := batchesOf T running recs in
  concat batches ++ remaining = running ++ concat recs.
Proof.
  revert running. induction recs as [|rec rest IH]; intros running; simpl.
  - by rewrite app_nil_r.
  - destruct (match running with [] => false | _ => _ end).
    + specialize (IH rec). destruct (batchesOf T rec rest) as [batches remaining].
      simpl. by rewrite <- app_assoc, IH.
    + specialize (IH (running ++ rec)).
      destruct (batchesOf T (running ++ rec) rest) as [batches remaining].
      by rewrite IH, <- app_assoc.
Qed.

(** [Handle] over a sequence of records cuts the batches of the
    specification: for every threshold above zero and every sequence of
    records, what is handed to delivery and what is left in the buffer are
    the batches and the rest that [batchesOf] computes from the formatted
    records. *)
Lemma handleAll_batches (h : loc) (rs : list slog.Record) (outs : list bytes)
    (v : sentinelone.SentinelOneHECHandler) :
  let st := sentinelone.state v in
  let T := sentinelone.BufferSize (sentinelone.options v) in
  let sync := sentinelone.DisableAsync (sentinelone.options v) in
  let recs := map (fun out => out ++ [x0a]) outs in
  (0 < T)%Z ->
  Forall2 (fun r out =>
             JSONHandler_Handle (SentinelOneHECHandler.replaceAttr v)
               (sentinelone.attrs v) (sentinelone.groups v)
               (SentinelOneHECHandler.eventRecord v r) = inr out) rs outs ->
  forall w : World,
    SentinelOneHECHandler.deref w h = v ->
    (len (Buffer.Bytes w st) + len (concat recs) < 2 ^ 63)%Z ->
    let w' := handleAll w h rs in
    delivered (events w') =
      delivered (events w) ++
      (if sync then fst (batchesOf T (Buffer.Bytes w st) recs) else []) /\
    map task_payload (goroutines w') =
      map task_payload (goroutines w) ++
      (if sync then [] else fst (batchesOf T (Buffer.Bytes w st) recs)) /\
    Buffer.Bytes w' st = snd (batchesOf T (Buffer.Bytes w st) recs).
Proof.
  cbv zeta. intros HT Hfmt.
  induction Hfmt as [|r out rs outs Hr Hrs IH]; intros w Hv Hfit.
  - simpl. destruct (sentinelone.DisableAsync _); by rewrite !app_nil_r.
  - simpl in Hfit. rewrite len_app in Hfit.
    pose proof (len_nonneg (concat (map (fun out => out ++ [x0a]) outs))) as Hrest.
    pose proof (len_nonneg (Buffer.Bytes w (sentinelone.state v))) as Hbuf.
    subst v.
    assert (Hfit1 : (len (Buffer.Bytes w
                            (sentinelone.state (SentinelOneHECHandler.deref w h))) +
                     len (out ++ [x0a]) < 2 ^ 63)%Z) by lia.
    destruct (Handle_step w h r out HT Hfit1 Hr) as (Hv & Hd & Hg & Hb & _).
    simpl. specialize (IH (fst (SentinelOneHECHandler.Handle w h r)) Hv).
    rewrite Hb, Hd, Hg in IH.
    destruct (match Buffer.Bytes w _ with [] => false | _ => _ end) eqn:Hcut.
    + destruct IH as (IHd & IHg & IHb); [simpl; lia|].
      simpl in IHd, IHg, IHb.
      destruct (batchesOf _ (out ++ [x0a]) _) as [batches remaining].
      destruct (sentinelone.DisableAsync _); simpl in *;
        rewrite IHd, IHg, IHb, <- ?app_assoc, ?app_nil_r; done.
    + destruct IH as (IHd & IHg & IHb); [rewrite len_app; lia|].
      rewrite !andb_false_l, !app_nil_r in IHd, IHg.
      done.
Qed.

End Batching.

(** ** Delivery errors of a batch cut by Handle *)

Section Routing.
Context `{env : Env}.

(** The test of the code when the buffer holds data and batching is off or
    the record takes the buffer past the threshold. *)
Lemma cut_test_true (buffered recordBuf : bytes) (T : Z) :
  buffered <> [] ->
  (T = 0 \/ T < len buffered + len recordBuf)%Z ->
  (len buffered + len recordBuf < 2 ^ 63)%Z ->
  (len buffered >? 0)%Z &&
    ((T =? 0)%Z || (sentinelone.Size (int_add (len buffered) (len recordBuf)) >? T)%Z)
  = true.
Proof.
  intros Hne HT Hfit.
  rewrite Size_int_add by auto using len_nonneg.
  apply andb_true_iff. split; [by apply len_pos_iff|].
  apply orb_true_iff. rewrite Z.eqb_eq, Z.gtb_ltb, Z.ltb_lt. exact HT.
Qed.

(** The goroutine a cut started runs: one delivery attempt, whose error goes
    to the error handler. *)
Lemma run_last (w : World) (t : Task) :
  let w' := set_goroutines (fun gs => gs ++ [t]) w in
  let v := SentinelOneHECHandler.deref w (task_handler t) in
  let err := deliveryError v (S (length (events w))) (task_payload t) in
  let w'' := SentinelOneHECHandler.run w' (length (goroutines w)) in
  goroutines w'' = goroutines w /\
  delivered (events w'') = delivered (events w) ++ [task_payload t] /\
  reported (events w'') = reported (events w) ++ routed v (Some (task_record t)) err.
Proof.
  cbv zeta. unfold SentinelOneHECHandler.run. cbn [set_goroutines goroutines].
  rewrite list_lookup_middle by done.
  match goal with
  | |- context [SentinelOneHECHandler.send ?w1 ?h1 ?r1 ?p] =>
      destruct (send_spec w1 h1 r1 p) as (es & -> & Hd & Hr & _)
  end.
  cbn [emits set_goroutines goroutines events]. rewrite delete_middle, app_nil_r.
  rewrite delivered_app, reported_app, Hd, Hr. done.
Qed.

(** C9. When [Handle] cuts a batch, that is when the buffer holds data and
    batching is off or the record would take the buffer past the threshold:
    with synchronous sending [Handle] returns the error of the delivery, as
    the error handler returned it when one is configured; with asynchronous
    sending [Handle] returns nil and logs nothing, whatever the collector
    does, and the goroutine it started makes the delivery, whose error goes
    to the error handler and is otherwise dropped. *)
Theorem Handle_cut_delivery_error (w : World) (h : loc) (r : slog.Record) (out : bytes) :
  let v := SentinelOneHECHandler.deref w h in
  let st := sentinelone.state v in
  let T := sentinelone.BufferSize (sentinelone.options v) in
  let record := SentinelOneHECHandler.eventRecord v r in
  let buffered := Buffer.Bytes w st in
  let recordBuf := out ++ [x0a] in
  let err := deliveryError v (S (length (events w))) buffered in
  let w' := fst (SentinelOneHECHandler.Handle w h r) in
  buffered <> [] ->
  (T = 0 \/ T < len buffered + len recordBuf)%Z ->
  (len buffered + len recordBuf < 2 ^ 63)%Z ->
  JSONHandler_Handle (SentinelOneHECHandler.replaceAttr v)
    (sentinelone.attrs v) (sentinelone.groups v) record = inr out ->
  if sentinelone.DisableAsync (sentinelone.options v) then
    snd (SentinelOneHECHandler.Handle w h r) = surfaced v (Some record) err /\
    delivered (events w') = delivered (events w) ++ [buffered] /\
    reported (events w') = reported (events w) ++ routed v (Some record) err /\
    goroutines w' = goroutines w
  else
    snd (SentinelOneHECHandler.Handle w h r) = None /\
    events w' = events w /\
    goroutines w' =
      goroutines w ++ [{| task_handler := h; task_record := record;
                          task_payload := buffered |}] /\
    let w'' := SentinelOneHECHandler.run w' (length (goroutines w)) in
    goroutines w'' = goroutines w /\
    delivered (events w'') = delivered (events w) ++ [buffered] /\
    reported (events w'') = reported (events w) ++ routed v (Some record) err.
Proof.
  cbv zeta. intros Hne HT Hfit Hfmt.
  rewrite (Handle_formatted w h r out Hfmt). unfold Buffer.Len.
  rewrite (cut_test_true _ _ _ Hne HT Hfit).
  destruct (sentinelone.DisableAsync _).
  - match goal with
    | |- context [SentinelOneHECHandler.send ?w1 h ?r1 ?p] =>
        destruct (send_spec w1 h r1 p) as (es & -> & Hd & Hr & ->)
    end.
    cbn [emits events goroutines set_buffers].
    by rewrite delivered_app, reported_app, Hd, Hr.
  - cbn [fst snd]. do 3 (split; [done|]).
    match goal with
    | |- context [SentinelOneHECHandler.run (set_goroutines _ ?w1) _] =>
        apply (run_last w1
                 {| task_handler := h;
                    task_record := SentinelOneHECHandler.eventRecord
                                     (SentinelOneHECHandler.deref w h) r;
                    task_payload := Buffer.Bytes w
                      (sentinelone.state (SentinelOneHECHandler.deref w h)) |})
    end.
Qed.

End Routing.

(** ** The fan-out handler *)

Section FanoutChildren.
Context {H : Type} `{children : Handler.Handler H}.

Lemma anyEnabled_iff (w : World) (handlers : list H) (level : slog.Level) :
  FanoutHandler.anyEnabled w handlers level = true <->
  exists handler, handler ∈ handlers /\ Handler.Enabled w handler level = true.
Proof.
  induction handlers as [|handler rest IH]; simpl.
  - split; [discriminate|]. intros (handler & Hin & _). by apply elem_of_nil in Hin.
  - destruct (Handler.Enabled w handler level) eqn:He.
    + split; [|done]. intros _. exists handler. split; [left | done].
    + rewrite IH. split.
      * intros (c & Hin & Hc). exists c. split; [by right | done].
      * intros (c & Hin & Hc). apply elem_of_cons in Hin as [->|Hin]; [congruence|].
        by exists c.
Qed.

Lemma omap_id_Some (errs : list error) : omap id (map Some errs) = errs.
Proof. induction errs as [|e errs IH]; [done|]. simpl. f_equal. exact IH. Qed.

Lemma errors_Join_nil_iff (errs : list error) :
  errors_Join (map Some errs) = None <-> errs = [].
Proof.
  unfold errors_Join. rewrite omap_id_Some. by destruct errs.
Qed.

(** The loop of [Handle]: one turn per child in the order of the list, each
    in order, chained from the store the loop starts in to the one it ends
    in, and the errors collected are those of the turns, in order. *)
Lemma handleEach_spec (w : World) (handlers : list H) (r : slog.Record) (errs : list error) :
  let '(w', errs', vs) := FanoutHandler.handleEach w handlers r errs in
  map FanoutHandler.child vs = handlers /\
  FanoutHandler.chained w vs w' /\
  Forall (FanoutHandler.inOrder r) vs /\
  errs' = errs ++ omap FanoutHandler.tried vs.
Proof.
  revert w errs. induction handlers as [|handler rest IH]; intros w errs; simpl.
  - by rewrite app_nil_r.
  - destruct (Handler.Enabled w handler (slog.RLevel r)) eqn:He.
    + destruct (Handler.Handle w handler (slog.Clone r)) as [w1 out] eqn:Hh.
      specialize (IH w1 (match try out with Some err => errs ++ [err] | None => errs end)).
      destruct (FanoutHandler.handleEach w1 rest r _) as [[w' errs'] vs].
      destruct IH as (Hmap & Hchain & Hall & Herrs).
      split; [simpl; by rewrite Hmap|].
      split; [simpl; split; [done|]; unfold FanoutHandler.after; simpl; by rewrite Hh|].
      split.
      * constructor; [|done]. unfold FanoutHandler.inOrder; simpl. by rewrite He, Hh.
      * simpl. unfold FanoutHandler.tried at 1; simpl. rewrite Herrs.
        destruct (try out); [by rewrite <- app_assoc | done].
    + specialize (IH w errs).
      destruct (FanoutHandler.handleEach w rest r errs) as [[w' errs'] vs].
      destruct IH as (Hmap & Hchain & Hall & Herrs).
      split; [simpl; by rewrite Hmap|].
      split; [simpl; split; done|].
      split; [|done].
      constructor; [|done]. unfold FanoutHandler.inOrder; simpl. by rewrite He.
Qed.

(** C6. [Handle] of the fan-out takes one turn per child, in the order the
    children were registered, each in the store the turn before left.  A
    child that is not enabled for the level of the record in that store is
    skipped; a child that is enabled is given a clone of the record, which has
    the fields and attributes of the record and shares no spare memory with
    it.  What [Handle] returns is the join of what [try] made of each call,
    so a child that panics contributes an error and the fan-out itself
    returns: the result is nil exactly when every child called returned
    nil. *)
Theorem FanoutHandler_Handle_turns (w : World) (h : fanout.FanoutHandler H) (r : slog.Record) :
  let vs := FanoutHandler.visits w h r in
  let w' := fst (FanoutHandler.Handle w h r) in
  let ret := snd (FanoutHandler.Handle w h r) in
  map FanoutHandler.child vs = fanout.Handlers (fanout.options h) /\
  FanoutHandler.chained w vs w' /\
  Forall (FanoutHandler.inOrder r) vs /\
  (slog.Attrs (slog.Clone r) = slog.Attrs r /\ slog.spare (slog.Clone r) = 0) /\
  ret = errors_Join (map FanoutHandler.tried vs) /\
  (ret = None <->
   Forall (fun v => match FanoutHandler.call v with
                    | Some (_, out) => out = Returns None
                    | None => True
                    end) vs).
Proof.
  cbv zeta. unfold FanoutHandler.visits, FanoutHandler.Handle.
  pose proof (handleEach_spec w (fanout.Handlers (fanout.options h)) r []) as Hspec.
  destruct (FanoutHandler.handleEach w _ r []) as [[w' errs] vs].
  destruct Hspec as (Hmap & Hchain & Hall & Herrs). simpl in Herrs. subst errs.
  cbn [fst snd].
  split; [done|]. split; [done|]. split; [done|]. split; [done|].
  assert (Hjoin : errors_Join (map Some (omap FanoutHandler.tried vs)) =
                  errors_Join (map FanoutHandler.tried vs)).
  { unfold errors_Join. rewrite omap_id_Some.
    replace (omap id (map FanoutHandler.tried vs)) with (omap FanoutHandler.tried vs);
      [done|].
    clear. induction vs as [|v vs IH]; [done|]. simpl.
    destruct (FanoutHandler.tried v); [f_equal|]; exact IH. }
  split; [done|].
  rewrite errors_Join_nil_iff.
  clear. induction vs as [|v vs IH]; simpl.
  - split; [constructor | done].
  - rewrite Forall_cons, <- IH. unfold FanoutHandler.tried at 1.
    destruct (FanoutHandler.call v) as [[r0 [[e|]|[e|s]]]|]; simpl;
      intuition congruence.
Qed.

End FanoutChildren.

(** C5. The fan-out is enabled for a level exactly when one of its children
    is.  With no child it is not enabled, and neither is it over discard
    handlers alone, however many. *)
Theorem FanoutHandler_Enabled_iff_child :
  (forall (H : Type) (children : Handler.Handler H) (w : World)
          (h : fanout.FanoutHandler H) (level : slog.Level),
     FanoutHandler.Enabled w h level = true <->
     exists handler, handler ∈ fanout.Handlers (fanout.options h) /\
                     Handler.Enabled w handler level = true) /\
  (forall (H : Type) (children : Handler.Handler H) (w : World) (level : slog.Level),
     FanoutHandler.Enabled w (fanout.NewFanoutHandler {| fanout.Handlers := [] |}) level
     = false) /\
  (forall (env : Env) (w : World) (n : nat) (level : slog.Level),
     FanoutHandler.Enabled w
       (fanout.NewFanoutHandler {| fanout.Handlers := replicate n Discard |}) level
     = false).
Proof.
  split; [|split].
  - intros H children w h level. apply anyEnabled_iff.
  - reflexivity.
  - intros env w n level. unfold FanoutHandler.Enabled; simpl.
    induction n as [|n IH]; simpl; done.
Qed.

(** ** Cloning *)

Lemma fresh_None {A} (m : gmap loc A) : m !! fresh (dom m) = None.
Proof. apply not_elem_of_dom, is_fresh. Qed.

Lemma extends_refl (w : World) : extends w w.
Proof. by repeat split. Qed.

Lemma extends_trans (w1 w2 w3 : World) : extends w1 w2 -> extends w2 w3 -> extends w1 w3.
Proof.
  intros (Hc & Hf & Hs & Hl & Hb & Hg & He) (Hc' & Hf' & Hs' & Hl' & Hb' & Hg' & He').
  repeat split; try congruence; etrans; eauto.
Qed.

Lemma newIn_extends (w w' : World) (s : Sink) : extends w w' -> newIn w' s -> newIn w s.
Proof.
  intros (Hc & Hf & Hs & _) Hnew.
  destruct s; simpl in *; try done; eapply lookup_weaken_None; eauto.
Qed.

Lemma SentinelOneHECHandler_WithAttrs_spec (w : World) (h : loc) (more : list slog.Attr) :
  let v := SentinelOneHECHandler.deref w h in
  let '(w1, c) := SentinelOneHECHandler.WithAttrs w h more in
  sentinelOneHandlers w !! c = None /\
  w1 = set_sentinelOneHandlers
         <[c := {| sentinelone.attrs := sentinelone.attrs v ++ more;
                   sentinelone.authToken := sentinelone.authToken v;
                   sentinelone.client := sentinelone.client v;
                   sentinelone.groups := sentinelone.groups v;
                   sentinelone.ingestionURL := sentinelone.ingestionURL v;
                   sentinelone.options := sentinelone.options v;
                   sentinelone.state := sentinelone.state v |}]> w.
Proof.
  unfold SentinelOneHECHandler.WithAttrs, SentinelOneHECHandler.clone,
    SentinelOneHECHandler.new, SentinelOneHECHandler.deref, set_sentinelOneHandlers.
  cbn [sentinelOneHandlers]. split; [apply fresh_None|].
  rewrite insert_insert_eq, lookup_total_insert_eq. cbn.
  do 2 f_equal. f_equal.
  destruct (decide (fresh (dom (sentinelOneHandlers w)) = h)) as [E|E].
  - rewrite E at 1. by rewrite lookup_total_insert_eq.
  - by rewrite lookup_total_insert_ne.
Qed.

Lemma SentinelOneHECHandler_WithGroup_spec (w : World) (h : loc) (name : string) :
  let v := SentinelOneHECHandler.deref w h in
  let '(w1, c) := SentinelOneHECHandler.WithGroup w h name in
  if (String.length name =? 0)%nat then w1 = w /\ c = h
  else
    sentinelOneHandlers w !! c = None /\
    w1 = set_sentinelOneHandlers
           <[c := {| sentinelone.attrs := sentinelone.attrs v;
                     sentinelone.authToken := sentinelone.authToken v;
                     sentinelone.client := sentinelone.client v;
                     sentinelone.groups := sentinelone.groups v ++ [name];
                     sentinelone.ingestionURL := sentinelone.ingestionURL v;
                     sentinelone.options := sentinelone.options v;
                     sentinelone.state := sentinelone.state v |}]> w.
Proof.
  unfold SentinelOneHECHandler.WithGroup.
  destruct (String.length name =? 0)%nat; [done|].
  unfold SentinelOneHECHandler.clone,
    SentinelOneHECHandler.new, SentinelOneHECHandler.deref, set_sentinelOneHandlers.
  cbn [sentinelOneHandlers]. split; [apply fresh_None|].
  rewrite insert_insert_eq, lookup_total_insert_eq. cbn.
  do 2 f_equal. do 2 f_equal.
  destruct (decide (fresh (dom (sentinelOneHandlers w)) = h)) as [E|E].
  - rewrite E at 1. by rewrite lookup_total_insert_eq.
  - by rewrite lookup_total_insert_ne.
Qed.

Lemma ConsoleHandler_WithAttrs_spec (w : World) (h : loc) (attrs : list slog.Attr) :
  let v := ConsoleHandler.deref w h in
  let '(w1, c) := ConsoleHandler.WithAttrs w h attrs in
  consoleHandlers w !! c = None /\
  w1 = set_consoleHandlers
         <[c := {| console.handler := slog.WithAttrs (console.handler v) attrs;
                   console.options := console.options v |}]> w.
Proof.
  unfold ConsoleHandler.WithAttrs, ConsoleHandler.clone, ConsoleHandler.new,
    ConsoleHandler.deref, set_consoleHandlers.
  cbn [consoleHandlers]. split; [apply fresh_None|].
  rewrite insert_insert_eq, lookup_total_insert_eq. cbn.
  do 4 f_equal.
  destruct (decide (fresh (dom (consoleHandlers w)) = h)) as [E|E].
  - rewrite E at 1. by rewrite lookup_total_insert_eq.
  - by rewrite lookup_total_insert_ne.
Qed.

Lemma ConsoleHandler_WithGroup_spec (w : World) (h : loc) (name : string) :
  let v := ConsoleHandler.deref w h in
  let '(w1, c) := ConsoleHandler.WithGroup w h name in
  if (String.length name =? 0)%nat then w1 = w /\ c = h
  else
    consoleHandlers w !! c = None /\
    w1 = set_consoleHandlers
           <[c := {| console.handler := slog.WithGroup (console.handler v) name;
                     console.options := console.options v |}]> w.
Proof.
  unfold ConsoleHandler.WithGroup.
  destruct (String.length name =? 0)%nat; [done|].
  unfold ConsoleHandler.clone, ConsoleHandler.new,
    ConsoleHandler.deref, set_consoleHandlers.
  cbn [consoleHandlers]. split; [apply fresh_None|].
  rewrite insert_insert_eq, lookup_total_insert_eq. cbn.
  do 4 f_equal.
  destruct (decide (fresh (dom (consoleHandlers w)) = h)) as [E|E].
  - rewrite E at 1. by rewrite lookup_total_insert_eq.
  - by rewrite lookup_total_insert_ne.
Qed.

Lemma FileHandler_WithAttrs_spec (w : World) (h : loc) (attrs : list slog.Attr) :
  let v := FileHandler.deref w h in
  let '(w1, c) := FileHandler.WithAttrs w h attrs in
  fileHandlers w !! c = None /\
  w1 = set_fileHandlers
         <[c := {| file.bufferedWriter := file.bufferedWriter v;
                   file.fileWriter := file.fileWriter v;
                   file.handler := slog.WithAttrs (file.handler v) attrs;
                   file.options := file.options v |}]> w.
Proof.
  unfold FileHandler.WithAttrs, FileHandler.clone, FileHandler.new,
    FileHandler.deref, set_fileHandlers.
  cbn [fileHandlers]. split; [apply fresh_None|].
  rewrite insert_insert_eq, lookup_total_insert_eq. cbn.
  do 4 f_equal.
  destruct (decide (fresh (dom (fileHandlers w)) = h)) as [E|E].
  - rewrite E at 1. by rewrite lookup_total_insert_eq.
  - by rewrite lookup_total_insert_ne.
Qed.

Lemma FileHandler_WithGroup_spec (w : World) (h : loc) (name : string) :
  let v := FileHandler.deref w h in
  let '(w1, c) := FileHandler.WithGroup w h name in
  if (String.length name =? 0)%nat then w1 = w /\ c = h
  else
    fileHandlers w !! c = None /\
    w1 = set_fileHandlers
           <[c := {| file.bufferedWriter := file.bufferedWriter v;
                     file.fileWriter := file.fileWriter v;
                     file.handler := slog.WithGroup (file.handler v) name;
                     file.options := file.options v |}]> w.
Proof.
  unfold FileHandler.WithGroup.
  destruct (String.length name =? 0)%nat; [done|].
  unfold FileHandler.clone, FileHandler.new, FileHandler.deref, set_fileHandlers.
  cbn [fileHandlers]. split; [apply fresh_None|].
  rewrite insert_insert_eq, lookup_total_insert_eq. cbn.
  do 4 f_equal.
  destruct (decide (fresh (dom (fileHandlers w)) = h)) as [E|E].
  - rewrite E at 1. by rewrite lookup_total_insert_eq.
  - by rewrite lookup_total_insert_ne.
Qed.

(** A handler stored at a location that was free: the store grows by it, it
    is new, and when it has the options of [h] it shares the gate of [h]. *)
Lemma extends_insert_console (w : World) (c : loc) (v : console.ConsoleHandler) :
  consoleHandlers w !! c = None -> extends w (set_consoleHandlers <[c := v]> w).
Proof. intros Hc. repeat split; try done. by apply insert_subseteq. Qed.

Lemma extends_insert_file (w : World) (c : loc) (v : file.FileHandler) :
  fileHandlers w !! c = None -> extends w (set_fileHandlers <[c := v]> w).
Proof. intros Hc. repeat split; try done. by apply insert_subseteq. Qed.

Lemma extends_insert_sentinelOne (w : World) (c : loc)
    (v : sentinelone.SentinelOneHECHandler) :
  sentinelOneHandlers w !! c = None -> extends w (set_sentinelOneHandlers <[c := v]> w).
Proof. intros Hc. repeat split; try done. by apply insert_subseteq. Qed.

Lemma sharesGate_console (w : World) (h c : loc) (v : console.ConsoleHandler) :
  console.options v = console.options (ConsoleHandler.deref w h) ->
  sharesGate (set_consoleHandlers <[c := v]> w) (Console h) (Console c).
Proof.
  intros Hopt.
  assert (Hc : forall w', consoleHandlers w' = <[c := v]> (consoleHandlers w) ->
            console.options (ConsoleHandler.deref w' c) = console.options v).
  { intros w' E. unfold ConsoleHandler.deref. by rewrite E, lookup_total_insert_eq. }
  assert (Hh : forall w', consoleHandlers w' = <[c := v]> (consoleHandlers w) ->
            console.options (ConsoleHandler.deref w' h) = console.options v).
  { intros w' E. unfold ConsoleHandler.deref. rewrite E, lookup_total_insert.
    by destruct (decide (c = h)). }
  split; [|split].
  - simpl. unfold ConsoleHandler.GetLevelVar. by rewrite Hc, Hh.
  - simpl. unfold ConsoleHandler.GetMaxLevelVar. by rewrite Hc, Hh.
  - intros w' level (Ec & Ef & Es). simpl. unfold ConsoleHandler.Enabled.
    by rewrite Hc, Hh.
Qed.

Lemma sharesGate_file (w : World) (h c : loc) (v : file.FileHandler) :
  file.options v = file.options (FileHandler.deref w h) ->
  sharesGate (set_fileHandlers <[c := v]> w) (File h) (File c).
Proof.
  intros Hopt.
  assert (Hc : forall w', fileHandlers w' = <[c := v]> (fileHandlers w) ->
            file.options (FileHandler.deref w' c) = file.options v).
  { intros w' E. unfold FileHandler.deref. by rewrite E, lookup_total_insert_eq. }
  assert (Hh : forall w', fileHandlers w' = <[c := v]> (fileHandlers w) ->
            file.options (FileHandler.deref w' h) = file.options v).
  { intros w' E. unfold FileHandler.deref. rewrite E, lookup_total_insert.
    by destruct (decide (c = h)). }
  split; [|split].
  - simpl. unfold FileHandler.GetLevelVar. by rewrite Hc, Hh.
  - simpl. unfold FileHandler.GetMaxLevelVar. by rewrite Hc, Hh.
  - intros w' level (Ec & Ef & Es). simpl. unfold FileHandler.Enabled.
    by rewrite Hc, Hh.
Qed.

Lemma sharesGate_sentinelOne (w : World) (h c : loc)
    (v : sentinelone.SentinelOneHECHandler) :
  sentinelone.options v = sentinelone.options (SentinelOneHECHandler.deref w h) ->
  sharesGate (set_sentinelOneHandlers <[c := v]> w) (SentinelOneHEC h) (SentinelOneHEC c).
Proof.
  intros Hopt.
  assert (Hc : forall w', sentinelOneHandlers w' = <[c := v]> (sentinelOneHandlers w) ->
            sentinelone.options (SentinelOneHECHandler.deref w' c) = sentinelone.options v).
  { intros w' E. unfold SentinelOneHECHandler.deref. by rewrite E, lookup_total_insert_eq. }
  assert (Hh : forall w', sentinelOneHandlers w' = <[c := v]> (sentinelOneHandlers w) ->
            sentinelone.options (SentinelOneHECHandler.deref w' h) = sentinelone.options v).
  { intros w' E. unfold SentinelOneHECHandler.deref. rewrite E, lookup_total_insert.
    by destruct (decide (c = h)). }
  split; [|split].
  - simpl. unfold SentinelOneHECHandler.GetLevelVar. by rewrite Hc, Hh.
  - simpl. unfold SentinelOneHECHandler.GetMaxLevelVar. by rewrite Hc, Hh.
  - intros w' level (Ec & Ef & Es). simpl. unfold SentinelOneHECHandler.Enabled.
    by rewrite Hc, Hh.
Qed.

Lemma sharesGate_refl (w : World) (s : Sink) : sharesGate w s s.
Proof. by repeat split. Qed.

Lemma sharesGate_discard (w : World) (s : Sink) :
  s = Discard \/ s = SlogDiscard -> sharesGate w s SlogDiscard.
Proof. intros [-> | ->]; by repeat split. Qed.

Lemma Sink_WithAttrs_frame (w : World) (s : Sink) (attrs : list slog.Attr) :
  let '(w1, c) := Sink_WithAttrs w s attrs in
  extends w w1 /\ newIn w c /\ sharesGate w1 s c.
Proof.
  destruct s as [h|h|h| |]; unfold Sink_WithAttrs.
  - pose proof (ConsoleHandler_WithAttrs_spec w h attrs) as Hspec.
    destruct (ConsoleHandler.WithAttrs w h attrs) as [w1 c].
    destruct Hspec as [Hnone ->].
    split; [by apply extends_insert_console|]. split; [done|].
    by apply sharesGate_console.
  - pose proof (FileHandler_WithAttrs_spec w h attrs) as Hspec.
    destruct (FileHandler.WithAttrs w h attrs) as [w1 c].
    destruct Hspec as [Hnone ->].
    split; [by apply extends_insert_file|]. split; [done|].
    by apply sharesGate_file.
  - pose proof (SentinelOneHECHandler_WithAttrs_spec w h attrs) as Hspec.
    destruct (SentinelOneHECHandler.WithAttrs w h attrs) as [w1 c].
    destruct Hspec as [Hnone ->].
    split; [by apply extends_insert_sentinelOne|]. split; [done|].
    by apply sharesGate_sentinelOne.
  - split; [apply extends_refl|]. split; [done|]. apply sharesGate_discard. by left.
  - split; [apply extends_refl|]. split; [done|]. apply sharesGate_discard. by right.
Qed.

Lemma Sink_WithGroup_frame (w : World) (s : Sink) (name : string) :
  let '(w1, c) := Sink_WithGroup w s name in
  (if (String.length name =? 0)%nat then w1 = w /\ c = ungrouped s
   else extends w w1 /\ newIn w c) /\
  sharesGate w1 s c.
Proof.
  destruct s as [h|h|h| |]; unfold Sink_WithGroup, ungrouped.
  - pose proof (ConsoleHandler_WithGroup_spec w h name) as Hspec.
    destruct (ConsoleHandler.WithGroup w h name) as [w1 c].
    destruct (String.length name =? 0)%nat.
    + destruct Hspec as [-> ->]. split; [done | apply sharesGate_refl].
    + destruct Hspec as [Hnone ->].
      split; [split; [by apply extends_insert_console | done]|].
      by apply sharesGate_console.
  - pose proof (FileHandler_WithGroup_spec w h name) as Hspec.
    destruct (FileHandler.WithGroup w h name) as [w1 c].
    destruct (String.length name =? 0)%nat.
    + destruct Hspec as [-> ->]. split; [done | apply sharesGate_refl].
    + destruct Hspec as [Hnone ->].
      split; [split; [by apply extends_insert_file | done]|].
      by apply sharesGate_file.
  - pose proof (SentinelOneHECHandler_WithGroup_spec w h name) as Hspec.
    destruct (SentinelOneHECHandler.WithGroup w h name) as [w1 c].
    destruct (String.length name =? 0)%nat.
    + destruct Hspec as [-> ->]. split; [done | apply sharesGate_refl].
    + destruct Hspec as [Hnone ->].
      split; [split; [by apply extends_insert_sentinelOne | done]|].
      by apply sharesGate_sentinelOne.
  - split; [|apply sharesGate_discard; by left].
    destruct (String.length name =? 0)%nat; [done|]. split; [apply extends_refl | done].
  - split; [|apply sharesGate_discard; by right].
    destruct (String.length name =? 0)%nat; [done|]. split; [apply extends_refl | done].
Qed.

(** ** What handling leaves alone *)

(** A predicate on stores that the [Handle] of every child keeps is kept by
    the [Handle] of the fan-out. *)
Lemma handleEach_keeps {H : Type} `{children : Handler.Handler H} (P : World -> Prop)
    (handlers : list H) (r : slog.Record) :
  (forall w h r', P w -> P (fst (Handler.Handle w h r'))) ->
  forall w errs, P w -> P (fst (fst (FanoutHandler.handleEach w handlers r errs))).
Proof.
  intros Hkeep. induction handlers as [|handler rest IH]; intros w errs HP; simpl; [done|].
  destruct (Handler.Enabled w handler (slog.RLevel r)).
  - pose proof (Hkeep w handler (slog.Clone r) HP) as HP1.
    destruct (Handler.Handle w handler (slog.Clone r)) as [w1 out].
    specialize (IH w1 (match try out with Some err => errs ++ [err] | None => errs end) HP1).
    by destruct (FanoutHandler.handleEach w1 rest r _) as [[w' errs'] vs].
  - specialize (IH w errs HP).
    by destruct (FanoutHandler.handleEach w rest r errs) as [[w' errs'] vs].
Qed.

(** Two stores with the same handlers and level variables enable the same
    levels. *)
Lemma Sink_Enabled_same (w w' : World) (s : Sink) (level : slog.Level) :
  sameHandlers w w' -> levelVars w' = levelVars w ->
  Sink_Enabled w' s level = Sink_Enabled w s level.
Proof.
  intros (Hc & Hf & Hs) Hl.
  destruct s; simpl; try done;
    unfold ConsoleHandler.Enabled, FileHandler.Enabled, SentinelOneHECHandler.Enabled,
      ConsoleHandler.deref, FileHandler.deref, SentinelOneHECHandler.deref, LevelVar.Level;
    by rewrite ?Hc, ?Hf, ?Hs, Hl.
Qed.

Section Handling.
Context `{env : Env}.

Lemma Sink_Handle_frame (w : World) (s : Sink) (r : slog.Record) :
  let w' := fst (Sink_Handle w s r) in
  sameHandlers w w' /\ levelVars w' = levelVars w.
Proof.
  destruct s as [h|h|h| |]; unfold Sink_Handle, returns; cbn [fst]; try done.
  - unfold ConsoleHandler.Handle.
    destruct (Handler_Handle (console.handler (ConsoleHandler.deref w h)) r);
      destruct (console.ErrorHandler (console.options (ConsoleHandler.deref w h))); done.
  - unfold FileHandler.Handle.
    destruct (Handler_Handle (file.handler (FileHandler.deref w h)) r);
      destruct (file.ErrorHandler (file.options (FileHandler.deref w h))); done.
  - apply Handle_frame.
Qed.

Lemma FanoutHandler_Handle_frame (w : World) (f : fanout.FanoutHandler Sink)
    (r : slog.Record) :
  let w' := fst (FanoutHandler.Handle w f r) in
  sameHandlers w w' /\ levelVars w' = levelVars w.
Proof.
  cbv zeta. unfold FanoutHandler.Handle.
  assert (Hstep : forall w1 (h : Sink) r',
            sameHandlers w w1 /\ levelVars w1 = levelVars w ->
            sameHandlers w (fst (Handler.Handle w1 h r')) /\
            levelVars (fst (Handler.Handle w1 h r')) = levelVars w).
  { intros w1 h r' [(Hc & Hf & Hs) Hl].
    destruct (Sink_Handle_frame w1 h r') as [(Hc' & Hf' & Hs') Hl'].
    repeat split; simpl in *; congruence. }
  pose proof (handleEach_keeps
    (fun w' => sameHandlers w w' /\ levelVars w' = levelVars w)
    (fanout.Handlers (fanout.options f)) r Hstep w []) as Hkeep.
  destruct (FanoutHandler.handleEach w _ r []) as [[w' errs] vs].
  apply Hkeep. by repeat split.
Qed.

Lemma run_frame (w : World) (i : nat) :
  let w' := SentinelOneHECHandler.run w i in
  sameHandlers w w' /\ levelVars w' = levelVars w.
Proof.
  cbv zeta. unfold SentinelOneHECHandler.run.
  destruct (goroutines w !! i) as [t|]; [|done].
  match goal with
  | |- context [SentinelOneHECHandler.send ?w1 ?h1 ?r1 ?p] =>
      destruct (send_spec w1 h1 r1 p) as (es & -> & _)
  end.
  done.
Qed.

(** ** Extension by the fan-out *)

Lemma withAttrsEach_frame (w : World) (handlers : list Sink) (attrs : list slog.Attr) :
  let '(w1, handlers') := FanoutHandler.withAttrsEach w handlers attrs in
  extends w w1 /\ Forall (newIn w) handlers' /\ length handlers' = length handlers.
Proof.
  revert w. induction handlers as [|handler rest IH]; intros w; simpl.
  - split; [apply extends_refl | done].
  - change (Handler.WithAttrs w handler attrs) with (Sink_WithAttrs w handler attrs).
    pose proof (Sink_WithAttrs_frame w handler attrs) as Hh.
    destruct (Sink_WithAttrs w handler attrs) as [w1 handler'].
    destruct Hh as (Hext & Hnew & _).
    specialize (IH w1).
    destruct (FanoutHandler.withAttrsEach w1 rest attrs) as [w2 rest'].
    destruct IH as (Hext' & Hnew' & Hlen).
    split; [by eapply extends_trans|]. split; [|simpl; by rewrite Hlen].
    constructor; [done|].
    eapply Forall_impl; [exact Hnew'|]. intros s. by apply newIn_extends.
Qed.

Lemma withGroupEach_frame (w : World) (handlers : list Sink) (name : string) :
  (String.length name =? 0)%nat = false ->
  let '(w1, handlers') := FanoutHandler.withGroupEach w handlers name in
  extends w w1 /\ Forall (newIn w) handlers' /\ length handlers' = length handlers.
Proof.
  intros Hname. revert w. induction handlers as [|handler rest IH]; intros w; simpl.
  - split; [apply extends_refl | done].
  - change (Handler.WithGroup w handler name) with (Sink_WithGroup w handler name).
    pose proof (Sink_WithGroup_frame w handler name) as Hh.
    destruct (Sink_WithGroup w handler name) as [w1 handler'].
    rewrite Hname in Hh. destruct Hh as ((Hext & Hnew) & _).
    specialize (IH w1).
    destruct (FanoutHandler.withGroupEach w1 rest name) as [w2 rest'].
    destruct IH as (Hext' & Hnew' & Hlen).
    split; [by eapply extends_trans|]. split; [|simpl; by rewrite Hlen].
    constructor; [done|].
    eapply Forall_impl; [exact Hnew'|]. intros s. by apply newIn_extends.
Qed.

End Handling.

(** ** Extension leaves the receiver as it is *)

Lemma eqb_empty (name : string) : String.eqb name "" = (String.length name =? 0)%nat.
Proof. by destruct name. Qed.

(** ** The level gate is shared *)

(** After [l] is set in the variable [GetLevelVar] returns, the handler is
    enabled from [l] on, or at [l] alone when it has a maximum. *)
Lemma Sink_Enabled_Set (w : World) (s : Sink) (l level : slog.Level) :
  match Sink_GetLevelVar w s with
  | Some v =>
      Sink_Enabled (LevelVar.Set_ w v l) s level =
        match Sink_GetMaxLevelVar w s with
        | None => (level >=? l)%Z
        | Some _ => (level >=? l)%Z && (level <=? l)%Z
        end
  | None => Sink_Enabled w s level = false
  end.
Proof.
  destruct s as [h|h|h| |]; simpl; try done.
  - unfold ConsoleHandler.Enabled, ConsoleHandler.GetLevelVar, ConsoleHandler.GetMaxLevelVar,
      LevelVar.Level, LevelVar.Set_.
    change (ConsoleHandler.deref (set_levelVars _ w) h) with (ConsoleHandler.deref w h).
    cbn [set_levelVars levelVars]. by rewrite lookup_total_insert_eq.
  - unfold FileHandler.Enabled, FileHandler.GetLevelVar, FileHandler.GetMaxLevelVar,
      LevelVar.Level, LevelVar.Set_.
    change (FileHandler.deref (set_levelVars _ w) h) with (FileHandler.deref w h).
    cbn [set_levelVars levelVars]. by rewrite lookup_total_insert_eq.
  - unfold SentinelOneHECHandler.Enabled, SentinelOneHECHandler.GetLevelVar,
      SentinelOneHECHandler.GetMaxLevelVar, LevelVar.Level, LevelVar.Set_.
    change (SentinelOneHECHandler.deref (set_levelVars _ w) h)
      with (SentinelOneHECHandler.deref w h).
    cbn [set_levelVars levelVars]. by rewrite lookup_total_insert_eq.
Qed.

(** C8. A handler returned by [WithAttrs] or [WithGroup] holds the level
    variables of the handler it was made from, the pointers being copied with
    the options.  So the two are enabled for the same levels in every store
    with these handler objects; in particular after a level is set in a
    variable, through either handler.  And a level set in the variable that
    [GetLevelVar] returns for the one is the minimum of the other from then
    on, no handler being rebuilt. *)
Theorem clone_shares_level_gate (w : World) (s : Sink) (attrs : list slog.Attr)
    (name : string) :
  let shared := fun '(w1, c) =>
    sharesGate w1 s c /\
    (forall (v : loc) (l level : slog.Level),
       Sink_Enabled (LevelVar.Set_ w1 v l) c level =
       Sink_Enabled (LevelVar.Set_ w1 v l) s level) /\
    (forall (l level : slog.Level),
       match Sink_GetLevelVar w1 s with
       | Some v =>
           Sink_Enabled (LevelVar.Set_ w1 v l) c level =
             match Sink_GetMaxLevelVar w1 s with
             | None => (level >=? l)%Z
             | Some _ => (level >=? l)%Z && (level <=? l)%Z
             end
       | None => Sink_Enabled w1 c level = false
       end) in
  shared (Sink_WithAttrs w s attrs) /\ shared (Sink_WithGroup w s name).
Proof.
  assert (Hshared : forall w1 c, sharesGate w1 s c ->
    sharesGate w1 s c /\
    (forall (v : loc) (l level : slog.Level),
       Sink_Enabled (LevelVar.Set_ w1 v l) c level =
       Sink_Enabled (LevelVar.Set_ w1 v l) s level) /\
    (forall (l level : slog.Level),
       match Sink_GetLevelVar w1 s with
       | Some v =>
           Sink_Enabled (LevelVar.Set_ w1 v l) c level =
             match Sink_GetMaxLevelVar w1 s with
             | None => (level >=? l)%Z
             | Some _ => (level >=? l)%Z && (level <=? l)%Z
             end
       | None => Sink_Enabled w1 c level = false
       end)).
  { intros w1 c Hshare. split; [done|].
    destruct Hshare as (Hv & Hm & He). split.
    - intros v l level. by apply He.
    - intros l level. pose proof (Sink_Enabled_Set w1 c l level) as Hset.
      by rewrite Hv, Hm in Hset. }
  cbv zeta. split.
  - pose proof (Sink_WithAttrs_frame w s attrs) as Hs.
    destruct (Sink_WithAttrs w s attrs) as [w1 c].
    apply Hshared. by destruct Hs as (_ & _ & ?).
  - pose proof (Sink_WithGroup_frame w s name) as Hs.
    destruct (Sink_WithGroup w s name) as [w1 c].
    apply Hshared. by destruct Hs as (_ & ?).
Qed.

(** * Scenarios, evaluated *)

(** A forwarder with a threshold of 100 bytes that sends synchronously holds
    80 bytes; a record of 40 bytes arrives.  The 80 bytes are cut and
    delivered, and the buffer holds the new record. *)
Lemma Handle_cuts_batch_iff_witness :
  let w := Scenario.world (Scenario.forwarder 100 true None None) (replicate 80 x78) in
  let r := Scenario.recordOf slog.LevelInfo 39 in
  let w' := fst (SentinelOneHECHandler.Handle (env := Scenario.accepting) w 0 r) in
  delivered (events w') = [replicate 80 x78] /\
  Buffer.Bytes w' 0 = replicate 39 x78 ++ [x0a].
Proof.
  cbv zeta.
  destruct (Handle_cuts_batch_iff (env := Scenario.accepting)
              (Scenario.world (Scenario.forwarder 100 true None None) (replicate 80 x78))
              0 (Scenario.recordOf slog.LevelInfo 39) (replicate 39 x78))
    as (Hd & _ & Hb & _); [reflexivity | reflexivity | reflexivity |].
  split; [exact Hd | exact Hb].
Defined.

(** The same forwarder sending asynchronously to a collector that refuses
    the batch: [Handle] returns nil and reports nothing; the error handler
    hears of the refusal when the goroutine runs. *)
Lemma Handle_cut_delivery_error_witness :
  let f := Scenario.forwarder 100 false None (Some Scenario.passOn) in
  let w := Scenario.world f (replicate 80 x78) in
  let r := Scenario.recordOf slog.LevelInfo 39 in
  let w' := fst (SentinelOneHECHandler.Handle (env := Scenario.refusing) w 0 r) in
  snd (SentinelOneHECHandler.Handle (env := Scenario.refusing) w 0 r) = None /\
  events w' = [] /\
  map fst (reported (events (SentinelOneHECHandler.run (env := Scenario.refusing) w' 0))) =
    [XError xlog.HTTPResponseError
       "log endpoint returned non-OK status: %s, body: %s" None].
Proof.
  cbv zeta.
  destruct (Handle_cut_delivery_error (env := Scenario.refusing)
              (Scenario.world (Scenario.forwarder 100 false None (Some Scenario.passOn))
                 (replicate 80 x78))
              0 (Scenario.recordOf slog.LevelInfo 39) (replicate 39 x78))
    as (Hret & Hev & _ & _ & _ & Hrep);
    [discriminate | right; reflexivity | reflexivity | reflexivity |].
  split; [exact Hret|]. split; [exact Hev|].
  exact (f_equal (map fst) Hrep).
Defined.

(** The scenario of three records of 40 bytes each under a threshold of 100
    bytes, sent synchronously: nothing is delivered after the second record;
    the third makes the forwarder deliver the first two as one batch, and is
    buffered alone. *)
Example three_records_of_40_bytes :
  let w0 := Scenario.world (Scenario.forwarder 100 true None None) [] in
  let r := Scenario.recordOf slog.LevelInfo 39 in
  let w1 := fst (SentinelOneHECHandler.Handle (env := Scenario.accepting) w0 0 r) in
  let w2 := fst (SentinelOneHECHandler.Handle (env := Scenario.accepting) w1 0 r) in
  let w3 := fst (SentinelOneHECHandler.Handle (env := Scenario.accepting) w2 0 r) in
  map length (delivered (events w2)) = [] /\
  length (Buffer.Bytes w2 0) = 80 /\
  map length (delivered (events w3)) = [80] /\
  length (Buffer.Bytes w3 0) = 40 /\
  map length (delivered (events (fst (SentinelOneHECHandler.Close
                                        (env := Scenario.accepting) w3 0)))) = [80; 40].
Proof. vm_compute. repeat split. Qed.

(** A record of 150 bytes under the same threshold is buffered whole, and
    delivered whole when the next record arrives. *)
Example record_past_the_threshold :
  let w0 := Scenario.world (Scenario.forwarder 100 true None None) [] in
  let big := Scenario.recordOf slog.LevelInfo 149 in
  let r := Scenario.recordOf slog.LevelInfo 39 in
  let '(w1, err1) := SentinelOneHECHandler.Handle (env := Scenario.accepting) w0 0 big in
  let w2 := fst (SentinelOneHECHandler.Handle (env := Scenario.accepting) w1 0 r) in
  err1 = None /\
  delivered (events w1) = [] /\
  length (Buffer.Bytes w1 0) = 150 /\
  map length (delivered (events w2)) = [150] /\
  length (Buffer.Bytes w2 0) = 40.
Proof. vm_compute. repeat split. Qed.

(** A fan-out over the discard handler and a file handler gated at info is
    enabled exactly as the file handler is. *)
Example fanout_discard_and_file :
  let w := Scenario.world (Scenario.forwarder 100 true None None) [] in
  let w := LevelVar.Set_ w 1 slog.LevelInfo in
  let f := fanout.NewFanoutHandler {| fanout.Handlers := [Discard; File 0] |} in
  FanoutHandler.Enabled (children := Sink_Handler (env := Scenario.accepting))
    w f slog.LevelDebug = false /\
  FanoutHandler.Enabled (children := Sink_Handler (env := Scenario.accepting))
    w f slog.LevelInfo = true.
Proof. vm_compute. split; reflexivity. Qed.

(** A fan-out over a child that panics, a child that is not enabled, a child
    that fails and a child that succeeds: all but the second are called, in
    that order, and the result joins the panic, turned into an error, and the
    failure. *)
Example fanout_over_a_panicking_child :
  let w := Scenario.world (Scenario.forwarder 100 true None None) [] in
  let r := Scenario.recordOf slog.LevelInfo 3 in
  let f := fanout.NewFanoutHandler {| fanout.Handlers := [
    {| Scenario.stub_level := slog.LevelDebug;
       Scenario.stub_outcome := Panics (PanicOther "boom") |};
    {| Scenario.stub_level := slog.LevelError;
       Scenario.stub_outcome := Returns None |};
    {| Scenario.stub_level := slog.LevelInfo;
       Scenario.stub_outcome := Returns (Some (ForeignError "disk full")) |};
    {| Scenario.stub_level := slog.LevelInfo;
       Scenario.stub_outcome := Returns None |} ] |} in
  snd (FanoutHandler.Handle w f r) =
    Some (JoinError [UnexpectedError "boom"; ForeignError "disk full"]) /\
  length (events (fst (FanoutHandler.Handle w f r))) = 3 /\
  map (fun v => match FanoutHandler.call v with Some _ => true | None => false end)
    (FanoutHandler.visits w f r) = [true; false; true; true].
Proof. vm_compute. repeat split. Qed.

(** A forwarder gated at info is extended with an attribute.  The clone is a
    new object with the attribute, the receiver is as it was, also after the
    clone handled a record; and debug set in the receiver's level variable
    enables both for debug. *)
Example clone_of_a_forwarder :
  let w := Scenario.world (Scenario.forwarder 100 true None None) [] in
  let a := slog.String "request" "42" in
  let '(w1, c) := SentinelOneHECHandler.WithAttrs w 0 [a] in
  let w2 := fst (SentinelOneHECHandler.Handle (env := Scenario.accepting) w1 c
                   (Scenario.recordOf slog.LevelInfo 39)) in
  let w3 := LevelVar.Set_ w2 (SentinelOneHECHandler.GetLevelVar w2 0) slog.LevelDebug in
  c = 1 /\
  sentinelone.attrs (SentinelOneHECHandler.deref w1 c) = [a] /\
  sentinelOneHandlers w2 !! 0 = sentinelOneHandlers w !! 0 /\
  SentinelOneHECHandler.Enabled w2 0 slog.LevelDebug = false /\
  SentinelOneHECHandler.Enabled w2 c slog.LevelDebug = false /\
  SentinelOneHECHandler.Enabled w3 0 slog.LevelDebug = true /\
  SentinelOneHECHandler.Enabled w3 c slog.LevelDebug = true.
Proof. vm_compute. repeat split. Qed.

(** * Further properties *)

(** ** The forwarder: what a call of Handle does to the buffer *)

Section ForwarderMore.
Context `{env : Env}.

(** One call of [Handle] on a record that formats, whatever the threshold:
    either the whole buffer is handed over and the record starts a new one,
    or nothing is handed over and the record is appended. *)
Lemma Handle_effect (w : World) (h : loc) (r : slog.Record) (out : bytes) :
  let v := SentinelOneHECHandler.deref w h in
  let st := sentinelone.state v in
  let sync := sentinelone.DisableAsync (sentinelone.options v) in
  let buffered := Buffer.Bytes w st in
  let recordBuf := out ++ [x0a] in
  let w' := fst (SentinelOneHECHandler.Handle w h r) in
  JSONHandler_Handle (SentinelOneHECHandler.replaceAttr v)
    (sentinelone.attrs v) (sentinelone.groups v)
    (SentinelOneHECHandler.eventRecord v r) = inr out ->
  exists cut : bool,
    (cut = true -> buffered <> []) /\
    SentinelOneHECHandler.deref w' h = v /\
    delivered (events w') =
      delivered (events w) ++ (if cut && sync then [buffered] else []) /\
    map task_payload (goroutines w') =
      map task_payload (goroutines w) ++ (if cut && negb sync then [buffered] else []) /\
    Buffer.Bytes w' st = (if cut then [] else buffered) ++ recordBuf /\
    (forall st', st' <> st -> Buffer.Bytes w' st' = Buffer.Bytes w st') /\
    (sync = false \/ cut = false -> snd (SentinelOneHECHandler.Handle w h r) = None).
Proof.
  cbv zeta. intros Hfmt.
  rewrite (Handle_formatted w h r out Hfmt).
  set (cut := (_ && _)).
  exists cut. split.
  { intros Hcut. subst cut. apply andb_true_iff in Hcut as [Hlen _].
    by apply len_pos_iff. }
  assert (Hother : forall (b : bytes) st',
            st' <> sentinelone.state (SentinelOneHECHandler.deref w h) ->
            Buffer.Bytes
              (set_buffers <[sentinelone.state (SentinelOneHECHandler.deref w h) := b]> w) st'
            = Buffer.Bytes w st').
  { intros b st' Hne. unfold Buffer.Bytes, set_buffers; cbn [buffers].
    by apply lookup_total_insert_ne. }
  destruct cut; [destruct (sentinelone.DisableAsync _)|]; cbn [andb negb].
  - match goal with
    | |- context [SentinelOneHECHandler.send ?w1 h ?r1 ?p] =>
        destruct (send_spec w1 h r1 p) as (es & -> & Hd & _)
    end.
    split; [reflexivity|]. split; [|split; [|split; [|split]]].
    + cbn [emits events set_buffers]. by rewrite delivered_app, Hd.
    + by rewrite app_nil_r.
    + apply Bytes_set_buffers.
    + intros st' Hne. by apply (Hother _ st').
    + intros [?|?]; discriminate.
  - cbn [fst snd]. split; [reflexivity|]. split; [|split; [|split; [|split]]].
    + by rewrite app_nil_r.
    + cbn [set_goroutines goroutines]. by rewrite map_app.
    + apply Bytes_set_buffers.
    + intros st' Hne. by apply (Hother _ st').
    + done.
  - cbn [fst snd]. split; [reflexivity|]. split; [|split; [|split; [|split]]].
    + by rewrite app_nil_r.
    + by rewrite app_nil_r.
    + apply Bytes_set_buffers.
    + intros st' Hne. by apply (Hother _ st').
    + done.
Qed.

(** After [Close] the buffer of the handler is empty. *)
Lemma Close_empties (w : World) (h : loc) :
  let w1 := fst (SentinelOneHECHandler.Close w h) in
  Buffer.Bytes w1 (sentinelone.state (SentinelOneHECHandler.deref w1 h)) = [].
Proof.
  cbv zeta.
  destruct (Buffer.Bytes w (sentinelone.state (SentinelOneHECHandler.deref w h)))
    as [|b rest] eqn:Hbuf.
  - rewrite Close_empty by done. done.
  - rewrite Close_nonempty by (rewrite Hbuf; discriminate).
    cbn [fst].
    match goal with
    | |- context [SentinelOneHECHandler.send ?w1 h ?r1 ?p] =>
        destruct (send_spec w1 h r1 p) as (es & -> & _)
    end.
    unfold Buffer.Bytes, Buffer.Reset, emits, set_buffers, SentinelOneHECHandler.deref.
    cbn [buffers sentinelOneHandlers]. by rewrite lookup_total_insert_eq.
Qed.

(** [Close] changes no handler object. *)
Lemma Close_deref (w : World) (h p : loc) :
  SentinelOneHECHandler.deref (fst (SentinelOneHECHandler.Close w h)) p =
  SentinelOneHECHandler.deref w p.
Proof.
  destruct (Buffer.Bytes w (sentinelone.state (SentinelOneHECHandler.deref w h)))
    as [|b rest] eqn:Hbuf.
  - by rewrite Close_empty.
  - rewrite Close_nonempty by (rewrite Hbuf; discriminate). cbn [fst].
    match goal with
    | |- context [SentinelOneHECHandler.send ?w1 h ?r1 ?q] =>
        destruct (send_spec w1 h r1 q) as (es & -> & _)
    end.
    reflexivity.
Qed.

(** X1. Closing twice delivers once.  After [Close] the buffer is empty, so
    a second [Close] on the same handler returns nil and leaves the store as
    the first one left it: no second delivery attempt, no event. *)
Theorem Close_twice (w : World) (h : loc) :
  let w1 := fst (SentinelOneHECHandler.Close w h) in
  Buffer.Bytes w1 (sentinelone.state (SentinelOneHECHandler.deref w1 h)) = [] /\
  SentinelOneHECHandler.Close w1 h = (w1, None).
Proof.
  cbv zeta. split; [apply Close_empties|]. apply Close_empty, Close_empties.
Qed.

(** X2. Nothing is lost, duplicated or reordered between [Handle] and
    delivery.  For every threshold and every sequence of records that format,
    the payloads handed to delivery so far followed by the buffer are, byte
    for byte, the payloads handed over before, the buffer as it was, and the
    formatted records in the order of the calls.  When the forwarder sends
    synchronously, a final [Close] leaves all of it delivered. *)
Theorem handleAll_conserves (h : loc) (rs : list slog.Record) (outs : list bytes)
    (v : sentinelone.SentinelOneHECHandler) (w : World) :
  let st := sentinelone.state v in
  let sync := sentinelone.DisableAsync (sentinelone.options v) in
  let recs := map (fun out => out ++ [x0a]) outs in
  let w' := handleAll w h rs in
  let w'' := fst (SentinelOneHECHandler.Close w' h) in
  Forall2 (formatsTo v) rs outs ->
  SentinelOneHECHandler.deref w h = v ->
  concat (handedOver sync w') ++ Buffer.Bytes w' st =
    concat (handedOver sync w) ++ Buffer.Bytes w st ++ concat recs /\
  handedOver (negb sync) w' = handedOver (negb sync) w /\
  (sync = true ->
   concat (delivered (events w'')) =
     concat (delivered (events w)) ++ Buffer.Bytes w st ++ concat recs).
Proof.
  cbv zeta. intros Hfmt. revert w.
  assert (Hall : forall w, SentinelOneHECHandler.deref w h = v ->
    SentinelOneHECHandler.deref (handleAll w h rs) h = v /\
    concat (handedOver (sentinelone.DisableAsync (sentinelone.options v)) (handleAll w h rs))
      ++ Buffer.Bytes (handleAll w h rs) (sentinelone.state v) =
    concat (handedOver (sentinelone.DisableAsync (sentinelone.options v)) w)
      ++ Buffer.Bytes w (sentinelone.state v)
      ++ concat (map (fun out => out ++ [x0a]) outs) /\
    handedOver (negb (sentinelone.DisableAsync (sentinelone.options v))) (handleAll w h rs) =
    handedOver (negb (sentinelone.DisableAsync (sentinelone.options v))) w).
  { induction Hfmt as [|r out rs outs Hr Hrs IH]; intros w Hv.
    - simpl. by rewrite app_nil_r.
    - subst v. destruct (Handle_effect w h r out Hr)
        as (cut & _ & Hv1 & Hd & Hg & Hb & _).
      simpl. destruct (IH _ Hv1) as (IHv & IHc & IHo).
      split; [exact IHv|]. rewrite IHc, IHo, Hb.
      unfold handedOver.
      destruct (sentinelone.DisableAsync _); cbn [negb]; rewrite ?Hd, ?Hg;
        destruct cut; cbn [andb negb]; rewrite ?app_nil_r, ?concat_app; simpl;
        rewrite ?app_nil_r, <- ?app_assoc; done. }
  intros w Hv. destruct (Hall w Hv) as (Hv' & Hc & Ho).
  split; [exact Hc|]. split; [exact Ho|].
  intros Hsync. rewrite Hsync in Hc. unfold handedOver in Hc.
  rewrite Close_delivered, Hv', concat_app, <- Hc. f_equal.
  destruct (Buffer.Bytes _ _); simpl; by rewrite ?app_nil_r.
Qed.

(** One call under a threshold of zero. *)
Lemma Handle_unbuffered (w : World) (h : loc) (r : slog.Record) (out : bytes) :
  let v := SentinelOneHECHandler.deref w h in
  let st := sentinelone.state v in
  let sync := sentinelone.DisableAsync (sentinelone.options v) in
  let w' := fst (SentinelOneHECHandler.Handle w h r) in
  sentinelone.BufferSize (sentinelone.options v) = 0%Z ->
  formatsTo v r out ->
  SentinelOneHECHandler.deref w' h = v /\
  handedOver sync w' = handedOver sync w ++ pending (Buffer.Bytes w st) /\
  handedOver (negb sync) w' = handedOver (negb sync) w /\
  Buffer.Bytes w' st = out ++ [x0a].
Proof.
  cbv zeta. intros HT Hr.
  destruct (Handle_effect w h r out Hr) as (cut & _ & Hv1 & _).
  split; [exact Hv1|]. clear cut Hv1.
  rewrite (Handle_formatted w h r out Hr).
  rewrite HT, Z.eqb_refl, orb_true_l, andb_true_r. unfold Buffer.Len.
  destruct (Buffer.Bytes w (sentinelone.state (SentinelOneHECHandler.deref w h)))
    as [|b rest] eqn:Hbuf.
  - change (len [] >? 0)%Z with false. cbv iota. cbn [fst pending].
    rewrite Bytes_set_buffers, !app_nil_r. unfold handedOver.
    by destruct (sentinelone.DisableAsync _), (negb _).
  - assert (Hpos : (len (b :: rest) >? 0)%Z = true) by (by apply len_pos_iff).
    rewrite Hpos. cbv iota. cbn [pending]. unfold handedOver.
    destruct (sentinelone.DisableAsync _); cbn [negb].
    + match goal with
      | |- context [SentinelOneHECHandler.send ?w1 h ?r1 ?p] =>
          destruct (send_spec w1 h r1 p) as (es & -> & Hd & _)
      end.
      cbn [emits events goroutines set_buffers].
      rewrite delivered_app, Hd. split; [done|]. split; [done|].
      apply Bytes_set_buffers.
    + cbn [fst events goroutines set_goroutines set_buffers].
      rewrite map_app. split; [done|]. split; [done|].
      apply Bytes_set_buffers.
Qed.

(** X3. A threshold of zero means no batching, and a delay of one record.
    With [BufferSize] zero every call of [Handle] hands over what the buffer
    holds and keeps only its own record: after any sequence of calls the
    payloads handed over are the former buffer and the records but the last,
    each alone, and the buffer is the last record. *)
Theorem handleAll_unbuffered (h : loc) (rs : list slog.Record) (outs : list bytes)
    (v : sentinelone.SentinelOneHECHandler) (w : World) :
  let st := sentinelone.state v in
  let sync := sentinelone.DisableAsync (sentinelone.options v) in
  let payloads := pending (Buffer.Bytes w st) ++ map (fun out => out ++ [x0a]) outs in
  let w' := handleAll w h rs in
  sentinelone.BufferSize (sentinelone.options v) = 0%Z ->
  Forall2 (formatsTo v) rs outs ->
  SentinelOneHECHandler.deref w h = v ->
  handedOver sync w' = handedOver sync w ++ removelast payloads /\
  handedOver (negb sync) w' = handedOver (negb sync) w /\
  Buffer.Bytes w' st = List.last payloads [].
Proof.
  cbv zeta. intros HT Hfmt. revert w.
  induction Hfmt as [|r out rs outs Hr Hrs IH]; intros w Hv.
  - simpl. rewrite app_nil_r.
    destruct (Buffer.Bytes w _); simpl; by rewrite app_nil_r.
  - subst v. simpl.
    destruct (Handle_unbuffered w h r out HT Hr) as (Hv1 & Hs & Ho & Hb).
    destruct (IH _ Hv1) as (IHs & IHo & IHb).
    rewrite Hb in IHs, IHb.
    assert (Hp : pending (out ++ [x0a]) = [out ++ [x0a]]) by (by destruct out).
    rewrite Hp in IHs, IHb.
    set (recs := map (fun out => out ++ [x0a]) outs) in *.
    split; [|split].
    + rewrite IHs, Hs, <- app_assoc. f_equal.
      destruct (Buffer.Bytes w _); simpl; by destruct recs.
    + by rewrite IHo, Ho.
    + rewrite IHb. destruct (Buffer.Bytes w _); simpl; by destruct recs.
Qed.

(** X4. What an error from [Handle] is about.  When the record does not
    format, nothing is buffered, handed over or started, and [Handle] returns
    what the error handler makes of the formatting error.  When it formats,
    the record is at the end of the buffer after the call whatever [Handle]
    returns; a forwarder that sends asynchronously returns nil, and an error
    from one that sends synchronously means that the batch cut by this call,
    the whole former buffer, was refused. *)
Theorem Handle_error_is_about_the_batch (w : World) (h : loc) (r : slog.Record) :
  let v := SentinelOneHECHandler.deref w h in
  let st := sentinelone.state v in
  let record := SentinelOneHECHandler.eventRecord v r in
  let w' := fst (SentinelOneHECHandler.Handle w h r) in
  let ret := snd (SentinelOneHECHandler.Handle w h r) in
  match JSONHandler_Handle (SentinelOneHECHandler.replaceAttr v)
          (sentinelone.attrs v) (sentinelone.groups v) record with
  | inl err =>
      buffers w' = buffers w /\ goroutines w' = goroutines w /\
      delivered (events w') = delivered (events w) /\
      ret = surfaced v (Some record)
              (Some (Errorf
                 "failed to format log record to send to SentinelOne HTTP event collector: %w"
                 err))
  | inr out =>
      (exists kept, Buffer.Bytes w' st = kept ++ out ++ [x0a]) /\
      (sentinelone.DisableAsync (sentinelone.options v) = false -> ret = None) /\
      (ret <> None ->
       Buffer.Bytes w st <> [] /\
       delivered (events w') = delivered (events w) ++ [Buffer.Bytes w st])
  end.
Proof.
  cbv zeta.
  destruct (JSONHandler_Handle _ _ _ _) as [err|out] eqn:Hfmt.
  - unfold SentinelOneHECHandler.Handle. rewrite Hfmt.
    unfold SentinelOneHECHandler.handleError, surfaced.
    destruct (sentinelone.ErrorHandler _); cbn [fst snd]; [|done].
    repeat split. unfold emit; cbn [events]. unfold delivered.
    rewrite omap_app. simpl. by rewrite app_nil_r.
  - destruct (Handle_effect w h r out Hfmt) as (cut & Hcut & _ & Hd & _ & Hb & _ & Hret).
    split; [by eexists|]. split; [intros Hs; apply Hret; by left|].
    intros Herr. destruct cut.
    + destruct (sentinelone.DisableAsync _).
      * split; [by apply Hcut | exact Hd].
      * exfalso. apply Herr, Hret. by left.
    + exfalso. apply Herr, Hret. by right.
Qed.

Lemma posted_app (es es' : list Event) : posted (es ++ es') = posted es ++ posted es'.
Proof. apply omap_app. Qed.

(** The events of one call of [send]: one delivery attempt, and the request
    for it unless the payload did not compress or no request was created. *)
Lemma send_events (w : World) (h : loc) (r : option slog.Record) (payload : bytes) :
  exists es,
    fst (SentinelOneHECHandler.send w h r payload) = emits es w /\
    delivered es = [payload] /\
    posted es = option_list (requestFor (SentinelOneHECHandler.deref w h) payload).
Proof.
  unfold SentinelOneHECHandler.send, requestFor, SentinelOneHECHandler.handleError.
  rewrite !deref_emit.
  set (v := SentinelOneHECHandler.deref w h).
  destruct (gzip_Write payload) as [e1|];
    [|destruct (gzip_Close payload) as [e2|];
      [|destruct (http_NewRequest _ _ _) as [e3|];
        [|destruct (client_Do _ _) as [e4|resp];
          [|destruct (StatusCode resp >=? 400)%Z]]]];
    destruct (sentinelone.ErrorHandler (sentinelone.options v)) as [f|];
    rewrite ?emit_emits, ?emits_emits; simpl;
    eexists; (split; [reflexivity|]); split; reflexivity.
Qed.

(** X5. No retry, and no request without its delivery attempt.  A call of
    [Handle], of [Close] or the run of a goroutine makes at most one delivery
    attempt, and the requests it hands to the HTTP client are the request of
    that attempt, once, when the payload compressed and the request could be
    created, and none otherwise, whatever the collector answered. *)
Theorem one_request_per_delivery (w : World) (h : loc) (r : slog.Record) (i : nat) :
  let attempt (v : sentinelone.SentinelOneHECHandler) (w w' : World) :=
    exists es, events w' = events w ++ es /\
               (length (delivered es) <= 1)%nat /\
               posted es = omap (requestFor v) (delivered es) in
  attempt (SentinelOneHECHandler.deref w h) w (fst (SentinelOneHECHandler.Handle w h r)) /\
  attempt (SentinelOneHECHandler.deref w h) w (fst (SentinelOneHECHandler.Close w h)) /\
  match goroutines w !! i with
  | Some t =>
      attempt (SentinelOneHECHandler.deref w (task_handler t)) w (SentinelOneHECHandler.run w i)
  | None => SentinelOneHECHandler.run w i = w
  end.
Proof.
  cbv zeta.
  assert (Hsend : forall w0 h0 p es,
            delivered es = [p] ->
            posted es = option_list (requestFor (SentinelOneHECHandler.deref w0 h0) p) ->
            (length (delivered es) <= 1)%nat /\
            posted es = omap (requestFor (SentinelOneHECHandler.deref w0 h0)) (delivered es)).
  { intros w0 h0 p es Hd Hp. rewrite Hd, Hp. split; [simpl; lia|].
    simpl. by destruct (requestFor _ p). }
  split; [|split].
  - destruct (JSONHandler_Handle
                (SentinelOneHECHandler.replaceAttr (SentinelOneHECHandler.deref w h))
                (sentinelone.attrs (SentinelOneHECHandler.deref w h))
                (sentinelone.groups (SentinelOneHECHandler.deref w h))
                (SentinelOneHECHandler.eventRecord (SentinelOneHECHandler.deref w h) r))
      as [err|out] eqn:Hfmt.
    + unfold SentinelOneHECHandler.Handle. rewrite Hfmt.
      unfold SentinelOneHECHandler.handleError.
      destruct (sentinelone.ErrorHandler _); cbn [fst].
      * eexists. split; [reflexivity|]. simpl. split; [lia | reflexivity].
      * exists []. rewrite app_nil_r. simpl. split; [reflexivity|]. split; [lia | reflexivity].
    + rewrite (Handle_formatted w h r out Hfmt).
      destruct (_ && _); [destruct (sentinelone.DisableAsync _)|]; cbn [fst].
      * match goal with
        | |- context [SentinelOneHECHandler.send ?w1 h ?r1 ?p] =>
            destruct (send_events w1 h r1 p) as (es & -> & Hd & Hp)
        end.
        exists es. split; [reflexivity|]. exact (Hsend w h _ es Hd Hp).
      * exists []. rewrite app_nil_r. simpl. split; [reflexivity|]. split; [lia | reflexivity].
      * exists []. rewrite app_nil_r. simpl. split; [reflexivity|]. split; [lia | reflexivity].
  - destruct (Buffer.Bytes w (sentinelone.state (SentinelOneHECHandler.deref w h)))
      as [|b rest] eqn:Hbuf.
    + rewrite Close_empty by done.
      exists []. rewrite app_nil_r. simpl. split; [reflexivity|]. split; [lia | reflexivity].
    + rewrite Close_nonempty by (rewrite Hbuf; discriminate). cbn [fst].
      match goal with
      | |- context [SentinelOneHECHandler.send ?w1 h ?r1 ?p] =>
          destruct (send_events w1 h r1 p) as (es & -> & Hd & Hp)
      end.
      exists es. split; [reflexivity|]. exact (Hsend w h _ es Hd Hp).
  - unfold SentinelOneHECHandler.run.
    destruct (goroutines w !! i) as [t|]; [|reflexivity].
    match goal with
    | |- context [SentinelOneHECHandler.send ?w1 ?h1 ?r1 ?p] =>
        destruct (send_events w1 h1 r1 p) as (es & -> & Hd & Hp)
    end.
    exists es. split; [reflexivity|]. exact (Hsend w (task_handler t) _ es Hd Hp).
Qed.

(** The handler object that [WithAttrs] returns. *)
Lemma WithAttrs_deref (w : World) (h : loc) (more : list slog.Attr) :
  let v := SentinelOneHECHandler.deref w h in
  SentinelOneHECHandler.deref (fst (SentinelOneHECHandler.WithAttrs w h more))
    (snd (SentinelOneHECHandler.WithAttrs w h more)) =
  {| sentinelone.attrs := sentinelone.attrs v ++ more;
     sentinelone.authToken := sentinelone.authToken v;
     sentinelone.client := sentinelone.client v;
     sentinelone.groups := sentinelone.groups v;
     sentinelone.ingestionURL := sentinelone.ingestionURL v;
     sentinelone.options := sentinelone.options v;
     sentinelone.state := sentinelone.state v |}.
Proof.
  cbv zeta.
  pose proof (SentinelOneHECHandler_WithAttrs_spec w h more) as HA.
  destruct (SentinelOneHECHandler.WithAttrs w h more) as [w1 c1]. cbv zeta in HA.
  destruct HA as (_ & ->). cbn [fst snd].
  unfold SentinelOneHECHandler.deref at 1, set_sentinelOneHandlers.
  cbn [sentinelOneHandlers]. by rewrite lookup_total_insert_eq.
Qed.

(** The handler object that [WithGroup] returns. *)
Lemma WithGroup_deref (w : World) (h : loc) (name : string) :
  let v := SentinelOneHECHandler.deref w h in
  SentinelOneHECHandler.deref (fst (SentinelOneHECHandler.WithGroup w h name))
    (snd (SentinelOneHECHandler.WithGroup w h name)) =
  {| sentinelone.attrs := sentinelone.attrs v;
     sentinelone.authToken := sentinelone.authToken v;
     sentinelone.client := sentinelone.client v;
     sentinelone.groups :=
       sentinelone.groups v ++ (if (String.length name =? 0)%nat then [] else [name]);
     sentinelone.ingestionURL := sentinelone.ingestionURL v;
     sentinelone.options := sentinelone.options v;
     sentinelone.state := sentinelone.state v |}.
Proof.
  cbv zeta.
  pose proof (SentinelOneHECHandler_WithGroup_spec w h name) as HG.
  destruct (SentinelOneHECHandler.WithGroup w h name) as [w1 c1]. cbv zeta in HG.
  cbn [fst snd]. destruct (String.length name =? 0)%nat.
  - destruct HG as [-> ->]. rewrite app_nil_r.
    by destruct (SentinelOneHECHandler.deref w h).
  - destruct HG as (_ & ->).
    unfold SentinelOneHECHandler.deref at 1, set_sentinelOneHandlers.
    cbn [sentinelOneHandlers]. by rewrite lookup_total_insert_eq.
Qed.

(** X6. The forwarder keeps one list of attributes and one list of groups:
    adding attributes and then opening a group gives a handler equal, field
    by field, to the one obtained by opening the group first.  Attributes
    added after [WithGroup] are therefore not kept as members of the group,
    and both handlers print every record alike. *)
Theorem WithAttrs_WithGroup_commute (w : World) (h : loc) (more : list slog.Attr)
    (name : string) :
  let w1 := fst (SentinelOneHECHandler.WithAttrs w h more) in
  let c1 := snd (SentinelOneHECHandler.WithAttrs w h more) in
  let w2 := fst (SentinelOneHECHandler.WithGroup w1 c1 name) in
  let c2 := snd (SentinelOneHECHandler.WithGroup w1 c1 name) in
  let u1 := fst (SentinelOneHECHandler.WithGroup w h name) in
  let d1 := snd (SentinelOneHECHandler.WithGroup w h name) in
  let u2 := fst (SentinelOneHECHandler.WithAttrs u1 d1 more) in
  let d2 := snd (SentinelOneHECHandler.WithAttrs u1 d1 more) in
  let v := SentinelOneHECHandler.deref w h in
  SentinelOneHECHandler.deref w2 c2 = SentinelOneHECHandler.deref u2 d2 /\
  sentinelone.attrs (SentinelOneHECHandler.deref w2 c2) = sentinelone.attrs v ++ more /\
  sentinelone.groups (SentinelOneHECHandler.deref w2 c2) =
    sentinelone.groups v ++ (if String.eqb name "" then [] else [name]) /\
  forall (r : slog.Record) (out : bytes),
    formatsTo (SentinelOneHECHandler.deref w2 c2) r out <->
    formatsTo (SentinelOneHECHandler.deref u2 d2) r out.
Proof.
  cbv zeta.
  rewrite ?WithGroup_deref, ?WithAttrs_deref, ?WithGroup_deref, ?WithAttrs_deref.
  rewrite eqb_empty. cbn. done.
Qed.

(** X7. A handler derived with [WithAttrs] or [WithGroup] writes to the
    buffer of the handler it was derived from: a record handled by the
    derived handler is delivered, at the end of the payload, when the original
    is closed, and the buffer is empty for both afterwards. *)
Theorem derived_handler_shares_buffer (w : World) (h : loc) (more : list slog.Attr)
    (name : string) (byGroup : bool) (r : slog.Record) (out : bytes) :
  let derived :=
    if byGroup then SentinelOneHECHandler.WithGroup w h name
    else SentinelOneHECHandler.WithAttrs w h more in
  let w1 := fst derived in
  let c := snd derived in
  let w2 := fst (SentinelOneHECHandler.Handle w1 c r) in
  let w3 := fst (SentinelOneHECHandler.Close w2 h) in
  formatsTo (SentinelOneHECHandler.deref w1 c) r out ->
  sentinelone.state (SentinelOneHECHandler.deref w1 c) =
    sentinelone.state (SentinelOneHECHandler.deref w1 h) /\
  (exists kept, delivered (events w3) = delivered (events w2) ++ [kept ++ out ++ [x0a]]) /\
  Buffer.Bytes w3 (sentinelone.state (SentinelOneHECHandler.deref w3 c)) = [].
Proof.
  cbv zeta.
  set (derived := if byGroup then _ else _).
  assert (Hst : sentinelone.state (SentinelOneHECHandler.deref (fst derived) (snd derived)) =
                sentinelone.state (SentinelOneHECHandler.deref (fst derived) h)).
  { subst derived. destruct byGroup.
    - pose proof (SentinelOneHECHandler_WithGroup_spec w h name) as HG.
      destruct (SentinelOneHECHandler.WithGroup w h name) as [w1 c]. cbv zeta in HG.
      cbn [fst snd]. destruct (String.length name =? 0)%nat.
      + by destruct HG as [-> ->].
      + destruct HG as (_ & ->).
        unfold SentinelOneHECHandler.deref, set_sentinelOneHandlers.
        cbn [sentinelOneHandlers]. rewrite lookup_total_insert_eq. cbn.
        destruct (decide (c = h)) as [->|E].
        * by rewrite lookup_total_insert_eq.
        * by rewrite lookup_total_insert_ne.
    - pose proof (SentinelOneHECHandler_WithAttrs_spec w h more) as HA.
      destruct (SentinelOneHECHandler.WithAttrs w h more) as [w1 c]. cbv zeta in HA.
      cbn [fst snd]. destruct HA as (_ & ->).
      unfold SentinelOneHECHandler.deref, set_sentinelOneHandlers.
      cbn [sentinelOneHandlers]. rewrite lookup_total_insert_eq. cbn.
      destruct (decide (c = h)) as [->|E].
      * by rewrite lookup_total_insert_eq.
      * by rewrite lookup_total_insert_ne. }
  generalize dependent derived. intros [w1 c]. cbn [fst snd]. intros Hst Hfmt.
  split; [exact Hst|].
  destruct (Handle_effect w1 c r out Hfmt) as (cut & _ & _ & _ & _ & Hb & _).
  destruct (Handle_frame w1 c r) as ((_ & _ & Hsame) & _).
  set (w2 := fst (SentinelOneHECHandler.Handle w1 c r)) in *.
  assert (Hderef : forall p, SentinelOneHECHandler.deref w2 p = SentinelOneHECHandler.deref w1 p).
  { intros p. unfold SentinelOneHECHandler.deref. by rewrite Hsame. }
  rewrite Hst, <- (Hderef h) in Hb.
  assert (Hne : Buffer.Bytes w2 (sentinelone.state (SentinelOneHECHandler.deref w2 h)) <> []).
  { rewrite Hb. destruct (if cut then _ else _), out; discriminate. }
  split.
  - eexists. rewrite Close_delivered.
    destruct (Buffer.Bytes w2 _) as [|b rest] eqn:E; [done|].
    rewrite Hb. reflexivity.
  - pose proof (Close_empties w2 h) as Hempty. cbv zeta in Hempty.
    rewrite Close_deref in Hempty |- *. by rewrite Hderef, Hst, <- (Hderef h).
Qed.

End ForwarderMore.

(** ** The constructor of the forwarder *)

Section ConstructorProperties.
Context `{env : Env} `{pkg : Package} `{proc : Process}.

(** The store and the handler that the constructor returns when it
    succeeds. *)
Lemma NewSentinelOneHECHandler_inr (w w' : World) (o : options.SentinelOneHECHandlerOptions)
    (h : loc) :
  NewSentinelOneHECHandler w o = (w', inr h) ->
  let buf := fresh (dom (buffers w)) in
  let level := default (fresh (dom (levelVars w))) (options.Level o) in
  exists v : sentinelone.SentinelOneHECHandler,
    h = fresh (dom (sentinelOneHandlers w)) /\
    w' = set_sentinelOneHandlers <[h := v]>
           (set_levelVars
              (match options.Level o with
               | Some _ => fun m => m
               | None => <[level := DefaultConsoleHandlerLogLevel]>
               end)
              (set_buffers <[buf := []]> w)) /\
    sentinelone.state v = buf /\
    sentinelone.attrs v = [] /\ sentinelone.groups v = [] /\
    sentinelone.authToken v = ("Bearer " ++ options.APIToken o)%string /\
    sentinelone.ingestionURL v =
      ("https://" ++ options.IngestHostname o ++ "/services/collector/event")%string /\
    sentinelone.Level (sentinelone.options v) = level /\
    sentinelone.MaxLevel (sentinelone.options v) = options.MaxLevel o /\
    sentinelone.Scope (sentinelone.options v) = options.Scope o /\
    sentinelone.BufferSize (sentinelone.options v) = options.BufferSize o /\
    sentinelone.DisableAsync (sentinelone.options v) = options.DisableAsync o /\
    sentinelone.ErrorHandler (sentinelone.options v) = options.ErrorHandler o.
Proof.
  unfold NewSentinelOneHECHandler.
  destruct (String.length (options.APIToken o) =? 0)%nat; [discriminate|].
  destruct (String.eqb (options.IngestHostname o) EmptyString); [discriminate|].
  destruct (String.eqb (options.Scope o) EmptyString); [discriminate|].
  unfold SentinelOneHECHandler.new.
  destruct (options.Level o) as [l|]; cbn [default]; intros [= <- <-];
    eexists; (split; [reflexivity|]); (split; [reflexivity|]); cbn; repeat split.
Qed.

(** X8. The constructor refuses options without a token, without the host
    name of the collector or without a scope, with an options-validation
    error and before anything is allocated in the store; it accepts all
    others, whatever else is left empty. *)
Theorem NewSentinelOneHECHandler_required (w : World)
    (o : options.SentinelOneHECHandlerOptions) :
  match snd (NewSentinelOneHECHandler w o) with
  | inl e =>
      fst (NewSentinelOneHECHandler w o) = w /\
      (options.APIToken o = EmptyString \/ options.IngestHostname o = EmptyString \/
       options.Scope o = EmptyString) /\
      exists msg, e = XError codes.OptionsValidationError msg None
  | inr h =>
      options.APIToken o <> EmptyString /\ options.IngestHostname o <> EmptyString /\
      options.Scope o <> EmptyString
  end.
Proof.
  unfold NewSentinelOneHECHandler.
  destruct (options.APIToken o) as [|c token] eqn:Ht; cbn [String.length Nat.eqb fst snd].
  { split; [done|]. split; [by left|]. by eexists. }
  destruct (String.eqb_spec (options.IngestHostname o) EmptyString) as [Eh|Eh];
    cbn [fst snd].
  { split; [done|]. split; [by right; left|]. by eexists. }
  destruct (String.eqb_spec (options.Scope o) EmptyString) as [Es|Es]; cbn [fst snd].
  { split; [done|]. split; [by right; right|]. by eexists. }
  destruct (options.Level o); cbn [fst snd]; done.
Qed.

(** The buffers that [Handle] and [Close] leave alone. *)
Lemma Handle_other_buffers (w : World) (h : loc) (r : slog.Record) (st' : loc) :
  st' <> sentinelone.state (SentinelOneHECHandler.deref w h) ->
  Buffer.Bytes (fst (SentinelOneHECHandler.Handle w h r)) st' = Buffer.Bytes w st'.
Proof.
  intros Hne.
  destruct (JSONHandler_Handle
              (SentinelOneHECHandler.replaceAttr (SentinelOneHECHandler.deref w h))
              (sentinelone.attrs (SentinelOneHECHandler.deref w h))
              (sentinelone.groups (SentinelOneHECHandler.deref w h))
              (SentinelOneHECHandler.eventRecord (SentinelOneHECHandler.deref w h) r))
    as [err|out] eqn:Hfmt.
  - unfold SentinelOneHECHandler.Handle. rewrite Hfmt.
    unfold SentinelOneHECHandler.handleError.
    by destruct (sentinelone.ErrorHandler _).
  - destruct (Handle_effect w h r out Hfmt) as (cut & _ & _ & _ & _ & _ & Hother & _).
    by apply Hother.
Qed.

Lemma Close_other_buffers (w : World) (h : loc) (st' : loc) :
  st' <> sentinelone.state (SentinelOneHECHandler.deref w h) ->
  Buffer.Bytes (fst (SentinelOneHECHandler.Close w h)) st' = Buffer.Bytes w st'.
Proof.
  intros Hne.
  destruct (Buffer.Bytes w (sentinelone.state (SentinelOneHECHandler.deref w h)))
    as [|b rest] eqn:Hbuf.
  - by rewrite Close_empty.
  - rewrite Close_nonempty by (rewrite Hbuf; discriminate). cbn [fst].
    match goal with
    | |- context [SentinelOneHECHandler.send ?w1 h ?r1 ?q] =>
        destruct (send_spec w1 h r1 q) as (es & -> & _)
    end.
    unfold Buffer.Bytes, Buffer.Reset, emits, set_buffers. cbn [buffers].
    by apply lookup_total_insert_ne.
Qed.

(** The handler object and the buffer of a handler just built. *)
Lemma NewSentinelOneHECHandler_deref (w w' : World) (o : options.SentinelOneHECHandlerOptions)
    (h : loc) :
  NewSentinelOneHECHandler w o = (w', inr h) ->
  sentinelOneHandlers w !! h = None /\
  sentinelone.state (SentinelOneHECHandler.deref w' h) = fresh (dom (buffers w)) /\
  Buffer.Bytes w' (fresh (dom (buffers w))) = [] /\
  buffers w' = <[fresh (dom (buffers w)) := []]> (buffers w) /\
  (forall p, p <> h -> SentinelOneHECHandler.deref w' p = SentinelOneHECHandler.deref w p).
Proof.
  intros Hnew. destruct (NewSentinelOneHECHandler_inr w w' o h Hnew)
    as (v & Hh & Hw' & Hst & _).
  split; [rewrite Hh; apply fresh_None|].
  subst w'. unfold SentinelOneHECHandler.deref, Buffer.Bytes, set_sentinelOneHandlers,
    set_levelVars, set_buffers. cbn [sentinelOneHandlers buffers].
  rewrite !lookup_total_insert_eq. split; [exact Hst|]. split; [done|]. split; [done|].
  intros p Hp. by rewrite lookup_total_insert_ne.
Qed.

(** A record that formats, handled while the buffer is empty, is buffered
    and nothing else happens. *)
Lemma Handle_on_empty (w : World) (h : loc) (r : slog.Record) (out : bytes) :
  let v := SentinelOneHECHandler.deref w h in
  let st := sentinelone.state v in
  Buffer.Bytes w st = [] ->
  formatsTo v r out ->
  SentinelOneHECHandler.Handle w h r = (set_buffers <[st := out ++ [x0a]]> w, None).
Proof.
  cbv zeta. intros Hbuf Hfmt. rewrite (Handle_formatted w h r out Hfmt).
  unfold Buffer.Len. rewrite Hbuf.
  change (len [] >? 0)%Z with false. cbv iota. cbn [andb]. done.
Qed.



(** X11. From the options to the wire.  A handler built from options with
    the token, the host name of the collector and the scope, given one record
    and closed, hands the HTTP client exactly one request when the payload
    compresses and the request can be created: a POST to
    https://<host>/services/collector/event with the token as bearer, the
    scope in the S1-Scope header, and the compressed record with its newline
    as body. *)
Theorem NewSentinelOneHECHandler_request (w w' : World)
    (o : options.SentinelOneHECHandlerOptions) (h : loc) (r : slog.Record) (out : bytes) :
  let url := ("https://" ++ options.IngestHostname o ++ "/services/collector/event")%string in
  let payload := out ++ [x0a] in
  let w2 := fst (SentinelOneHECHandler.Handle w' h r) in
  let w3 := fst (SentinelOneHECHandler.Close w2 h) in
  NewSentinelOneHECHandler w o = (w', inr h) ->
  formatsTo (SentinelOneHECHandler.deref w' h) r out ->
  gzip_Write payload = None ->
  gzip_Close payload = None ->
  http_NewRequest "POST" url (gzip payload) = None ->
  delivered (events w3) = delivered (events w) ++ [payload] /\
  posted (events w3) =
    posted (events w) ++
    [{| Method := "POST"; URL := url;
        Authorization := ("Bearer " ++ options.APIToken o)%string;
        ContentType := "application/json"; ContentEncoding := "gzip";
        S1Scope := options.Scope o; Body := gzip payload |}].
Proof.
  cbv zeta. intros Hnew Hfmt Hgw Hgc Hreq.
  destruct (NewSentinelOneHECHandler_deref w w' o h Hnew) as (_ & Hst & Hbuf & _ & _).
  destruct (NewSentinelOneHECHandler_inr w w' o h Hnew)
    as (v & Hh & Hw' & _ & _ & _ & Htok & Hurl & _ & _ & Hscope & _).
  assert (Hv : SentinelOneHECHandler.deref w' h = v).
  { subst w'. unfold SentinelOneHECHandler.deref, set_sentinelOneHandlers.
    cbn [sentinelOneHandlers]. by rewrite lookup_total_insert_eq. }
  assert (Hev : events w' = events w) by (by subst w').
  rewrite (Handle_on_empty w' h r out) by (by rewrite ?Hst).
  cbn [fst].
  set (w2 := set_buffers _ w').
  assert (Hb : Buffer.Bytes w2 (sentinelone.state (SentinelOneHECHandler.deref w2 h))
               = out ++ [x0a]) by apply Bytes_set_buffers.
  rewrite Close_nonempty by (rewrite Hb; by destruct out). cbn [fst]. rewrite Hb.
  destruct (send_events
              (Buffer.Reset w2 (sentinelone.state (SentinelOneHECHandler.deref w2 h)))
              h None (out ++ [x0a])) as (es & -> & Hd & Hp).
  change (SentinelOneHECHandler.deref (Buffer.Reset w2 _) h)
    with (SentinelOneHECHandler.deref w' h) in Hp.
  rewrite Hv in Hp.
  unfold emits. cbn [events Buffer.Reset set_buffers w2].
  rewrite delivered_app, posted_app, Hd, Hp, Hev. split; [done|]. f_equal.
  unfold requestFor. rewrite Hurl, Hgw, Hgc, Hreq, Htok, Hscope. done.
Qed.

(** X12. Handlers built by separate calls of the constructor share
    nothing: they are different objects with different buffers, and a record
    handled by one, or the closing of one, leaves the buffer of the other as
    it was.  (Handlers derived with [WithAttrs] and [WithGroup] do share the
    buffer.) *)
Theorem constructed_handlers_are_separate (w w1 w2 : World)
    (o1 o2 : options.SentinelOneHECHandlerOptions) (h1 h2 : loc) (r : slog.Record) :
  let st1 := sentinelone.state (SentinelOneHECHandler.deref w2 h1) in
  let st2 := sentinelone.state (SentinelOneHECHandler.deref w2 h2) in
  NewSentinelOneHECHandler w o1 = (w1, inr h1) ->
  NewSentinelOneHECHandler w1 o2 = (w2, inr h2) ->
  h1 <> h2 /\ st1 <> st2 /\
  Buffer.Bytes (fst (SentinelOneHECHandler.Handle w2 h2 r)) st1 = Buffer.Bytes w2 st1 /\
  Buffer.Bytes (fst (SentinelOneHECHandler.Handle w2 h1 r)) st2 = Buffer.Bytes w2 st2 /\
  Buffer.Bytes (fst (SentinelOneHECHandler.Close w2 h2)) st1 = Buffer.Bytes w2 st1 /\
  Buffer.Bytes (fst (SentinelOneHECHandler.Close w2 h1)) st2 = Buffer.Bytes w2 st2.
Proof.
  cbv zeta. intros Hnew1 Hnew2.
  destruct (NewSentinelOneHECHandler_deref w w1 o1 h1 Hnew1) as (_ & Hst1 & _ & Hb1 & _).
  destruct (NewSentinelOneHECHandler_inr w w1 o1 h1 Hnew1) as (v1 & _ & Hw1 & _).
  destruct (NewSentinelOneHECHandler_deref w1 w2 o2 h2 Hnew2) as (Hf2 & Hst2 & _ & _ & Hkeep).
  assert (Hh : h1 <> h2).
  { intros <-. subst w1. unfold set_sentinelOneHandlers in Hf2. cbn in Hf2.
    by rewrite lookup_insert_eq in Hf2. }
  assert (Hst : sentinelone.state (SentinelOneHECHandler.deref w2 h1) <>
                sentinelone.state (SentinelOneHECHandler.deref w2 h2)).
  { rewrite (Hkeep h1 Hh), Hst1, Hst2. intros E.
    pose proof (fresh_None (buffers w1)) as Hnone.
    rewrite <- E, Hb1, lookup_insert_eq in Hnone. discriminate. }
  split; [exact Hh|]. split; [exact Hst|].
  split; [|split; [|split]];
    first [apply Handle_other_buffers | apply Close_other_buffers]; congruence.
Qed.

End ConstructorProperties.

(** ** The registry of builders *)

Section RegistryProperties.
Context {B O : Type}.
Context (ToLower TrimSpace : string -> string) (json_Marshal : O -> error + bytes).

(** X13. What is registered under a name is found under every spelling of
    it.  After a successful [RegisterBuilder], [NewBuilderFromConfig] with any
    handler type that is the same once lowered and trimmed calls the function
    registered, with the options as JSON, and returns what it returns; when
    the options cannot be marshalled it fails with a marshal error before the
    registry is looked at. *)
Theorem RegisterBuilder_then_NewBuilderFromConfig
    (_builders _builders' : registry.Builders (B := B)) (handlerType spelling : string)
    (factoryFn : registry.NewBuilderFromConfigFn (B := B)) (overwrite : bool) (options : O) :
  registry.RegisterBuilder ToLower TrimSpace _builders handlerType (Some factoryFn) overwrite =
    (_builders', None) ->
  TrimSpace (ToLower spelling) = TrimSpace (ToLower handlerType) ->
  registry.NewBuilderFromConfig ToLower TrimSpace json_Marshal _builders' spelling options =
    match json_Marshal options with
    | inl err =>
        inl (XError codes.MarshalError "failed to marshal handler options to JSON: %s"
               (Some err))
    | inr jsonOptions => factoryFn jsonOptions
    end.
Proof.
  unfold registry.RegisterBuilder, registry.NewBuilderFromConfig, registry.Builders in *.
  intros Hreg Hsame. rewrite Hsame.
  destruct (String.eqb _ EmptyString); [discriminate|].
  destruct (json_Marshal options) as [err|jsonOptions]; [done|].
  destruct (_builders !! TrimSpace (ToLower handlerType)) as [f|];
    [destruct overwrite; [|discriminate]|];
    cbn [negb] in Hreg; injection Hreg as <-; by rewrite lookup_insert_eq.
Qed.

(** X14. When [RegisterBuilder] refuses.  It returns an error exactly when
    the type is empty once lowered and trimmed, or the function is nil, or
    the type has a function already and overwriting was not asked for; the
    code is invalid-parameter in the first two cases and
    handler-type-exists in the third, and the registry is returned as it was.
    Otherwise the registry returned differs only at the normal form of the
    type, which maps to the function given. *)
Theorem RegisterBuilder_refuses_iff
    (_builders : registry.Builders (B := B)) (handlerType : string)
    (factoryFn : option (registry.NewBuilderFromConfigFn (B := B))) (overwrite : bool) :
  let key := TrimSpace (ToLower handlerType) in
  let empty := key = EmptyString in
  let taken := is_Some (_builders !! key) /\ overwrite = false in
  match registry.RegisterBuilder ToLower TrimSpace _builders handlerType factoryFn overwrite with
  | (_builders', Some err) =>
      _builders' = _builders /\
      (empty \/ factoryFn = None \/ taken) /\
      exists msg,
        err = XError (if bool_decide (empty \/ factoryFn = None)
                      then codes.InvalidParameter else codes.HandlerTypeExists) msg None
  | (_builders', None) =>
      ~ empty /\ ~ taken /\
      exists f, factoryFn = Some f /\ _builders' = <[key := f]> _builders
  end.
Proof.
  cbv zeta. unfold registry.RegisterBuilder.
  destruct (String.eqb_spec (TrimSpace (ToLower handlerType)) EmptyString) as [E|E].
  { split; [done|]. split; [by left|]. eexists. rewrite bool_decide_true; [done|by left]. }
  destruct factoryFn as [f|].
  2:{ split; [done|]. split; [by right; left|]. eexists.
      rewrite bool_decide_true; [done|by right]. }
  destruct (_builders !! TrimSpace (ToLower handlerType)) as [g|] eqn:Hg.
  - destruct overwrite; cbn [negb].
    + split; [done|]. split; [by intros [_ ?]|]. by eexists.
    + split; [done|]. split; [right; right; by split|]. eexists.
      rewrite bool_decide_false; [done|]. by intros [?|?].
  - split; [done|]. split; [intros [[? ?] _]; done|]. by eexists.
Qed.

(** X15. Registering touches one entry.  A handler type whose normal form
    differs from the one registered resolves after [RegisterBuilder] as it did
    before, whether the registration succeeded or not; and without
    overwriting, every type that resolved before resolves to the same
    function. *)
Theorem RegisterBuilder_keeps_the_others
    (_builders : registry.Builders (B := B)) (handlerType other : string)
    (factoryFn : option (registry.NewBuilderFromConfigFn (B := B))) (overwrite : bool)
    (options : O) :
  let _builders' :=
    fst (registry.RegisterBuilder ToLower TrimSpace _builders handlerType factoryFn overwrite) in
  TrimSpace (ToLower other) <> TrimSpace (ToLower handlerType) \/
  (overwrite = false /\ is_Some (_builders !! TrimSpace (ToLower other))) ->
  registry.NewBuilderFromConfig ToLower TrimSpace json_Marshal _builders' other options =
    registry.NewBuilderFromConfig ToLower TrimSpace json_Marshal _builders other options.
Proof.
  cbv zeta. unfold registry.RegisterBuilder, registry.NewBuilderFromConfig,
    registry.Builders in *.
  intros Hcase.
  destruct (json_Marshal options) as [err|jsonOptions]; [done|].
  destruct (String.eqb _ EmptyString); [done|].
  destruct factoryFn as [f|]; [|done].
  destruct (decide (TrimSpace (ToLower other) = TrimSpace (ToLower handlerType))) as [Esame|Ediff].
  - destruct Hcase as [?|[-> Hsome]]; [done|].
    rewrite <- Esame. destruct Hsome as [g Hg]. rewrite Hg. cbn [negb fst]. done.
  - destruct (_builders !! TrimSpace (ToLower handlerType)) as [g|];
      [destruct overwrite|]; cbn [negb fst]; by rewrite ?lookup_insert_ne.
Qed.

End RegistryProperties.

(** ** Closing a fan-out handler *)

Section FanoutClosing.
Context {H : Type} `{closers : Closer.Closer H}.

Lemma omap_failed (ts : list (FanoutCloser.Turn (H := H))) :
  omap id (map FanoutCloser.failed ts) = omap FanoutCloser.failed ts.
Proof.
  induction ts as [|t ts IH]; [done|]. simpl.
  destruct (FanoutCloser.failed t); [f_equal|]; exact IH.
Qed.

(** The loop of [Close]: the turns are those of the children up to the
    first that panics, in order and chained; when no child panics the errors
    collected are those of the turns. *)
Lemma closeEach_spec (w : World) (handlers : list H) (errs : list error) :
  let '(w', out, ts) := FanoutCloser.closeEach w handlers errs in
  exists notReached,
    handlers = map FanoutCloser.child ts ++ notReached /\
    FanoutCloser.chained w ts w' /\
    Forall FanoutCloser.inOrder ts /\
    match out with
    | Returns errs' =>
        notReached = [] /\
        Forall (fun t => FanoutCloser.panicked t = false) ts /\
        errs' = errs ++ omap FanoutCloser.failed ts
    | Panics v =>
        exists before panicking,
          ts = before ++ [panicking] /\
          FanoutCloser.call panicking = Some (Panics v) /\
          Forall (fun t => FanoutCloser.panicked t = false) before
    end.
Proof.
  revert w errs. induction handlers as [|handler rest IH]; intros w errs; simpl.
  - exists []. rewrite app_nil_r. repeat split; constructor.
  - destruct (Closer.Close w handler) as [[w1 [err|v]]|] eqn:Hc.
    + specialize (IH w1 (match err with Some e => errs ++ [e] | None => errs end)).
      destruct (FanoutCloser.closeEach w1 rest _) as [[w' out] ts].
      destruct IH as (notReached & Hmap & Hchain & Hall & Hout).
      exists notReached. split; [simpl; by rewrite Hmap|].
      split; [simpl; split; [done|]; unfold FanoutCloser.after; simpl; by rewrite Hc|].
      split; [constructor; [|done]; unfold FanoutCloser.inOrder; simpl; by rewrite Hc|].
      destruct out as [errs'|v].
      * destruct Hout as (-> & Hnp & ->). split; [done|]. split; [by constructor|].
        simpl. unfold FanoutCloser.failed at 2; simpl.
        destruct err; [by rewrite <- app_assoc | done].
      * destruct Hout as (before & panicking & -> & Hcall & Hnp).
        exists ({| FanoutCloser.child := handler; FanoutCloser.reached := w;
                   FanoutCloser.call := Some (Returns err) |} :: before), panicking.
        split; [done|]. split; [done|]. by constructor.
    + exists rest. split; [done|].
      split; [simpl; split; [done|]; unfold FanoutCloser.after; simpl; by rewrite Hc|].
      split; [constructor; [|constructor]; unfold FanoutCloser.inOrder; simpl; by rewrite Hc|].
      exists [], {| FanoutCloser.child := handler; FanoutCloser.reached := w;
                    FanoutCloser.call := Some (Panics v) |}.
      split; [done|]. split; [done|]. constructor.
    + specialize (IH w errs).
      destruct (FanoutCloser.closeEach w rest errs) as [[w' out] ts].
      destruct IH as (notReached & Hmap & Hchain & Hall & Hout).
      exists notReached. split; [simpl; by rewrite Hmap|].
      split; [simpl; split; [done|]; unfold FanoutCloser.after; simpl; by rewrite Hc|].
      split; [constructor; [|done]; unfold FanoutCloser.inOrder; simpl; by rewrite Hc|].
      destruct out as [errs'|v].
      * destruct Hout as (-> & Hnp & ->). split; [done|]. split; [by constructor|]. done.
      * destruct Hout as (before & panicking & -> & Hcall & Hnp).
        exists ({| FanoutCloser.child := handler; FanoutCloser.reached := w;
                   FanoutCloser.call := None |} :: before), panicking.
        split; [done|]. split; [done|]. by constructor.
Qed.

(** X16. [Close] of the fan-out takes one turn per child, in the order of
    the list, each in the store the turn before left; a child that is no
    closer is passed over.  A child that returns an error does not stop the
    loop: when no child panics every child has its turn, and the result is
    the join of the errors, nil exactly when every closer returned nil.  A
    child that panics does stop it: unlike [Handle], [Close] recovers
    nothing, the panic is the outcome, and the children after that one are
    not closed. *)
Theorem FanoutHandler_Close_turns (w : World) (h : fanout.FanoutHandler H) :
  let ts := FanoutCloser.turns w h in
  let w' := fst (FanoutCloser.Close w h) in
  exists notReached,
    fanout.Handlers (fanout.options h) = map FanoutCloser.child ts ++ notReached /\
    FanoutCloser.chained w ts w' /\
    Forall FanoutCloser.inOrder ts /\
    match snd (FanoutCloser.Close w h) with
    | Returns ret =>
        notReached = [] /\
        Forall (fun t => FanoutCloser.panicked t = false) ts /\
        ret = errors_Join (map FanoutCloser.failed ts) /\
        (ret = None <-> Forall (fun t => FanoutCloser.failed t = None) ts)
    | Panics v =>
        exists before panicking,
          ts = before ++ [panicking] /\
          FanoutCloser.call panicking = Some (Panics v) /\
          Forall (fun t => FanoutCloser.panicked t = false) before
    end.
Proof.
  cbv zeta. unfold FanoutCloser.turns, FanoutCloser.Close.
  pose proof (closeEach_spec w (fanout.Handlers (fanout.options h)) []) as Hspec.
  destruct (FanoutCloser.closeEach w _ []) as [[w' out] ts].
  destruct Hspec as (notReached & Hmap & Hchain & Hall & Hout).
  exists notReached. cbn [fst snd].
  split; [done|]. split; [done|]. split; [done|].
  destruct out as [errs|v]; [|done].
  destruct Hout as (-> & Hnp & ->). simpl.
  split; [done|]. split; [done|].
  assert (Hjoin : errors_Join (map Some (omap FanoutCloser.failed ts)) =
                  errors_Join (map FanoutCloser.failed ts)).
  { unfold errors_Join. by rewrite omap_id_Some, omap_failed. }
  split; [done|].
  rewrite errors_Join_nil_iff.
  clear. induction ts as [|t ts IH]; simpl.
  - split; [constructor | done].
  - rewrite Forall_cons, <- IH.
    destruct (FanoutCloser.failed t); simpl; intuition congruence.
Qed.

End FanoutClosing.

Section SinkClosing.
Context `{env : Env} `{files : Files}.

(** [Close] of a forwarder changes the buffers and the events only. *)
Lemma Close_frame (w : World) (h : loc) :
  let w' := fst (SentinelOneHECHandler.Close w h) in
  sameHandlers w w' /\ levelVars w' = levelVars w /\ goroutines w' = goroutines w.
Proof.
  cbv zeta.
  destruct (Buffer.Bytes w (sentinelone.state (SentinelOneHECHandler.deref w h)))
    as [|b rest] eqn:Hbuf.
  - rewrite Close_empty by done. done.
  - rewrite Close_nonempty by (rewrite Hbuf; discriminate). cbn [fst].
    match goal with
    | |- context [SentinelOneHECHandler.send ?w1 h ?r1 ?q] =>
        destruct (send_spec w1 h r1 q) as (es & -> & _)
    end.
    done.
Qed.

Lemma Close_nil (w : World) (h : loc) : snd (SentinelOneHECHandler.Close w h) = None.
Proof.
  destruct (Buffer.Bytes w (sentinelone.state (SentinelOneHECHandler.deref w h)))
    as [|b rest] eqn:Hbuf.
  - by rewrite Close_empty.
  - by rewrite Close_nonempty by (rewrite Hbuf; discriminate).
Qed.

Lemma flushedBy_ext (w1 w : World) (children : list Sink) (seen : list loc) :
  sentinelOneHandlers w1 = sentinelOneHandlers w ->
  (forall st, st ∉ seen -> Buffer.Bytes w1 st = Buffer.Bytes w st) ->
  flushedBy w1 children seen = flushedBy w children seen.
Proof.
  intros Hsame. revert seen.
  induction children as [|s rest IH]; intros seen Hbuf; [done|].
  destruct s as [p|p|p| |]; simpl; try (by apply IH).
  unfold SentinelOneHECHandler.deref. rewrite Hsame.
  case_bool_decide as Hseen; [by apply IH|].
  rewrite (Hbuf _ Hseen). f_equal. apply IH.
  intros st Hst. apply Hbuf. intros Hin. apply Hst. by right.
Qed.

Lemma fileErrors_ext (w1 w : World) (children : list Sink) :
  fileHandlers w1 = fileHandlers w -> fileErrors w1 children = fileErrors w children.
Proof.
  intros Hsame. unfold fileErrors. apply map_ext. intros [p|p|p| |]; try done.
  unfold FileHandler_Close, FileHandler.deref. by rewrite Hsame.
Qed.

(** The loop of [Close] over handlers of this package. *)
Lemma closeEach_sinks (children : list Sink) :
  forall (w : World) (seen : list loc) (errs : list error),
    (forall st, st ∈ seen -> Buffer.Bytes w st = []) ->
    let '(w', out, _) := FanoutCloser.closeEach w children errs in
    out = Returns (errs ++ omap id (fileErrors w children)) /\
    delivered (events w') = delivered (events w) ++ flushedBy w children seen /\
    sameHandlers w w' /\ levelVars w' = levelVars w /\ goroutines w' = goroutines w /\
    (forall st, st ∈ seen -> Buffer.Bytes w' st = []) /\
    Forall (fun s => match s with
                     | SentinelOneHEC p =>
                         Buffer.Bytes w' (sentinelone.state (SentinelOneHECHandler.deref w' p)) = []
                     | _ => True
                     end) children.
Proof.
  induction children as [|s rest IH]; intros w seen errs Hseen.
  - simpl. rewrite !app_nil_r. repeat split; [done|constructor].
  - destruct s as [p|p|p| |].
    + (* console *)
      simpl. specialize (IH w seen errs Hseen).
      destruct (FanoutCloser.closeEach w rest errs) as [[w' out] ts].
      destruct IH as (Hout & Hd & Hh & Hl & Hg & Hs & Hall).
      repeat split; try done; try apply Hh. by constructor.
    + (* file *)
      simpl.
      specialize (IH w seen
                    (match FileHandler_Close w p with
                     | Some err => errs ++ [err]
                     | None => errs
                     end) Hseen).
      destruct (FanoutCloser.closeEach w rest _) as [[w' out] ts].
      destruct IH as (Hout & Hd & Hh & Hl & Hg & Hs & Hall).
      split.
      { rewrite Hout. destruct (FileHandler_Close w p); simpl;
          by rewrite <- ?app_assoc. }
      repeat split; try done; try apply Hh. by constructor.
    + (* forwarder *)
      simpl. rewrite Close_nil.
      destruct (Close_frame w p) as (Hframe & Hlv & Hgo).
      pose proof (Close_delivered w p) as Hdel.
      pose proof (Close_empties w p) as Hemp. cbv zeta in Hemp.
      rewrite Close_deref in Hemp.
      assert (Hoth : forall st',
                st' <> sentinelone.state (SentinelOneHECHandler.deref w p) ->
                Buffer.Bytes (fst (SentinelOneHECHandler.Close w p)) st' = Buffer.Bytes w st')
        by (intros st'; apply Close_other_buffers).
      set (st := sentinelone.state (SentinelOneHECHandler.deref w p)) in *.
      set (w1 := fst (SentinelOneHECHandler.Close w p)) in *.
      assert (Hpend : delivered (events w1) =
                      delivered (events w) ++ pending (Buffer.Bytes w st)).
      { rewrite Hdel. by destruct (Buffer.Bytes w st). }
      assert (Hseen1 : forall st', st' ∈ st :: seen -> Buffer.Bytes w1 st' = []).
      { intros st' Hin. destruct (decide (st' = st)) as [->|Hne]; [exact Hemp|].
        rewrite Hoth by done. apply Hseen. by apply elem_of_cons in Hin as [?|?]. }
      destruct Hframe as (Hc & Hf & Hs1).
      case_bool_decide as Hin.
      * specialize (IH w1 seen errs).
        destruct (FanoutCloser.closeEach w1 rest errs) as [[w' out] ts].
        destruct IH as (Hout & Hd & Hh & Hl & Hg & Hs & Hall).
        { intros st' Hin'. apply Hseen1. by right. }
        rewrite (fileErrors_ext w1 w) in Hout by done.
        rewrite (flushedBy_ext w1 w) in Hd.
        2: done.
        2:{ intros st' Hst'. apply Hoth. intros ->. done. }
        rewrite Hpend, (Hseen st Hin) in Hd. simpl in Hd. rewrite app_nil_r in Hd.
        split; [done|]. split; [done|].
        destruct Hh as (Hc' & Hf' & Hs').
        split; [repeat split; congruence|].
        split; [congruence|]. split; [congruence|]. split; [done|].
        constructor; [|done].
        unfold SentinelOneHECHandler.deref. rewrite Hs', Hs1. apply Hs. exact Hin.
      * specialize (IH w1 (st :: seen) errs Hseen1).
        destruct (FanoutCloser.closeEach w1 rest errs) as [[w' out] ts].
        destruct IH as (Hout & Hd & Hh & Hl & Hg & Hs & Hall).
        rewrite (fileErrors_ext w1 w) in Hout by done.
        rewrite (flushedBy_ext w1 w) in Hd.
        2: done.
        2:{ intros st' Hst'. apply Hoth. intros ->. apply Hst'. by left. }
        rewrite Hpend, <- app_assoc in Hd.
        split; [done|]. split; [done|].
        destruct Hh as (Hc' & Hf' & Hs').
        split; [repeat split; congruence|].
        split; [congruence|]. split; [congruence|].
        split; [intros st' Hin'; apply Hs; by right|].
        constructor; [|done].
        unfold SentinelOneHECHandler.deref. rewrite Hs', Hs1. apply Hs. by left.
    + (* discard *)
      simpl. specialize (IH w seen errs Hseen).
      destruct (FanoutCloser.closeEach w rest errs) as [[w' out] ts].
      destruct IH as (Hout & Hd & Hh & Hl & Hg & Hs & Hall).
      repeat split; try done; try apply Hh. by constructor.
    + (* the discard handler of the standard library: no closer *)
      simpl. specialize (IH w seen errs Hseen).
      destruct (FanoutCloser.closeEach w rest errs) as [[w' out] ts].
      destruct IH as (Hout & Hd & Hh & Hl & Hg & Hs & Hall).
      repeat split; try done; try apply Hh. by constructor.
Qed.

(** X17. Closing a fan-out over handlers of this package.  Every forwarder
    among the children is flushed: each buffer that holds data is delivered
    once, in the order of the children, also when two children share it, and
    all their buffers are empty afterwards.  No goroutine is started and no
    handler object or level variable changes.  The result is the join of what
    the file handlers returned; delivery errors are not part of it, so a
    fan-out without file handlers closes with nil whatever the collector
    answered. *)
Theorem FanoutHandler_Close_sinks (w : World) (h : fanout.FanoutHandler Sink) :
  let children := fanout.Handlers (fanout.options h) in
  let w' := fst (FanoutCloser.Close w h) in
  snd (FanoutCloser.Close w h) = Returns (errors_Join (fileErrors w children)) /\
  delivered (events w') = delivered (events w) ++ flushedBy w children [] /\
  Forall (fun s => match s with
                   | SentinelOneHEC p =>
                       Buffer.Bytes w' (sentinelone.state (SentinelOneHECHandler.deref w' p)) = []
                   | _ => True
                   end) children /\
  sameHandlers w w' /\ levelVars w' = levelVars w /\ goroutines w' = goroutines w.
Proof.
  cbv zeta. unfold FanoutCloser.Close.
  pose proof (closeEach_sinks (fanout.Handlers (fanout.options h)) w [] []) as Hspec.
  destruct (FanoutCloser.closeEach w _ []) as [[w' out] ts].
  destruct Hspec as (-> & Hd & Hh & Hl & Hg & _ & Hall).
  { intros st Hin. by apply elem_of_nil in Hin. }
  cbn [fst snd]. split; [|done].
  f_equal. unfold errors_Join. simpl. by rewrite omap_id_Some.
Qed.

End SinkClosing.

(** ** Building a fan-out handler *)

Section FanoutBuilding.
Context {CB B H : Type} `{builders : HandlerBuilder.HandlerBuilder CB B H}.

(** The loop of [Build]: one turn per builder in the order of the list,
    chained; the slice has the handler of each turn that succeeded and nil
    for the others, and the errors collected are those of the turns that
    failed. *)
Lemma buildEach_spec (w : World) (hbs : list B) (cb : option CB) (errs : list error) :
  let '(w', errs', handlers, ts) := fanoutHandlerBuilder.buildEach w hbs cb errs in
  map fanoutHandlerBuilder.builder ts = hbs /\
  fanoutHandlerBuilder.chained cb w ts w' /\
  handlers = map (fun t => match fanoutHandlerBuilder.result cb t with
                           | inr handler => Some handler
                           | inl _ => None
                           end) ts /\
  errs' = errs ++ omap (fanoutHandlerBuilder.failed cb) ts.
Proof.
  revert w errs. induction hbs as [|hb rest IH]; intros w errs; simpl.
  - by rewrite app_nil_r.
  - destruct (HandlerBuilder.Build w hb cb) as [w1 [err|handler]] eqn:Hb.
    + specialize (IH w1 (errs ++ [fanoutHandlerBuilder.failure hb err])).
      destruct (fanoutHandlerBuilder.buildEach w1 rest cb _) as [[[w' errs'] handlers] ts].
      destruct IH as (Hmap & Hchain & Hhs & Herrs).
      split; [simpl; by rewrite Hmap|].
      split; [simpl; split; [done|]; unfold fanoutHandlerBuilder.after; simpl; by rewrite Hb|].
      unfold fanoutHandlerBuilder.failed, fanoutHandlerBuilder.result. simpl. rewrite Hb.
      split; [simpl; by rewrite Hhs|]. simpl. by rewrite Herrs, <- app_assoc.
    + specialize (IH w1 errs).
      destruct (fanoutHandlerBuilder.buildEach w1 rest cb errs) as [[[w' errs'] handlers] ts].
      destruct IH as (Hmap & Hchain & Hhs & Herrs).
      split; [simpl; by rewrite Hmap|].
      split; [simpl; split; [done|]; unfold fanoutHandlerBuilder.after; simpl; by rewrite Hb|].
      unfold fanoutHandlerBuilder.failed, fanoutHandlerBuilder.result. simpl. rewrite Hb.
      split; [simpl; by rewrite Hhs|]. done.
Qed.

(** X18. [Build] of the fan-out builder runs the builder of every child, in
    the order of the configuration and each in the store the one before
    left, whether or not an earlier one failed.  It is all or nothing: when
    every builder succeeds the fan-out handler has exactly their handlers, in
    that order; when one fails [Build] returns no handler but a
    build-handler error over the join of one error per failed builder, in
    order, and the handlers that were built are dropped as they are. *)
Theorem fanoutHandlerBuilder_Build_turns (w : World)
    (b : fanoutHandlerBuilder.fanoutHandlerBuilderOptions (B := B)) (cb : option CB) :
  let ts := fanoutHandlerBuilder.turns w b cb in
  let w' := fst (fanoutHandlerBuilder.Build w b cb) in
  map fanoutHandlerBuilder.builder ts = fanoutHandlerBuilder.HandlerBuilders b /\
  fanoutHandlerBuilder.chained cb w ts w' /\
  match snd (fanoutHandlerBuilder.Build w b cb) with
  | inr h =>
      Forall2 (fun t handler => fanoutHandlerBuilder.result cb t = inr handler)
        ts (fanout.Handlers (fanout.options h))
  | inl e =>
      Exists (fun t => exists err, fanoutHandlerBuilder.result cb t = inl err) ts /\
      e = XError codes.BuildHandlerError "failed to build one or more handlers"
            (Some (JoinError (omap (fanoutHandlerBuilder.failed cb) ts)))
  end.
Proof.
  cbv zeta. unfold fanoutHandlerBuilder.turns, fanoutHandlerBuilder.Build.
  pose proof (buildEach_spec w (fanoutHandlerBuilder.HandlerBuilders b) cb []) as Hspec.
  destruct (fanoutHandlerBuilder.buildEach w _ cb []) as [[[w' errs] handlers] ts].
  destruct Hspec as (Hmap & Hchain & -> & Herrs). simpl in Herrs. subst errs.
  destruct (len (omap (fanoutHandlerBuilder.failed cb) ts) >? 0)%Z eqn:Hlen; cbn [fst snd].
  - split; [done|]. split; [done|].
    apply len_pos_iff in Hlen. split.
    + clear -Hlen. induction ts as [|t ts IH]; [done|].
      simpl in Hlen. unfold fanoutHandlerBuilder.failed at 1 in Hlen.
      destruct (fanoutHandlerBuilder.result cb t) as [err|handler] eqn:Hres.
      * left. by exists err.
      * right. by apply IH.
    + unfold errors_Join. rewrite omap_id_Some.
      by destruct (omap (fanoutHandlerBuilder.failed cb) ts).
  - split; [done|]. split; [done|]. simpl.
    assert (Hnil : omap (fanoutHandlerBuilder.failed cb) ts = []).
    { destruct (omap _ ts) as [|e es] eqn:E; [done|].
      assert ((len (e :: es) >? 0)%Z = true) by (by apply len_pos_iff).
      congruence. }
    clear -Hnil. induction ts as [|t ts IH]; [constructor|].
    simpl in Hnil. unfold fanoutHandlerBuilder.failed at 1 in Hnil. simpl.
    destruct (fanoutHandlerBuilder.result cb t) as [err|handler] eqn:Hres; [done|].
    simpl. constructor; [done | by apply IH].
Qed.

End FanoutBuilding.

(** ** Records as maps, and the default error handler *)

(** Writing the entries of a list into a map one after the other: the map
    has, for a key, what the last entry with that key wrote. *)
Lemma foldl_insert_lookup {A V : Type} (key : A -> string) (val : A -> V)
    (l : list A) (m : gmap string V) (k : string) :
  foldl (fun m a => <[key a := val a]> m) m l !! k =
    match last (filter (fun a => key a = k) l) with
    | Some a => Some (val a)
    | None => m !! k
    end.
Proof.
  revert m. induction l as [|a l IH]; intros m; [done|].
  simpl. rewrite IH. rewrite filter_cons.
  destruct (decide (key a = k)) as [E|E].
  - destruct (filter _ l) as [|b l'] eqn:Hf; simpl.
    + by rewrite E, lookup_insert_eq.
    + rewrite last_cons. by destruct (last l').
  - destruct (last (filter _ l)); [done|]. by rewrite lookup_insert_ne.
Qed.

Lemma foldl_insert_nonempty {A V : Type} (key : A -> string) (val : A -> V)
    (l : list A) :
  (Z.of_nat (size (foldl (fun m a => <[key a := val a]> m) (∅ : gmap string V) l)) >? 0)%Z =
    match l with
    | [] => false
    | _ :: _ => true
    end.
Proof.
  destruct l as [|a l]; [done|].
  apply Z.gtb_lt.
  assert (Hne : foldl (fun m a => <[key a := val a]> m) (∅ : gmap string V) (a :: l) <> ∅).
  { intros Hempty.
    destruct (@exists_last _ (a :: l)) as (l' & b & Hl); [done|].
    pose proof (foldl_insert_lookup key val (a :: l) ∅ (key b)) as Hlook.
    rewrite Hempty, lookup_empty, Hl, filter_app, filter_cons in Hlook.
    rewrite decide_True in Hlook by done. rewrite filter_nil, last_snoc in Hlook.
    discriminate. }
  apply map_size_non_empty_iff in Hne. lia.
Qed.

Lemma size_insert_pos {V : Type} (m : gmap string V) (k : string) (x : V) :
  (Z.of_nat (size (<[k := x]> m)) >? 0)%Z = true.
Proof.
  apply Z.gtb_lt.
  pose proof (insert_non_empty m k x) as Hne.
  apply map_size_non_empty_iff in Hne. lia.
Qed.

Section RecordToMapProperties.
Context `{env : Env} `{keys : Keys}.
Context (Level_String : slog.Level -> string) (Error : error -> string).

(** The nested map of a group. *)
Lemma resolveValue_group (members : list (string * slog.Value)) :
  resolveValue (slog.GroupValue members) =
    AnyMap (foldl (fun m a => <[fst a := resolveValue (snd a)]> m) ∅ members).
Proof.
  simpl. f_equal. generalize (∅ : gmap string Any).
  induction members as [|[key value] rest IH]; intros m; [done|]. simpl. apply IH.
Qed.


(** X20. Attributes as a map: the last one wins.  The attributes of a
    record are written into one map in their order, so under each key the map
    has the value of the last attribute with that key, and earlier ones are
    lost; the same holds for the members of a group, which becomes a nested
    map, so that two groups under one key are not merged. *)
Theorem RecordToMap_attrs_last_wins (r : slog.Record)
    (members : list (string * slog.Value)) (k : string) :
  match slog.Attrs r with
  | [] => True
  | _ :: _ =>
      exists attrs,
        RecordToMap Level_String r !! AttrsKey = Some (AnyMap attrs) /\
        attrs !! k =
          (fun a => resolveValue (slog.Val a)) <$>
            last (filter (fun a => slog.Key a = k) (slog.Attrs r))
  end /\
  exists groupMap,
    resolveValue (slog.GroupValue members) = AnyMap groupMap /\
    groupMap !! k =
      (fun a => resolveValue (snd a)) <$> last (filter (fun a => fst a = k) members).
Proof.
  split.
  - destruct (slog.Attrs r) as [|a attrs] eqn:Hattrs; [done|].
    unfold RecordToMap. rewrite foldl_insert_nonempty, Hattrs.
    eexists. split; [by rewrite lookup_insert_eq|].
    rewrite (foldl_insert_lookup slog.Key (fun a => resolveValue (slog.Val a))).
    by destruct (last _).
  - eexists. split; [apply resolveValue_group|].
    rewrite (foldl_insert_lookup fst (fun a => resolveValue (snd a))).
    by destruct (last _).
Qed.

(** X21. The default error handler never swallows an error.  It returns
    an error of code handle-record-error whose cause is the error it was
    given, for every error and every record, nil or not; the map it prints
    has the code and the error under "error", and the record under "record"
    exactly when there is one.  A forwarder that has it as error handler
    therefore returns from [send] an error for every failed delivery, and nil
    only when the collector accepted the payload. *)
Theorem DefaultErrorHandler_wraps (err : option error) (r : option slog.Record)
    (w : World) (h : loc) (payload : bytes) :
  let v := SentinelOneHECHandler.deref w h in
  let out := DefaultErrorHandler Level_String Error err r in
  (exists msg, fst out = XError codes.HandleRecordError msg err) /\
  (exists errMap,
     snd out !! "error" = Some (AnyMap errMap) /\
     errMap !! "code" = Some (AnyInt codes.HandleRecordError) /\
     errMap !! "error" = AnyError <$> err) /\
  snd out !! "record" = (fun r => AnyMap (RecordToMap Level_String r)) <$> r /\
  (sentinelone.ErrorHandler (sentinelone.options v) =
     Some (DefaultErrorHandlerFn Level_String Error) ->
   snd (SentinelOneHECHandler.send w h r payload) =
     (fun e => XError codes.HandleRecordError "failed to write record: %s" (Some e)) <$>
       deliveryError v (S (length (events w))) payload).
Proof.
  cbv zeta. split; [|split; [|split]].
  - unfold DefaultErrorHandler. destruct err; by eexists.
  - unfold DefaultErrorHandler. destruct err as [e|]; cbn [fst snd];
      rewrite size_insert_pos; eexists; (split; [by rewrite lookup_insert_eq|]); done.
  - unfold DefaultErrorHandler.
    destruct err as [e|]; cbn [fst snd]; rewrite size_insert_pos;
      (rewrite lookup_insert_ne by done);
      (destruct r as [r|]; simpl; [|done]);
      (replace (Z.of_nat (size (RecordToMap Level_String r)) >? 0)%Z with true;
       [by rewrite lookup_insert_eq|]);
      symmetry; unfold RecordToMap;
      rewrite foldl_insert_nonempty;
      (destruct (slog.Attrs r); [|apply size_insert_pos]);
      destruct (Record_Source r); apply size_insert_pos.
  - intros Hh. destruct (send_spec w h r payload) as (es & _ & _ & _ & ->).
    unfold surfaced. rewrite Hh. by destruct (deliveryError _ _ _).
Qed.

End RecordToMapProperties.

(** ** Goroutines *)

Section Goroutines.
Context `{env : Env}.

(** One goroutine runs: one delivery attempt with its payload. *)
Lemma run_at (w : World) (i : nat) (t : Task) :
  goroutines w !! i = Some t ->
  let w' := SentinelOneHECHandler.run w i in
  goroutines w' = delete i (goroutines w) /\
  delivered (events w') = delivered (events w) ++ [task_payload t] /\
  buffers w' = buffers w /\ sentinelOneHandlers w' = sentinelOneHandlers w.
Proof.
  cbv zeta. intros Ht. unfold SentinelOneHECHandler.run. rewrite Ht.
  match goal with
  | |- context [SentinelOneHECHandler.send ?w1 ?h1 ?r1 ?p] =>
      destruct (send_spec w1 h1 r1 p) as (es & -> & Hd & _)
  end.
  cbn [emits set_goroutines goroutines events buffers sentinelOneHandlers].
  by rewrite delivered_app, Hd.
Qed.

(** Every goroutine outstanding runs, in any order: one delivery attempt
    each. *)
Lemma runAll_complete (schedule : list nat) :
  forall w : World,
    complete (length (goroutines w)) schedule ->
    let w' := runAll w schedule in
    goroutines w' = [] /\
    buffers w' = buffers w /\ sentinelOneHandlers w' = sentinelOneHandlers w /\
    exists batches,
      batches ≡ₚ map task_payload (goroutines w) /\
      delivered (events w') = delivered (events w) ++ batches /\
      (Forall (fun i => i = 0) schedule -> batches = map task_payload (goroutines w)).
Proof.
  induction schedule as [|i rest IH]; intros w Hc; simpl in *.
  - destruct (goroutines w); [|done]. repeat split.
    exists []. rewrite app_nil_r. by repeat split.
  - destruct Hc as (Hi & Hrest).
    destruct (lookup_lt_is_Some_2 (goroutines w) i Hi) as (t & Ht).
    destruct (run_at w i t Ht) as (Hg & Hd & Hb & Hs).
    specialize (IH (SentinelOneHECHandler.run w i)).
    rewrite Hg, length_delete in IH by (by eexists).
    replace (length (goroutines w) - 1) with (pred (length (goroutines w))) in IH by lia.
    destruct (IH Hrest) as (Hg' & Hb' & Hs' & batches & Hperm & Hd' & Hord).
    split; [exact Hg'|]. split; [congruence|]. split; [congruence|].
    exists (task_payload t :: batches). split; [|split].
    + rewrite Hperm. rewrite (delete_Permutation (goroutines w) i t Ht) at 2. done.
    + rewrite Hd', Hd, <- app_assoc. done.
    + intros Hall. apply Forall_cons in Hall as (-> & Hall).
      rewrite (Hord Hall). destruct (goroutines w) as [|t0 gs]; [done|].
      simpl in Ht. injection Ht as ->. done.
Qed.

(** X22. Nothing is lost or sent twice when the forwarder sends
    asynchronously.  After any sequence of records that format, once every
    goroutine that [Handle] started has run, in whatever order, and the
    handler is closed, the payloads delivered are the batches cut, each once,
    followed by the rest of the buffer; together they are the buffer as it
    was and the records, and they are delivered in the order of the calls
    when the goroutines run in the order they were started. *)
Theorem async_handleAll_delivers (h : loc) (rs : list slog.Record) (outs : list bytes)
    (v : sentinelone.SentinelOneHECHandler) (w : World) (schedule : list nat) :
  let st := sentinelone.state v in
  let recs := map (fun out => out ++ [x0a]) outs in
  let w1 := handleAll w h rs in
  let w2 := runAll w1 schedule in
  let w3 := fst (SentinelOneHECHandler.Close w2 h) in
  let cut := map task_payload (goroutines w1) in
  sentinelone.DisableAsync (sentinelone.options v) = false ->
  Forall2 (formatsTo v) rs outs ->
  SentinelOneHECHandler.deref w h = v ->
  goroutines w = [] ->
  complete (length (goroutines w1)) schedule ->
  goroutines w3 = [] /\ Buffer.Bytes w3 st = [] /\
  concat cut ++ Buffer.Bytes w1 st = Buffer.Bytes w st ++ concat recs /\
  exists batches,
    batches ≡ₚ cut /\
    delivered (events w3) = delivered (events w) ++ batches ++ pending (Buffer.Bytes w1 st) /\
    (Forall (fun i => i = 0) schedule ->
     concat (delivered (events w3)) =
       concat (delivered (events w)) ++ Buffer.Bytes w st ++ concat recs).
Proof.
  cbv zeta. intros Hasync Hfmt Hv Hnone Hc.
  assert (Hall : forall w,
    SentinelOneHECHandler.deref w h = v ->
    SentinelOneHECHandler.deref (handleAll w h rs) h = v /\
    concat (map task_payload (goroutines (handleAll w h rs)))
      ++ Buffer.Bytes (handleAll w h rs) (sentinelone.state v) =
    concat (map task_payload (goroutines w)) ++ Buffer.Bytes w (sentinelone.state v)
      ++ concat (map (fun out => out ++ [x0a]) outs) /\
    delivered (events (handleAll w h rs)) = delivered (events w)).
  { clear w Hv Hnone Hc. induction Hfmt as [|r out rs outs Hr Hrs IH]; intros w Hv.
    - simpl. by rewrite app_nil_r.
    - subst v. destruct (Handle_effect w h r out Hr)
        as (cut & _ & Hv1 & Hd & Hg & Hb & _).
      simpl. destruct (IH _ Hv1) as (IHv & IHc & IHd).
      split; [exact IHv|]. rewrite IHc, IHd, Hb, Hg, Hd, Hasync.
      destruct cut; cbn [andb negb]; rewrite ?app_nil_r, ?concat_app; simpl;
        rewrite ?app_nil_r, <- ?app_assoc; done. }
  destruct (Hall w Hv) as (Hv1 & Hcons & Hd1). rewrite Hnone in Hcons. simpl in Hcons.
  set (w1 := handleAll w h rs) in *.
  destruct (runAll_complete schedule w1 Hc) as (Hg2 & Hb2 & Hs2 & batches & Hperm & Hd2 & Hord).
  set (w2 := runAll w1 schedule) in *.
  assert (Hv2 : SentinelOneHECHandler.deref w2 h = v).
  { unfold SentinelOneHECHandler.deref. by rewrite Hs2. }
  assert (Hbuf2 : Buffer.Bytes w2 (sentinelone.state v) = Buffer.Bytes w1 (sentinelone.state v)).
  { unfold Buffer.Bytes. by rewrite Hb2. }
  destruct (Close_frame w2 h) as (_ & _ & Hg3).
  pose proof (Close_empties w2 h) as Hemp. cbv zeta in Hemp.
  rewrite Close_deref, Hv2 in Hemp.
  split; [congruence|]. split; [exact Hemp|]. split; [exact Hcons|].
  assert (Hd3 : delivered (events (fst (SentinelOneHECHandler.Close w2 h))) =
                delivered (events w) ++ batches ++ pending (Buffer.Bytes w1 (sentinelone.state v))).
  { rewrite Close_delivered, Hv2, Hbuf2, Hd2, Hd1, <- app_assoc.
    by destruct (Buffer.Bytes w1 _). }
  exists batches. split; [exact Hperm|]. split; [exact Hd3|].
  intros Hzero. rewrite Hd3, (Hord Hzero), !concat_app, <- Hcons. do 2 f_equal.
  destruct (Buffer.Bytes w1 _); simpl; by rewrite ?app_nil_r.
Qed.

End Goroutines.

(** ** Fan-out handlers as children of a fan-out handler *)

Section NestedFanout.
Context {H : Type} `{children : Handler.Handler H}.

(** The errors the loop of [Handle] is given play no part in what it does. *)
Lemma handleEach_errs (w : World) (handlers : list H) (r : slog.Record) (errs : list error) :
  FanoutHandler.handleEach w handlers r errs =
    let '(w', more, vs) := FanoutHandler.handleEach w handlers r [] in
    (w', errs ++ more, vs).
Proof.
  revert w errs. induction handlers as [|handler rest IH]; intros w errs; simpl.
  - by rewrite app_nil_r.
  - destruct (Handler.Enabled w handler (slog.RLevel r)).
    + destruct (Handler.Handle w handler (slog.Clone r)) as [w1 out].
      destruct (try out) as [err|].
      * rewrite (IH w1 (errs ++ [err])), (IH w1 [err]).
        destruct (FanoutHandler.handleEach w1 rest r []) as [[w' more] vs].
        by rewrite <- app_assoc.
      * rewrite (IH w1 errs).
        by destruct (FanoutHandler.handleEach w1 rest r []) as [[w' more] vs].
    + rewrite (IH w errs).
      by destruct (FanoutHandler.handleEach w rest r []) as [[w' more] vs].
Qed.

(** The loop over two lists of children, one after the other. *)
Lemma handleEach_app (w : World) (l1 l2 : list H) (r : slog.Record) (errs : list error) :
  FanoutHandler.handleEach w (l1 ++ l2) r errs =
    let '(w1, errs1, vs1) := FanoutHandler.handleEach w l1 r errs in
    let '(w2, errs2, vs2) := FanoutHandler.handleEach w1 l2 r errs1 in
    (w2, errs2, vs1 ++ vs2).
Proof.
  revert w errs. induction l1 as [|handler rest IH]; intros w errs; simpl.
  - by destruct (FanoutHandler.handleEach w l2 r errs) as [[w2 errs2] vs2].
  - destruct (Handler.Enabled w handler (slog.RLevel r)).
    + destruct (Handler.Handle w handler (slog.Clone r)) as [w1 out].
      rewrite IH.
      destruct (FanoutHandler.handleEach w1 rest r _) as [[w' errs'] vs'].
      by destruct (FanoutHandler.handleEach w' l2 r errs') as [[w2 errs2] vs2].
    + rewrite IH.
      destruct (FanoutHandler.handleEach w rest r errs) as [[w' errs'] vs'].
      by destruct (FanoutHandler.handleEach w' l2 r errs') as [[w2 errs2] vs2].
Qed.

(** The loop over children none of which is enabled does nothing. *)
Lemma handleEach_disabled (w : World) (handlers : list H) (r : slog.Record)
    (errs : list error) :
  FanoutHandler.anyEnabled w handlers (slog.RLevel r) = false ->
  fst (FanoutHandler.handleEach w handlers r errs) = (w, errs).
Proof.
  revert errs. induction handlers as [|handler rest IH]; intros errs; simpl; [done|].
  destruct (Handler.Enabled w handler (slog.RLevel r)); [discriminate|].
  intros Hrest. specialize (IH errs Hrest).
  by destruct (FanoutHandler.handleEach w rest r errs) as [[w' errs'] vs'].
Qed.

(** The loop given a clone of the record does what it does given the
    record. *)
Lemma handleEach_Clone (w : World) (handlers : list H) (r : slog.Record) (errs : list error) :
  fst (FanoutHandler.handleEach w handlers (slog.Clone r) errs) =
  fst (FanoutHandler.handleEach w handlers r errs).
Proof.
  revert w errs. induction handlers as [|handler rest IH]; intros w errs; simpl; [done|].
  change (slog.RLevel (slog.Clone r)) with (slog.RLevel r).
  change (slog.Clone (slog.Clone r)) with (slog.Clone r).
  destruct (Handler.Enabled w handler (slog.RLevel r)).
  - destruct (Handler.Handle w handler (slog.Clone r)) as [w1 out].
    specialize (IH w1 (match try out with Some err => errs ++ [err] | None => errs end)).
    destruct (FanoutHandler.handleEach w1 rest (slog.Clone r) _) as [[w' errs'] vs'].
    destruct (FanoutHandler.handleEach w1 rest r _) as [[w'' errs''] vs''].
    exact IH.
  - specialize (IH w errs).
    destruct (FanoutHandler.handleEach w rest (slog.Clone r) _) as [[w' errs'] vs'].
    destruct (FanoutHandler.handleEach w rest r _) as [[w'' errs''] vs''].
    exact IH.
Qed.

Lemma anyEnabled_app (w : World) (l1 l2 : list H) (level : slog.Level) :
  FanoutHandler.anyEnabled w (l1 ++ l2) level =
    FanoutHandler.anyEnabled w l1 level || FanoutHandler.anyEnabled w l2 level.
Proof.
  induction l1 as [|handler rest IH]; simpl; [done|].
  by destruct (Handler.Enabled w handler level).
Qed.

(** The loop over fan-out handlers and the loop over their children, all in
    one list. *)
Lemma handleEach_nested (groups : list (list H)) (r : slog.Record) :
  forall (w : World) (errs1 errs2 : list error),
    let nested :=
      FanoutHandler.handleEach w
        (map (fun g => fanout.NewFanoutHandler {| fanout.Handlers := g |}) groups) r errs1 in
    let flat := FanoutHandler.handleEach w (concat groups) r errs2 in
    fst (fst nested) = fst (fst flat) /\
    exists more1 more2,
      snd (fst nested) = errs1 ++ more1 /\ snd (fst flat) = errs2 ++ more2 /\
      (more1 = [] <-> more2 = []).
Proof.
  induction groups as [|g rest IH]; intros w errs1 errs2; cbv zeta.
  - simpl. split; [done|]. exists [], []. by rewrite !app_nil_r.
  - cbn [map concat]. rewrite handleEach_app.
    cbn [FanoutHandler.handleEach].
    change (Handler.Enabled w (fanout.NewFanoutHandler {| fanout.Handlers := g |})
              (slog.RLevel r))
      with (FanoutHandler.anyEnabled w g (slog.RLevel r)).
    destruct (FanoutHandler.anyEnabled w g (slog.RLevel r)) eqn:Hen.
    + change (Handler.Handle w (fanout.NewFanoutHandler {| fanout.Handlers := g |})
                (slog.Clone r))
        with (returns (FanoutHandler.Handle w
                         (fanout.NewFanoutHandler {| fanout.Handlers := g |}) (slog.Clone r))).
      unfold returns, FanoutHandler.Handle. cbn [fanout.Handlers fanout.options
        fanout.NewFanoutHandler].
      pose proof (handleEach_Clone w g r []) as Hclone.
      rewrite (handleEach_errs w g r errs2).
      destruct (FanoutHandler.handleEach w g (slog.Clone r) []) as [[w1 inner] vs1].
      destruct (FanoutHandler.handleEach w g r []) as [[w1' inner'] vs1'].
      cbn [fst snd] in Hclone |- *. injection Hclone as -> ->.
      cbn [try].
      specialize (IH w1'
                    (match errors_Join (map Some inner') with
                     | Some err => errs1 ++ [err]
                     | None => errs1
                     end) (errs2 ++ inner')).
      cbv zeta in IH.
      destruct (FanoutHandler.handleEach w1' (map _ rest) r _) as [[wn errsn] vsn].
      destruct (FanoutHandler.handleEach w1' (concat rest) r _) as [[wf errsf] vsf].
      cbn [fst snd] in IH |- *.
      destruct IH as (Hw & more1 & more2 & He1 & He2 & Hiff).
      split; [exact Hw|].
      destruct (errors_Join (map Some inner')) as [e|] eqn:Hjoin.
      * exists (e :: more1), (inner' ++ more2).
        rewrite He1, He2, <- !app_assoc. split; [done|]. split; [done|].
        split; [discriminate|]. intros Happ.
        apply app_eq_nil in Happ as [Hin _].
        apply errors_Join_nil_iff in Hin. congruence.
      * apply errors_Join_nil_iff in Hjoin. subst inner'.
        exists more1, more2. rewrite app_nil_r in He2. done.
    + pose proof (handleEach_disabled w g r errs2 Hen) as Hskip.
      destruct (FanoutHandler.handleEach w g r errs2) as [[w1 e1] vs1].
      cbn [fst] in Hskip. injection Hskip as -> ->.
      specialize (IH w errs1 errs2). cbv zeta in IH.
      destruct (FanoutHandler.handleEach w (map _ rest) r errs1) as [[wn errsn] vsn].
      destruct (FanoutHandler.handleEach w (concat rest) r errs2) as [[wf errsf] vsf].
      exact IH.
Qed.

(** X23. Nesting fan-out handlers changes nothing of what is written.  A
    fan-out over fan-out handlers is enabled for the levels the fan-out over
    all their children in one list is enabled for, [Handle] leaves the same
    store, every child having been given the record in the same order and
    under the same test, and it returns nil for the one exactly when it does
    for the other. *)
Theorem nested_fanout_flattens (w : World) (groups : list (list H)) (r : slog.Record)
    (level : slog.Level) :
  let nested :=
    fanout.NewFanoutHandler
      {| fanout.Handlers :=
           map (fun g => fanout.NewFanoutHandler {| fanout.Handlers := g |}) groups |} in
  let flat := fanout.NewFanoutHandler {| fanout.Handlers := concat groups |} in
  FanoutHandler.Enabled w nested level = FanoutHandler.Enabled w flat level /\
  fst (FanoutHandler.Handle w nested r) = fst (FanoutHandler.Handle w flat r) /\
  (snd (FanoutHandler.Handle w nested r) = None <->
   snd (FanoutHandler.Handle w flat r) = None).
Proof.
  cbv zeta. split; [|].
  - unfold FanoutHandler.Enabled. cbn [fanout.Handlers fanout.options fanout.NewFanoutHandler].
    induction groups as [|g rest IH]; [done|].
    cbn [map concat FanoutHandler.anyEnabled]. rewrite anyEnabled_app, <- IH.
    change (Handler.Enabled w (fanout.NewFanoutHandler {| fanout.Handlers := g |}) level)
      with (FanoutHandler.anyEnabled w g level).
    by destruct (FanoutHandler.anyEnabled w g level).
  - unfold FanoutHandler.Handle. cbn [fanout.Handlers fanout.options fanout.NewFanoutHandler].
    pose proof (handleEach_nested groups r w [] []) as Hn. cbv zeta in Hn.
    destruct (FanoutHandler.handleEach w (map _ groups) r []) as [[wn errsn] vsn].
    destruct (FanoutHandler.handleEach w (concat groups) r []) as [[wf errsf] vsf].
    cbn [fst snd] in Hn |- *.
    destruct Hn as (Hw & more1 & more2 & -> & -> & Hiff). simpl.
    split; [exact Hw|]. by rewrite !errors_Join_nil_iff.
Qed.

End NestedFanout.

(** ** The logger of a context *)

Section LoggerContextProperties.
Context {L : Type} (slog_Default : L).

(** X24. The logger put in a context is the logger taken from it, also
    after values of other packages were added on top, and also when it is
    nil: a nil logger is returned as nil, not replaced by the default logger.
    The default logger is returned only for a context no logger was ever
    added to, and the logger added last hides those added before. *)
Theorem FromContext_AddToContext (ctx : context.Context L) (logger : option L)
    (keys : list string) :
  let others := map context.OtherEntry keys in
  FromContext slog_Default (others ++ AddToContext ctx logger) = logger /\
  FromContext slog_Default (others ++ []) = Some slog_Default /\
  forall earlier,
    FromContext slog_Default (AddToContext (others ++ AddToContext ctx earlier) logger) = logger.
Proof.
  cbv zeta. unfold FromContext, AddToContext.
  split; [|split; [|done]].
  - induction keys as [|k keys IH]; [done|]. exact IH.
  - induction keys as [|k keys IH]; [done|]. exact IH.
Qed.

End LoggerContextProperties.

(** ** Extension leaves the receiver as it is, for sinks of every shape *)

Section Framing.
Context `{env : Env}.

(** [Handle] of a console, file or discard handler changes no buffer;
    [Handle] of a forwarder changes its own. *)
Lemma Sink_Handle_buffers (w : World) (s : Sink) (r : slog.Record) (st : loc) :
  st ∉ buffersOf Sink_Shape w s ->
  Buffer.Bytes (fst (Sink_Handle w s r)) st = Buffer.Bytes w st.
Proof.
  destruct s as [h|h|h| |]; unfold Sink_Handle, returns; cbn [fst buffersOf Sink_Shape];
    intros Hst; try done.
  - unfold ConsoleHandler.Handle.
    destruct (Handler_Handle (console.handler (ConsoleHandler.deref w h)) r);
      destruct (console.ErrorHandler (console.options (ConsoleHandler.deref w h))); done.
  - unfold FileHandler.Handle.
    destruct (Handler_Handle (file.handler (FileHandler.deref w h)) r);
      destruct (file.ErrorHandler (file.options (FileHandler.deref w h))); done.
  - apply Handle_other_buffers. intros ->. apply Hst. by left.
Qed.

(** The handlers of this package are framed. *)
Lemma Sink_Framed : Framed Sink_Shape.
Proof.
  unfold Framed. repeat apply conj.
  - intros w s attrs.
    change (Handler.WithAttrs w s attrs) with (Sink_WithAttrs w s attrs).
    pose proof (Sink_WithAttrs_frame w s attrs) as Hs.
    destruct s as [h|h|h| |]; unfold Sink_WithAttrs in *.
    + destruct (ConsoleHandler.WithAttrs w h attrs) as [w1 c]. by destruct Hs as (? & ? & _).
    + destruct (FileHandler.WithAttrs w h attrs) as [w1 c]. by destruct Hs as (? & ? & _).
    + destruct (SentinelOneHECHandler.WithAttrs w h attrs) as [w1 c].
      by destruct Hs as (? & ? & _).
    + by destruct Hs as (? & _).
    + by destruct Hs as (? & _).
  - intros w s name.
    change (Handler.WithGroup w s name) with (Sink_WithGroup w s name).
    pose proof (Sink_WithGroup_frame w s name) as Hs. rewrite eqb_empty.
    destruct s as [h|h|h| |]; unfold Sink_WithGroup, ungrouped in *.
    + destruct (ConsoleHandler.WithGroup w h name) as [w1 c]. destruct Hs as (Hs & _).
      by destruct (String.length name =? 0)%nat.
    + destruct (FileHandler.WithGroup w h name) as [w1 c]. destruct Hs as (Hs & _).
      by destruct (String.length name =? 0)%nat.
    + destruct (SentinelOneHECHandler.WithGroup w h name) as [w1 c]. destruct Hs as (Hs & _).
      by destruct (String.length name =? 0)%nat.
    + destruct Hs as (Hs & _). destruct (String.length name =? 0)%nat; [done|].
      by destruct Hs.
    + destruct Hs as (Hs & _). destruct (String.length name =? 0)%nat; [done|].
      by destruct Hs.
  - intros w s r. change (Handler.Handle w s r) with (Sink_Handle w s r).
    destruct (Sink_Handle_frame w s r) as (Hsame & Hl).
    split; [exact Hsame|]. split; [exact Hl|]. intros st. apply Sink_Handle_buffers.
  - intros w w' s c (Hc & Hf & Hs & _).
    destruct s, c; simpl; try done; intros Hnone; eapply lookup_weaken_None; eauto.
  - intros w w' s (_ & _ & Hs). destruct s; simpl; try done.
    unfold SentinelOneHECHandler.deref. by rewrite Hs.
  - intros w w' s level. apply Sink_Enabled_same.
Qed.

End Framing.

Section FramingFanout.
Context {H : Type} `{handlers : Handler.Handler H} (shape : Shape H).

Lemma sameHandlers_trans (w1 w2 w3 : World) :
  sameHandlers w1 w2 -> sameHandlers w2 w3 -> sameHandlers w1 w3.
Proof. intros (? & ? & ?) (? & ? & ?). repeat split; congruence. Qed.

Lemma withAttrsEach_made (children : list H) (attrs : list slog.Attr) :
  Framed shape ->
  forall w : World,
    let '(w1, children') := FanoutHandler.withAttrsEach w children attrs in
    extends w w1 /\ Forall2 (made shape w) children children'.
Proof.
  intros (Hattrs & _ & _ & Hmono & _).
  induction children as [|child rest IH]; intros w; simpl.
  - split; [apply extends_refl | constructor].
  - pose proof (Hattrs w child attrs) as Hchild.
    destruct (Handler.WithAttrs w child attrs) as [w1 child'].
    destruct Hchild as (Hext & Hmade).
    specialize (IH w1). destruct (FanoutHandler.withAttrsEach w1 rest attrs) as [w2 rest'].
    destruct IH as (Hext' & Hrest).
    split; [by eapply extends_trans|]. constructor; [done|].
    eapply Forall2_impl; [exact Hrest|]. intros s c. by apply Hmono.
Qed.

Lemma withGroupEach_made (children : list H) (name : string) :
  Framed shape ->
  String.eqb name EmptyString = false ->
  forall w : World,
    let '(w1, children') := FanoutHandler.withGroupEach w children name in
    extends w w1 /\ Forall2 (made shape w) children children'.
Proof.
  intros (_ & Hgroup & _ & Hmono & _) Hname.
  induction children as [|child rest IH]; intros w; simpl.
  - split; [apply extends_refl | constructor].
  - pose proof (Hgroup w child name) as Hchild.
    destruct (Handler.WithGroup w child name) as [w1 child'].
    rewrite Hname in Hchild. destruct Hchild as (Hext & Hmade).
    specialize (IH w1). destruct (FanoutHandler.withGroupEach w1 rest name) as [w2 rest'].
    destruct IH as (Hext' & Hrest).
    split; [by eapply extends_trans|]. constructor; [done|].
    eapply Forall2_impl; [exact Hrest|]. intros s c. by apply Hmono.
Qed.

Lemma handleEach_framed (children : list H) (r : slog.Record) :
  Framed shape ->
  forall (w : World) (errs : list error),
    let w' := fst (fst (FanoutHandler.handleEach w children r errs)) in
    sameHandlers w w' /\ levelVars w' = levelVars w /\
    forall st, st ∉ concat (map (buffersOf shape w) children) ->
               Buffer.Bytes w' st = Buffer.Bytes w st.
Proof.
  intros (_ & _ & Hhandle & _ & Hbufs & _).
  induction children as [|child rest IH]; intros w errs; simpl; [done|].
  destruct (Handler.Enabled w child (slog.RLevel r)).
  - pose proof (Hhandle w child (slog.Clone r)) as Hchild. cbv zeta in Hchild.
    destruct (Handler.Handle w child (slog.Clone r)) as [w1 out]. cbn [fst] in Hchild.
    destruct Hchild as (Hsame & Hl & Hb).
    specialize (IH w1 (match try out with Some err => errs ++ [err] | None => errs end)).
    destruct (FanoutHandler.handleEach w1 rest r _) as [[w' errs'] vs]. cbn [fst] in IH |- *.
    destruct IH as (Hsame' & Hl' & Hb').
    split; [by eapply sameHandlers_trans|]. split; [congruence|].
    intros st Hst. rewrite not_elem_of_app in Hst. destruct Hst as (Hst1 & Hst2).
    rewrite Hb', Hb; [done | done |].
    replace (map (buffersOf shape w1) rest) with (map (buffersOf shape w) rest); [done|].
    apply map_ext. intros s. symmetry. by apply Hbufs.
  - specialize (IH w errs).
    destruct (FanoutHandler.handleEach w rest r errs) as [[w' errs'] vs]. cbn [fst] in IH |- *.
    destruct IH as (Hsame' & Hl' & Hb').
    split; [done|]. split; [done|].
    intros st Hst. rewrite not_elem_of_app in Hst. destruct Hst as (_ & Hst2). by apply Hb'.
Qed.

(** A fan-out over framed sinks is framed. *)
Lemma Fanout_Framed : Framed shape -> Framed (Fanout_Shape shape).
Proof.
  intros children_framed.
  pose proof children_framed as (_ & _ & _ & Hmono & Hbufs & Hen).
  unfold Framed. repeat apply conj.
  - intros w f attrs.
    change (Handler.WithAttrs w f attrs) with (FanoutHandler.WithAttrs w f attrs).
    unfold FanoutHandler.WithAttrs.
    pose proof (withAttrsEach_made (fanout.Handlers (fanout.options f)) attrs
                  children_framed w) as Hf.
    by destruct (FanoutHandler.withAttrsEach w _ attrs) as [w1 children'].
  - intros w f name.
    change (Handler.WithGroup w f name) with (FanoutHandler.WithGroup w f name).
    unfold FanoutHandler.WithGroup.
    destruct (String.eqb name EmptyString) eqn:Hname; [done|].
    pose proof (withGroupEach_made (fanout.Handlers (fanout.options f)) name
                  children_framed Hname w) as Hf.
    by destruct (FanoutHandler.withGroupEach w _ name) as [w1 children'].
  - intros w f r.
    change (Handler.Handle w f r) with (returns (FanoutHandler.Handle w f r)).
    unfold returns, FanoutHandler.Handle. cbn [fst].
    pose proof (handleEach_framed (fanout.Handlers (fanout.options f)) r
                  children_framed w []) as Hf.
    cbv zeta in Hf.
    by destruct (FanoutHandler.handleEach w _ r []) as [[w' errs] vs].
  - intros w w' f c Hext Hmade. simpl in *.
    eapply Forall2_impl; [exact Hmade|]. intros s c'. by apply Hmono.
  - intros w w' f Hsame. simpl. f_equal. apply map_ext. intros s. by apply Hbufs.
  - intros w w' f level Hsame Hl.
    change (Handler.Enabled w' f level) with (FanoutHandler.Enabled w' f level).
    change (Handler.Enabled w f level) with (FanoutHandler.Enabled w f level).
    unfold FanoutHandler.Enabled.
    induction (fanout.Handlers (fanout.options f)) as [|child rest IH]; simpl; [done|].
    by rewrite (Hen w w' child level Hsame Hl), IH.
Qed.

End FramingFanout.

Section FramingEither.
Context {A B : Type} `{first : Handler.Handler A} `{second : Handler.Handler B}.
Context (sa : Shape A) (sb : Shape B).

(** Sinks of two framed kinds are framed. *)
Lemma Either_Framed : Framed sa -> Framed sb -> Framed (Either_Shape sa sb).
Proof.
  intros (Ha1 & Ha2 & Ha3 & Ha4 & Ha5 & Ha6) (Hb1 & Hb2 & Hb3 & Hb4 & Hb5 & Hb6).
  unfold Framed. repeat apply conj.
  - intros w [a|b] attrs; simpl.
    + pose proof (Ha1 w a attrs) as Hs. by destruct (Handler.WithAttrs w a attrs).
    + pose proof (Hb1 w b attrs) as Hs. by destruct (Handler.WithAttrs w b attrs).
  - intros w [a|b] name; simpl.
    + pose proof (Ha2 w a name) as Hs. by destruct (Handler.WithGroup w a name).
    + pose proof (Hb2 w b name) as Hs. by destruct (Handler.WithGroup w b name).
  - intros w [a|b] r; simpl; [apply Ha3 | apply Hb3].
  - intros w w' [a|b] [a'|b'] Hext; simpl; try done; [by apply Ha4 | by apply Hb4].
  - intros w w' [a|b] Hsame; simpl; [by apply Ha5 | by apply Hb5].
  - intros w w' [a|b] level Hsame Hl; simpl; [by apply Ha6 | by apply Hb6].
Qed.

End FramingEither.




(** ** The properties at work *)

(** Three records of 40 bytes through a synchronous forwarder with a
    threshold of 100 bytes, then [Close]: all 120 bytes are delivered, in
    order. *)
Lemma handleAll_conserves_witness :
  let f := Scenario.forwarder 100 true None None in
  let w := Scenario.world f [] in
  let r := Scenario.recordOf slog.LevelInfo 39 in
  let w' := handleAll (env := Scenario.accepting) w 0 [r; r; r] in
  concat (delivered (events (fst (SentinelOneHECHandler.Close
                                    (env := Scenario.accepting) w' 0)))) =
    concat (replicate 3 (replicate 39 x78 ++ [x0a])).
Proof.
  cbv zeta.
  destruct (handleAll_conserves (env := Scenario.accepting) 0
              (replicate 3 (Scenario.recordOf slog.LevelInfo 39))
              (replicate 3 (replicate 39 x78))
              (Scenario.forwarder 100 true None None)
              (Scenario.world (Scenario.forwarder 100 true None None) []))
    as (_ & _ & Hall); [repeat constructor | reflexivity |].
  exact (Hall eq_refl).
Defined.

(** The same records through a forwarder with no threshold that sends
    asynchronously: a goroutine each for the first two, the third is in the
    buffer. *)
Lemma handleAll_unbuffered_witness :
  let f := Scenario.forwarder 0 false None None in
  let w := Scenario.world f [] in
  let r := Scenario.recordOf slog.LevelInfo 39 in
  let w' := handleAll (env := Scenario.accepting) w 0 [r; r; r] in
  map task_payload (goroutines w') = replicate 2 (replicate 39 x78 ++ [x0a]) /\
  delivered (events w') = [] /\
  Buffer.Bytes w' 0 = replicate 39 x78 ++ [x0a].
Proof.
  cbv zeta.
  destruct (handleAll_unbuffered (env := Scenario.accepting) 0
              (replicate 3 (Scenario.recordOf slog.LevelInfo 39))
              (replicate 3 (replicate 39 x78))
              (Scenario.forwarder 0 false None None)
              (Scenario.world (Scenario.forwarder 0 false None None) []))
    as (Hover & Hother & Hbuf); [reflexivity | repeat constructor | reflexivity |].
  split; [exact Hover|]. split; [exact Hother | exact Hbuf].
Defined.

(** A record handled by a handler derived with [WithGroup] is delivered by
    closing the handler it was derived from. *)
Lemma derived_handler_shares_buffer_witness :
  let f := Scenario.forwarder 100 true None None in
  let w := Scenario.world f [] in
  let r := Scenario.recordOf slog.LevelInfo 39 in
  let w1 := fst (SentinelOneHECHandler.WithGroup w 0 "request") in
  let c := snd (SentinelOneHECHandler.WithGroup w 0 "request") in
  let w2 := fst (SentinelOneHECHandler.Handle (env := Scenario.accepting) w1 c r) in
  let w3 := fst (SentinelOneHECHandler.Close (env := Scenario.accepting) w2 0) in
  c = 1 /\
  exists kept, delivered (events w3) = delivered (events w2) ++ [kept ++ replicate 39 x78 ++ [x0a]].
Proof.
  cbv zeta.
  destruct (derived_handler_shares_buffer (env := Scenario.accepting)
              (Scenario.world (Scenario.forwarder 100 true None None) [])
              0 [] "request" true (Scenario.recordOf slog.LevelInfo 39) (replicate 39 x78))
    as (_ & Hdel & _); [reflexivity|].
  split; [reflexivity | exact Hdel].
Defined.



(** The request for the first record of a handler built from the minimal
    options. *)
Lemma NewSentinelOneHECHandler_request_witness :
  let w := Scenario.world (Scenario.forwarder 100 true None None) [] in
  let w' := fst (NewSentinelOneHECHandler (pkg := declared) (proc := Fixture.process)
                   w (Fixture.minimal true)) in
  let r := Scenario.recordOf slog.LevelInfo 3 in
  let w2 := fst (SentinelOneHECHandler.Handle (env := Scenario.accepting) w' 1 r) in
  let w3 := fst (SentinelOneHECHandler.Close (env := Scenario.accepting) w2 1) in
  map (fun req => (URL req, Authorization req, S1Scope req)) (posted (events w3)) =
    [("https://ingest.example/services/collector/event"%string,
      "Bearer secret"%string, "1234"%string)].
Proof.
  cbv zeta.
  destruct (NewSentinelOneHECHandler_request (env := Scenario.accepting)
              (pkg := declared) (proc := Fixture.process)
              (Scenario.world (Scenario.forwarder 100 true None None) [])
              (fst (NewSentinelOneHECHandler (pkg := declared) (proc := Fixture.process)
                      (Scenario.world (Scenario.forwarder 100 true None None) [])
                      (Fixture.minimal true)))
              (Fixture.minimal true) 1
              (Scenario.recordOf slog.LevelInfo 3) (replicate 3 x78))
    as (_ & Hposted); [reflexivity | reflexivity | reflexivity | reflexivity | reflexivity |].
  exact (f_equal (map (fun req => (URL req, Authorization req, S1Scope req))) Hposted).
Defined.

(** Two forwarders built one after the other: the objects 1 and 2 with the
    buffers 1 and 2. *)
Lemma constructed_handlers_are_separate_witness :
  let w := Scenario.world (Scenario.forwarder 100 true None None) [] in
  let w1 := fst (NewSentinelOneHECHandler (pkg := declared) (proc := Fixture.process)
                   w (Fixture.minimal true)) in
  let w2 := fst (NewSentinelOneHECHandler (pkg := declared) (proc := Fixture.process)
                   w1 Fixture.levelled) in
  let r := Scenario.recordOf slog.LevelInfo 39 in
  sentinelone.state (SentinelOneHECHandler.deref w2 1) <>
    sentinelone.state (SentinelOneHECHandler.deref w2 2) /\
  Buffer.Bytes (fst (SentinelOneHECHandler.Handle (env := Scenario.accepting) w2 2 r)) 1 = [].
Proof.
  cbv zeta.
  destruct (constructed_handlers_are_separate (env := Scenario.accepting)
              (pkg := declared) (proc := Fixture.process)
              (Scenario.world (Scenario.forwarder 100 true None None) [])
              (fst (NewSentinelOneHECHandler (pkg := declared) (proc := Fixture.process)
                      (Scenario.world (Scenario.forwarder 100 true None None) [])
                      (Fixture.minimal true)))
              (fst (NewSentinelOneHECHandler (pkg := declared) (proc := Fixture.process)
                      (fst (NewSentinelOneHECHandler (pkg := declared)
                              (proc := Fixture.process)
                              (Scenario.world (Scenario.forwarder 100 true None None) [])
                              (Fixture.minimal true)))
                      Fixture.levelled))
              (Fixture.minimal true) Fixture.levelled 1 2
              (Scenario.recordOf slog.LevelInfo 39))
    as (_ & Hst & Hbuf & _); [reflexivity | reflexivity |].
  split; [exact Hst | exact Hbuf].
Defined.

(** A builder registered as " Syslog " is found as "SYSLOG". *)
Lemma RegisterBuilder_then_NewBuilderFromConfig_witness :
  let registered :=
    registry.RegisterBuilder Fixture.ToLower Fixture.TrimSpace Fixture.builtin
      " Syslog " (Some (Fixture.factory 6)) false in
  snd registered = None /\
  registry.NewBuilderFromConfig Fixture.ToLower Fixture.TrimSpace Fixture.json_Marshal
    (fst registered) "SYSLOG" tt = inr 6.
Proof.
  cbv zeta. split; [reflexivity|].
  exact (RegisterBuilder_then_NewBuilderFromConfig
           Fixture.ToLower Fixture.TrimSpace Fixture.json_Marshal
           Fixture.builtin
           (fst (registry.RegisterBuilder Fixture.ToLower Fixture.TrimSpace Fixture.builtin
                   " Syslog " (Some (Fixture.factory 6)) false))
           " Syslog " "SYSLOG" (Fixture.factory 6) false tt eq_refl eq_refl).
Defined.

(** Registering "Console" without overwriting is refused, and "console"
    still resolves to the builder of the package. *)
Lemma RegisterBuilder_keeps_the_others_witness :
  let registered :=
    registry.RegisterBuilder Fixture.ToLower Fixture.TrimSpace Fixture.builtin
      "Console" (Some (Fixture.factory 6)) false in
  registry.NewBuilderFromConfig Fixture.ToLower Fixture.TrimSpace Fixture.json_Marshal
    (fst registered) "console" tt = inr 1.
Proof.
  cbv zeta.
  exact (RegisterBuilder_keeps_the_others
           Fixture.ToLower Fixture.TrimSpace Fixture.json_Marshal
           Fixture.builtin "Console" "console" (Some (Fixture.factory 6)) false tt
           (or_intror (conj eq_refl (ex_intro _ (Fixture.factory 1) eq_refl)))).
Defined.


(** Three records of 40 bytes through an asynchronous forwarder with a
    threshold of 100 bytes: one goroutine for the first two; once it has run
    and the handler is closed, the 120 bytes are delivered in order. *)
Lemma async_handleAll_delivers_witness :
  let f := Scenario.forwarder 100 false None None in
  let w := Scenario.world f [] in
  let r := Scenario.recordOf slog.LevelInfo 39 in
  let w1 := handleAll (env := Scenario.accepting) w 0 [r; r; r] in
  let w2 := runAll (env := Scenario.accepting) w1 [0] in
  let w3 := fst (SentinelOneHECHandler.Close (env := Scenario.accepting) w2 0) in
  length (goroutines w1) = 1 /\
  goroutines w3 = [] /\
  concat (delivered (events w3)) = concat (replicate 3 (replicate 39 x78 ++ [x0a])).
Proof.
  cbv zeta.
  destruct (async_handleAll_delivers (env := Scenario.accepting) 0
              (replicate 3 (Scenario.recordOf slog.LevelInfo 39))
              (replicate 3 (replicate 39 x78))
              (Scenario.forwarder 100 false None None)
              (Scenario.world (Scenario.forwarder 100 false None None) [])
              [0])
    as (Hnone & _ & _ & batches & _ & _ & Hord);
    [reflexivity | repeat constructor | reflexivity | reflexivity
    | vm_compute; split; [lia | reflexivity] |].
  split; [reflexivity|]. split; [exact Hnone|].
  exact (Hord (Forall_cons_2 _ 0 [] eq_refl (Forall_nil_2 _))).
Defined.

(** A fan-out over a child whose [Close] fails, one whose [Close] panics
    and a third: the panic is the outcome, and the third child is not
    closed. *)
Example fanout_close_over_a_panicking_child :
  let failing := {| Fixture.ending := Returns (Some (ForeignError "disk full")) |} in
  let panicking := {| Fixture.ending := Panics (PanicOther "nil map") |} in
  let quiet := {| Fixture.ending := Returns None |} in
  let h := fanout.NewFanoutHandler {| fanout.Handlers := [failing; panicking; quiet] |} in
  let w := Scenario.world (Scenario.forwarder 100 true None None) [] in
  snd (FanoutCloser.Close w h) = Panics (PanicOther "nil map") /\
  length (events (fst (FanoutCloser.Close w h))) = 2 /\
  snd (FanoutCloser.Close w
         (fanout.NewFanoutHandler {| fanout.Handlers := [failing; quiet; failing] |})) =
    Returns (Some (JoinError [ForeignError "disk full"; ForeignError "disk full"])).
Proof. vm_compute. repeat split. Qed.

(** A fan-out over a forwarder with 80 bytes in its buffer, a handler
    derived from it, the discard handlers and a file handler: closing it
    delivers the 80 bytes once and returns nil. *)
Example fanout_close_over_sinks :
  let w := Scenario.world (Scenario.forwarder 100 true None None) (replicate 80 x78) in
  let w1 := fst (SentinelOneHECHandler.WithGroup w 0 "request") in
  let h := fanout.NewFanoutHandler
             {| fanout.Handlers := [SentinelOneHEC 0; Discard; SentinelOneHEC 1;
                                    SlogDiscard; File 0; Console 0] |} in
  let closed := FanoutCloser.Close (closers := Sink_Closer (env := Scenario.refusing)
                                                 (files := Fixture.sound)) w1 h in
  snd closed = Returns None /\
  delivered (events (fst closed)) = [replicate 80 x78] /\
  Buffer.Bytes (fst closed) 0 = [].
Proof. vm_compute. repeat split. Qed.

(** Building a fan-out from three builders of which the second fails, and
    from two that succeed. *)
Example fanout_build_all_or_nothing :
  let w := Scenario.world (Scenario.forwarder 100 true None None) [] in
  let build hbs :=
    snd (fanoutHandlerBuilder.Build (builders := Fixture.Numbered) w
           {| fanoutHandlerBuilder.HandlerBuilders := hbs |} None) in
  build [1; 0; 2] =
    inl (XError codes.BuildHandlerError "failed to build one or more handlers"
           (Some (JoinError [Errorf "failed to build 'stub' handler: %s"
                               (ForeignError "no such handler")]))) /\
  match build [1; 2] with
  | inr h => map Scenario.stub_level (fanout.Handlers (fanout.options h)) = [1; 2]%Z
  | inl _ => False
  end.
Proof. vm_compute. repeat split. Qed.
